(** * PriorBoxLayer (paddle/gserver/layers/PriorBox.cpp)

    A shallow embedding of [PriorBoxLayer::init] and
    [PriorBoxLayer::forward], and the properties of the prior-box
    generator checked against it.

    Modelling decisions.
    - C++ [int] values are integers of [Z] (sizes, grid and image
      dimensions), [int] being 32 bits wide, and positions in the buffer
      are in [nat].  A signed overflow is undefined behaviour: the
      products [layerHeight * layerWidth * numPriors_ * 4], [dim * 2] and
      [minSize * maxSize] are checked against the range of [int] and a run
      that leaves it ends with [Undefined Overflow].  The counters stay
      below bounds that have been checked.  The sizes of a configuration
      are taken as the [int] values [init] stores.
    - [float] (paddle's [real]) is IEEE-754 binary32 and [double] is
      binary64, both with round-to-nearest-even, through the executable
      specification [SpecFloat] of the standard library.  Every conversion
      the C++ typing rules insert is written out.
    - [sqrt] and [fabs] are the C functions on [double].
    - [tmpPtr[idx++] = v] on the raw pointer is a store into a buffer of
      known length; a store or a load outside of it is undefined behaviour
      and ends the run with [Undefined OutOfBounds].
    - [CHECK_EQ] aborts the process: the run ends with [CheckFailed].
    - [Matrix::resizeOrCreate] is not part of the translated file.  For a
      requested length that is not negative it leaves a buffer of that
      length whose contents are whatever the memory held; those contents
      are the parameter [uninit].  A negative length is a case the file
      leaves to the library: the model has an empty buffer there, and the
      statements that a run ends with a buffer are about grids of
      non-negative width and height. *)

From Stdlib Require Import ZArith List Bool Lia PeanoNat.
From Stdlib Require Import Floats.SpecFloat.
Import ListNotations.

Set Implicit Arguments.
Local Open Scope Z_scope.

(** ** Machine integers *)

(** The range of a 32-bit [int]. *)
Definition fits (z : Z) : bool := (- 2 ^ 31 <=? z) && (z <? 2 ^ 31).

(** ** IEEE-754 arithmetic *)

Definition float := spec_float.
Definition double := spec_float.

Module F32.
Definition prec : Z := 24.
Definition emax : Z := 128.
Definition of_int (z : Z) : float := binary_normalize prec emax z 0 false.
Definition of_double (x : double) : float :=
  match x with
  | S754_finite s m e => binary_round prec emax s m e
  | _ => x
  end.
Definition div : float -> float -> float := SFdiv prec emax.
Definition ltb : float -> float -> bool := SFltb.
Definition leb : float -> float -> bool := SFleb.
Definition zero : float := S754_zero false.
Definition one : float := Eval vm_compute in of_int 1.
End F32.

Module F64.
Definition prec : Z := 53.
Definition emax : Z := 1024.
Definition of_int (z : Z) : double := binary_normalize prec emax z 0 false.
Definition of_float (x : float) : double :=
  match x with
  | S754_finite s m e => binary_round prec emax s m e
  | _ => x
  end.
Definition add : double -> double -> double := SFadd prec emax.
Definition sub : double -> double -> double := SFsub prec emax.
Definition mul : double -> double -> double := SFmul prec emax.
Definition div : double -> double -> double := SFdiv prec emax.
Definition sqrt : double -> double := SFsqrt prec emax.
Definition fabs : double -> double := SFabs.
Definition ltb : double -> double -> bool := SFltb.
(** The conversion to [int]: truncation toward zero; undefined on NaN, on
    the infinities and when the truncated value does not fit. *)
Definition to_int (x : double) : option Z :=
  match x with
  | S754_zero _ => Some 0
  | S754_finite s m e =>
      let z :=
        cond_Zopp s
          (match e with
           | Zneg p => Z.shiftr (Zpos m) (Zpos p)
           | _ => Z.shiftl (Zpos m) e
           end) in
      if fits z then Some z else None
  | _ => None
  end.
(** The literals [0.5], [1.], [2.] and [1e-6]. *)
Definition half : double := Eval vm_compute in div (of_int 1) (of_int 2).
Definition one : double := Eval vm_compute in of_int 1.
Definition two : double := Eval vm_compute in of_int 2.
Definition lit_1e_6 : double :=
  Eval vm_compute in div (of_int 1) (of_int 1000000).
End F64.

(** [std::max] and [std::min] on [float], as the library defines them. *)
Definition std_max (a b : float) : float := if F32.ltb a b then b else a.
Definition std_min (a b : float) : float := if F32.ltb b a then b else a.

(** ** Runs of the generator: a buffer, a cursor, and the ways to stop *)

Inductive fault := OutOfBounds | Overflow | BadConversion.

Inductive outcome (A : Type) : Type :=
| Done (a : A)
| CheckFailed
| Undefined (f : fault).
Arguments CheckFailed {A}.
Arguments Undefined {A} f.

Record buffer := { tmpPtr : list float; idx : nat }.

Definition Run (A : Type) : Type := buffer -> outcome (A * buffer).

Definition ret {A} (a : A) : Run A := fun st => Done (a, st).

Definition bind {A B} (c : Run A) (k : A -> Run B) : Run B :=
  fun st =>
    match c st with
    | Done (a, st') => k a st'
    | CheckFailed => CheckFailed
    | Undefined f => Undefined f
    end.

Declare Scope run_scope.
Delimit Scope run_scope with run.
Notation "x <- c ;; k" := (bind c (fun x => k))
  (at level 100, c at next level, right associativity) : run_scope.
Notation "c ;; k" := (bind c (fun _ => k))
  (at level 100, right associativity) : run_scope.
Local Open Scope run_scope.

Definition stop {A} (f : fault) : Run A := fun _ => Undefined f.

(** [v[i] = x] on a sequence; the caller has checked the bound. *)
Fixpoint update (i : nat) (x : float) (l : list float) : list float :=
  match l, i with
  | [], _ => []
  | _ :: t, O => x :: t
  | y :: t, S j => y :: update j x t
  end.

(** [tmpPtr[idx++] = v]. *)
Definition put (v : float) : Run unit :=
  fun st =>
    if (idx st <? length (tmpPtr st))%nat
    then Done (tt, {| tmpPtr := update (idx st) v (tmpPtr st); idx := S (idx st) |})
    else Undefined OutOfBounds.

(** [tmpPtr[d]] read, and [tmpPtr[d] = v]. *)
Definition load (d : nat) : Run float :=
  fun st =>
    match nth_error (tmpPtr st) d with
    | Some v => Done (v, st)
    | None => Undefined OutOfBounds
    end.

Definition store (d : nat) (v : float) : Run unit :=
  fun st =>
    if (d <? length (tmpPtr st))%nat
    then Done (tt, {| tmpPtr := update d v (tmpPtr st); idx := idx st |})
    else Undefined OutOfBounds.

(** [vec[j]] on a [std::vector]. *)
Definition at_ {A} (vec : list A) (j : nat) : Run A :=
  match nth_error vec j with
  | Some v => ret v
  | None => stop OutOfBounds
  end.

(** The result of an [int] operation whose mathematical value is [z]. *)
Definition int_ (z : Z) : Run Z :=
  if fits z then ret z else stop Overflow.

(** [CHECK_EQ(a, b)]. *)
Definition CHECK_EQ (a b : nat) : Run unit :=
  fun st => if (a =? b)%nat then Done (tt, st) else CheckFailed.

(** [for (x : l) body]. *)
Fixpoint for_each {A} (l : list A) (body : A -> Run unit) : Run unit :=
  match l with
  | [] => ret tt
  | x :: r => body x ;; for_each r body
  end.

(** The values [0, 1, ..., n-1] of an [int] counter; none when [n <= 0]. *)
Definition range (n : Z) : list Z := map Z.of_nat (seq 0 (Z.to_nat n)).

(** [emit vs] is [tmpPtr[idx++] = v] for each [v] of [vs] in turn. *)
Definition emit (vs : list float) : Run unit := for_each vs put.

(** [vs] written over [l] from position [i] on. *)
Definition splice (i : nat) (vs l : list float) : list float :=
  firstn i l ++ vs ++ skipn (i + length vs) l.

(** ** The layer *)

Record PriorBoxConfig := {
  min_size : list Z;
  max_size : list Z;
  aspect_ratio : list float;
  variance : list float
}.

Record PriorBoxLayer := {
  numPriors_ : Z;
  minSize_ : list Z;
  maxSize_ : list Z;
  aspectRatio_ : list float;
  variance_ : list float
}.

(** [1 / r] on [float], the [int] 1 converted first. *)
Definition recip (r : float) : float := F32.div (F32.of_int 1) r.

(** The "flip" loop of [init]: [aspectRatio_.push_back(1 / aspectRatio_[index])]
    for [index] below the length the vector had on entry. *)
Definition flip (aspectRatio_ : list float) : list float :=
  let inputRatioLength := length aspectRatio_ in
  fold_left
    (fun vec index =>
       vec ++ [recip (nth index vec F32.zero)])
    (seq 0 inputRatioLength) aspectRatio_.

Definition init (pbConf : PriorBoxConfig) : bool * PriorBoxLayer :=
  let minSize_ := min_size pbConf in
  let maxSize_ := max_size pbConf in
  let aspectRatio_ := aspect_ratio pbConf in
  let variance_ := variance pbConf in
  let aspectRatio_ := flip aspectRatio_ in
  let aspectRatio_ := aspectRatio_ ++ [F32.of_double F64.one] in
  let numPriors_ := Z.of_nat (length aspectRatio_) in
  let numPriors_ :=
    if (0 <? length maxSize_)%nat then numPriors_ + 1 else numPriors_ in
  (true,
   {| numPriors_ := numPriors_; minSize_ := minSize_; maxSize_ := maxSize_;
      aspectRatio_ := aspectRatio_; variance_ := variance_ |}).

(** ** [forward] *)

Section Forward.
Variable L : PriorBoxLayer.
Variables layerWidth layerHeight imageWidth imageHeight : Z.

Definition stepW : float :=
  F32.div (F32.of_int imageWidth) (F32.of_int layerWidth).
Definition stepH : float :=
  F32.div (F32.of_int imageHeight) (F32.of_int layerHeight).
Definition dim : Z := layerHeight * layerWidth * numPriors_ L * 4.

(** Every product of [dim] and of the two [dim * 2] fits an [int]. *)
Definition dim_fits : bool :=
  fits (layerHeight * layerWidth) &&
  fits (layerHeight * layerWidth * numPriors_ L) &&
  fits dim && fits (dim * 2).

(** [(w + 0.5) * stepW], computed in [double] and stored in a [float]. *)
Definition center (w : Z) (step : float) : float :=
  F32.of_double (F64.mul (F64.add (F64.of_int w) F64.half) (F64.of_float step)).

(** [(center - box / 2.) / image] and [(center + box / 2.) / image], the
    box side already converted to [double]. *)
Definition lo (c : float) (box : double) (image : Z) : float :=
  F32.of_double
    (F64.div (F64.sub (F64.of_float c) (F64.div box F64.two)) (F64.of_int image)).
Definition hi (c : float) (box : double) (image : Z) : float :=
  F32.of_double
    (F64.div (F64.add (F64.of_float c) (F64.div box F64.two)) (F64.of_int image)).

(** The four stores [xmin, ymin, xmax, ymax] of one prior. *)
Definition put_box (centerX centerY : float) (boxWidth boxHeight : double)
  : Run unit :=
  put (lo centerX boxWidth imageWidth) ;;
  put (lo centerY boxHeight imageHeight) ;;
  put (hi centerX boxWidth imageWidth) ;;
  put (hi centerY boxHeight imageHeight).

(** [boxWidth = boxHeight = sqrt(minSize * maxSize)] with both variables
    declared [int]. *)
Definition second_size (minSize maxSize : Z) : Run Z :=
  product <- int_ (minSize * maxSize) ;;
  match F64.to_int (F64.sqrt (F64.of_int product)) with
  | Some z => ret z
  | None => stop BadConversion
  end.

(** One turn of the loop over [minSize_] (lines 93 to 116); the value
    returned is the one left in the variable [minSize]. *)
Definition size_step (centerX centerY : float) (s : Z) : Run Z :=
  let minSize := s in
  let boxWidth := minSize in
  let boxHeight := minSize in
  put_box centerX centerY (F64.of_int boxWidth) (F64.of_int boxHeight) ;;
  (if (0 <? length (maxSize_ L))%nat then
     CHECK_EQ (length (minSize_ L)) (length (maxSize_ L)) ;;
     for_each (maxSize_ L) (fun maxSize =>
       boxHeight <- second_size minSize maxSize ;;
       let boxWidth := boxHeight in
       put_box centerX centerY (F64.of_int boxWidth) (F64.of_int boxHeight))
   else ret tt) ;;
  ret minSize.

Fixpoint size_loop (centerX centerY : float) (sizes : list Z) (minSize : Z)
  : Run Z :=
  match sizes with
  | [] => ret minSize
  | s :: rest =>
      minSize <- size_step centerX centerY s ;;
      size_loop centerX centerY rest minSize
  end.

(** [fabs(ar - 1.) < 1e-6]. *)
Definition near_one (ar : float) : bool :=
  F64.ltb (F64.fabs (F64.sub (F64.of_float ar) F64.one)) F64.lit_1e_6.

(** [float boxWidth = minSize * sqrt(ar)], [float boxHeight = minSize / sqrt(ar)]. *)
Definition ratio_width (minSize : Z) (ar : float) : float :=
  F32.of_double (F64.mul (F64.of_int minSize) (F64.sqrt (F64.of_float ar))).
Definition ratio_height (minSize : Z) (ar : float) : float :=
  F32.of_double (F64.div (F64.of_int minSize) (F64.sqrt (F64.of_float ar))).

(** One turn of the loop over [aspectRatio_] (lines 118 to 127). *)
Definition ratio_step (centerX centerY : float) (minSize : Z) (ar : float)
  : Run unit :=
  if near_one ar then ret tt
  else
    let boxWidth := ratio_width minSize ar in
    let boxHeight := ratio_height minSize ar in
    put_box centerX centerY (F64.of_float boxWidth) (F64.of_float boxHeight).

(** The body of the loops over [h] and [w] (lines 90 to 127). *)
Definition cell (h w : Z) : Run unit :=
  let centerX := center w stepW in
  let centerY := center h stepH in
  minSize <- size_loop centerX centerY (minSize_ L) 0 ;;
  for_each (aspectRatio_ L) (ratio_step centerX centerY minSize).

(** Lines 87 to 129. *)
Definition fill_boxes : Run unit :=
  for_each (range layerHeight) (fun h =>
    for_each (range layerWidth) (fun w => cell h w)).

(** Lines 131 and 132. *)
Definition clip (v : float) : float :=
  std_min (std_max v F32.zero) F32.one.

Definition clip_all : Run unit :=
  for_each (range dim) (fun d =>
    v <- load (Z.to_nat d) ;;
    store (Z.to_nat d) (clip v)).

(** Lines 134 to 137. *)
Definition fill_variance : Run unit :=
  for_each (range layerHeight) (fun _ =>
    for_each (range layerWidth) (fun _ =>
      for_each (range (numPriors_ L)) (fun _ =>
        for_each (seq 0 4) (fun j =>
          v <- at_ (variance_ L) j ;;
          put v)))).

(** The buffer [resizeOrCreate] hands over: [dim * 2] cells of whatever
    the memory held. *)
Definition fresh (uninit : nat -> float) : buffer :=
  {| tmpPtr := map uninit (seq 0 (Z.to_nat (dim * 2))); idx := 0 |}.

(** The whole of [forward]; the result is what [copyFrom] moves to the
    output, the first [dim * 2] cells of the buffer. *)
Definition forward (uninit : nat -> float) : outcome (list float) :=
  if dim_fits then
    match (fill_boxes ;; clip_all ;; fill_variance) (fresh uninit) with
    | Done (_, st) => Done (firstn (Z.to_nat (dim * 2)) (tmpPtr st))
    | CheckFailed => CheckFailed
    | Undefined f => Undefined f
    end
  else Undefined Overflow.

(** *** The values a run leaves, described as sequences *)

(** The coordinates of one prior, in the order they are stored. *)
Definition box (centerX centerY : float) (boxWidth boxHeight : double)
  : list float :=
  [lo centerX boxWidth imageWidth; lo centerY boxHeight imageHeight;
   hi centerX boxWidth imageWidth; hi centerY boxHeight imageHeight].

(** The side [second_size] leaves in the [int] variables. *)
Definition trunc_sqrt (minSize maxSize : Z) : Z :=
  match F64.to_int (F64.sqrt (F64.of_int (minSize * maxSize))) with
  | Some z => z
  | None => 0
  end.

Definition size_boxes (centerX centerY : float) (minSize : Z) : list float :=
  box centerX centerY (F64.of_int minSize) (F64.of_int minSize) ++
  flat_map (fun maxSize =>
              let side := F64.of_int (trunc_sqrt minSize maxSize) in
              box centerX centerY side side)
           (maxSize_ L).

Definition ratio_boxes (centerX centerY : float) (minSize : Z) (ar : float)
  : list float :=
  if near_one ar then []
  else box centerX centerY (F64.of_float (ratio_width minSize ar))
                           (F64.of_float (ratio_height minSize ar)).

Definition cell_boxes (h w : Z) : list float :=
  let centerX := center w stepW in
  let centerY := center h stepH in
  flat_map (size_boxes centerX centerY) (minSize_ L) ++
  flat_map (ratio_boxes centerX centerY (last (minSize_ L) 0)) (aspectRatio_ L).

Definition all_boxes : list float :=
  flat_map (fun h => flat_map (fun w => cell_boxes h w) (range layerWidth))
           (range layerHeight).

(** The number of cells the loops visit. *)
Definition cells : nat := (Z.to_nat layerHeight * Z.to_nat layerWidth)%nat.

(** The counts of the specification. *)
Definition countOfUnityRatios : nat :=
  length (filter near_one (aspectRatio_ L)).
Definition actualPriorsPerCell : nat :=
  (length (minSize_ L) * (1 + length (maxSize_ L)) +
   (length (aspectRatio_ L) - countOfUnityRatios))%nat.

(** The variance block the last loop writes. *)
Definition variance_block : list float :=
  concat (repeat (firstn 4 (variance_ L)) (cells * Z.to_nat (numPriors_ L))).

(** Conditions on the layer: the run passes [CHECK_EQ] whenever it gets
    there, and every product of two sizes fits an [int] and has a square
    root that converts to [int]. *)
Definition lengths_agree : Prop :=
  maxSize_ L = [] \/ length (minSize_ L) = length (maxSize_ L).
Definition check_passes : Prop := minSize_ L = [] \/ lengths_agree.
Definition converts (minSize maxSize : Z) : Prop :=
  fits (minSize * maxSize) = true /\
  F64.to_int (F64.sqrt (F64.of_int (minSize * maxSize))) <> None.
Definition sizes_convert : Prop :=
  forall m M, In m (minSize_ L) -> In M (maxSize_ L) -> converts m M.

(** The four values [variance_[0..3]] as the last loop reads them. *)
Definition variance_quad : list float :=
  flat_map (fun j => [nth j (variance_ L) F32.zero]) (seq 0 4).

(** The buffer after the clipping loop. *)
Definition clipped (l : list float) : list float :=
  map clip (firstn (Z.to_nat dim) l) ++ skipn (Z.to_nat dim) l.
End Forward.

(** ** Predicates on runs and on values used in the statements *)

Definition never_aborts {A} (c : Run A) : Prop := forall st, c st <> CheckFailed.

(** Two runs are compared through the position of the cursor and the
    length of the buffer, all that the stores and the checks look at. *)
Definition shape (st : buffer) : nat * nat := (idx st, length (tmpPtr st)).

Definition same_end {A B} (R : A -> B -> Prop)
  (o : outcome (A * buffer)) (o' : outcome (B * buffer)) : Prop :=
  match o, o' with
  | Done (a, s), Done (b, s') => R a b /\ shape s = shape s'
  | CheckFailed, CheckFailed => True
  | Undefined f, Undefined f' => f = f'
  | _, _ => False
  end.

Definition alike {A B} (R : A -> B -> Prop) (c : Run A) (c' : Run B) : Prop :=
  forall st st', shape st = shape st' -> same_end R (c st) (c' st').

Definition any {A B} : A -> B -> Prop := fun _ _ => True.

(** How a run of [forward] ended, the buffer left out. *)
Definition kind {A} (o : outcome A) : outcome unit :=
  match o with
  | Done _ => Done tt
  | CheckFailed => CheckFailed
  | Undefined f => Undefined f
  end.

(** The value is a number: zero, finite or infinite. *)
Definition number (x : spec_float) : Prop := x <> S754_nan.

(** The value is a number, with the sign [s]. *)
Definition signed (s : bool) (x : spec_float) : Prop :=
  match x with
  | S754_zero s' | S754_infinity s' | S754_finite s' _ _ => s' = s
  | S754_nan => False
  end.

(** In the format of precision [prec] and largest exponent [emax]: the
    value is zero or finite, below [2^B] in magnitude, with an exponent
    no larger than the format gives to such a magnitude. *)
Definition bnd (prec emax B : Z) (x : spec_float) : Prop :=
  match x with
  | S754_zero _ => True
  | S754_finite _ m e =>
      Zpos (digits2_pos m) + e <= B /\ e <= SpecFloat.fexp prec emax B
  | _ => False
  end.

(** [nonneg x]: [x] does not carry a minus sign (NaN has none). *)
Definition nonneg (x : spec_float) : Prop :=
  match x with
  | S754_zero s | S754_infinity s | S754_finite s _ _ => s = false
  | S754_nan => True
  end.

(** [c / image], computed like the coordinates are. *)
Definition point (c : float) (image : Z) : float :=
  F32.of_double (F64.div (F64.of_float c) (F64.of_int image)).

(** The square root of the ratio is a finite, non-zero number. *)
Definition finite_root (ar : float) : Prop :=
  match F64.sqrt (F64.of_float ar) with
  | S754_finite false _ _ => True
  | _ => False
  end.

(** [writes c vs a]: whenever [c] ends well, it has returned [a] and done
    exactly the stores of [emit vs]. *)
Definition writes {A} (c : Run A) (vs : list float) (a : A) : Prop :=
  forall st r st', c st = Done (r, st') -> r = a /\ emit vs st = Done (tt, st').

(** [0 <= v && v <= 1] on [float]. *)
Definition in_unit (v : float) : Prop :=
  F32.leb F32.zero v = true /\ F32.leb v F32.one = true.

(** A positive [int]. *)
Definition positive_int (z : Z) : Prop := 0 < z < 2 ^ 31.

(** A finite [float] above zero. *)
Definition positive_float (x : float) : Prop :=
  match x with
  | S754_finite false _ _ => True
  | _ => False
  end.

(** The configurations of the data model that have a minimum size:
    positive sizes, no maximum size or as many as minimum sizes, positive
    ratios, four variances. *)
Definition valid_configuration (pbConf : PriorBoxConfig) : Prop :=
  min_size pbConf <> [] /\
  Forall positive_int (min_size pbConf) /\
  Forall positive_int (max_size pbConf) /\
  (max_size pbConf = [] \/
   length (max_size pbConf) = length (min_size pbConf)) /\
  Forall positive_float (aspect_ratio pbConf) /\
  length (variance pbConf) = 4%nat.

(** Positive grid and image dimensions. *)
Definition valid_dimensions (layerWidth layerHeight imageWidth imageHeight : Z)
  : Prop :=
  positive_int layerWidth /\ positive_int layerHeight /\
  positive_int imageWidth /\ positive_int imageHeight.

(** ** Configurations used as examples *)

Module Examples.
(** [n / 10] as a [float]: [0.1f] is [tenths 1]. *)
Definition tenths (n : Z) : float := F32.div (F32.of_int n) (F32.of_int 10).
Definition variance_ssd : list float := [tenths 1; tenths 1; tenths 2; tenths 2].

Definition scenario_A : PriorBoxConfig :=
  {| min_size := [30]; max_size := []; aspect_ratio := [F32.of_int 2];
     variance := variance_ssd |}.
Definition scenario_B : PriorBoxConfig :=
  {| min_size := [30]; max_size := [60]; aspect_ratio := [];
     variance := variance_ssd |}.
Definition two_min_sizes : PriorBoxConfig :=
  {| min_size := [30; 60]; max_size := []; aspect_ratio := [F32.of_int 2];
     variance := variance_ssd |}.
Definition three_min_sizes : PriorBoxConfig :=
  {| min_size := [30; 60; 90]; max_size := []; aspect_ratio := [];
     variance := variance_ssd |}.
Definition unit_ratio : PriorBoxConfig :=
  {| min_size := [30]; max_size := []; aspect_ratio := [F32.one];
     variance := variance_ssd |}.
Definition no_min_size : PriorBoxConfig :=
  {| min_size := []; max_size := [60]; aspect_ratio := [F32.of_int 2];
     variance := variance_ssd |}.
(** The smallest positive [float], [2^-149]; its reciprocal overflows. *)
Definition tiny : float := S754_finite false 1 (-149).
Definition tiny_ratio : PriorBoxConfig :=
  {| min_size := []; max_size := []; aspect_ratio := [tiny];
     variance := variance_ssd |}.
End Examples.
Import Examples.


(** ** What a run of consecutive stores does *)

Lemma update_length i x l : length (update i x l) = length l.
Proof.
  revert i; induction l as [|y t IH]; intros [|j]; simpl; auto.
Qed.

Lemma update_split i x l :
  (i < length l)%nat -> update i x l = firstn i l ++ x :: skipn (S i) l.
Proof.
  revert i; induction l as [|y t IH]; intros [|j] Hlt; simpl in *; try lia; auto.
  f_equal. apply IH. lia.
Qed.

Lemma splice_length i vs l :
  (i + length vs <= length l)%nat -> length (splice i vs l) = length l.
Proof.
  intros Hle. unfold splice.
  rewrite !length_app, length_firstn, length_skipn. lia.
Qed.

Lemma splice_nil i l : splice i [] l = l.
Proof.
  unfold splice. simpl. rewrite Nat.add_0_r. apply firstn_skipn.
Qed.

Lemma splice_cons i v vs l :
  (i < length l)%nat ->
  splice (S i) vs (update i v l) = splice i (v :: vs) l.
Proof.
  unfold splice. revert i; induction l as [|y t IH]; intros [|j] Hlt;
    simpl in *; try lia; auto.
  f_equal. apply IH. lia.
Qed.

Lemma emit_cons v vs st : emit (v :: vs) st = (put v ;; emit vs) st.
Proof. reflexivity. Qed.

Lemma emit_run vs st :
  (idx st <= length (tmpPtr st))%nat ->
  emit vs st =
  if (idx st + length vs <=? length (tmpPtr st))%nat
  then Done (tt, {| tmpPtr := splice (idx st) vs (tmpPtr st);
                    idx := idx st + length vs |})
  else Undefined OutOfBounds.
Proof.
  revert st; induction vs as [|v vs IH]; intros [l i] Hi; simpl in *.
  - rewrite Nat.add_0_r, splice_nil.
    destruct (Nat.leb_spec i (length l)); [reflexivity | lia].
  - rewrite emit_cons. unfold bind at 1. unfold put at 1. simpl.
    destruct (Nat.ltb_spec i (length l)) as [Hlt|Hge].
    + rewrite IH; cbn [idx tmpPtr]; rewrite update_length; [|lia].
      rewrite splice_cons by assumption.
      replace (S i + length vs)%nat with (i + S (length vs))%nat by lia.
      reflexivity.
    + destruct (Nat.leb_spec (i + S (length vs)) (length l)); [lia | reflexivity].
Qed.

(** Laws of [bind], pointwise. *)
Lemma bind_ext A B (c c' : Run A) (k k' : A -> Run B) st :
  c st = c' st -> (forall a st', k a st' = k' a st') ->
  bind c k st = bind c' k' st.
Proof.
  intros Hc Hk. unfold bind. rewrite Hc.
  destruct (c' st) as [[a st']| |]; auto.
Qed.

Lemma bind_assoc A B C (c : Run A) (k : A -> Run B) (k' : B -> Run C) st :
  bind (bind c k) k' st = bind c (fun a => bind (k a) k') st.
Proof.
  unfold bind. destruct (c st) as [[a st']| |]; auto.
Qed.

Lemma bind_ret_r A (c : Run A) st : bind c (@ret A) st = c st.
Proof.
  unfold bind, ret. destruct (c st) as [[a st']| |]; auto.
Qed.

Lemma bind_unit_ret (c : Run unit) st : (c ;; ret tt) st = c st.
Proof.
  unfold bind, ret. destruct (c st) as [[[] st']| |]; auto.
Qed.

Lemma emit_app a b st : emit (a ++ b) st = (emit a ;; emit b) st.
Proof.
  revert st; induction a as [|v a IH]; intros st.
  - reflexivity.
  - rewrite <- app_comm_cons, emit_cons.
    change (emit (v :: a)) with (put v ;; emit a).
    rewrite bind_assoc. apply bind_ext; auto.
Qed.

Lemma for_each_emit A (f : A -> list float) (body : A -> Run unit) l :
  (forall x st, In x l -> body x st = emit (f x) st) ->
  forall st, for_each l body st = emit (flat_map f l) st.
Proof.
  induction l as [|x l IH]; intros Hb st; cbn [for_each flat_map].
  - reflexivity.
  - rewrite emit_app. apply bind_ext.
    + apply Hb. now left.
    + intros _ st'. apply IH. intros y st'' Hy. apply Hb. now right.
Qed.

Lemma for_each_nothing A (body : A -> Run unit) l :
  (forall x st, In x l -> body x st = ret tt st) ->
  forall st, for_each l body st = ret tt st.
Proof.
  induction l as [|x l IH]; intros Hb st; simpl.
  - reflexivity.
  - unfold bind. rewrite Hb by now left. unfold ret at 1.
    apply IH. intros y st' Hy. apply Hb. now right.
Qed.

Lemma last_cons (m : Z) l d : last (m :: l) d = last l m.
Proof.
  revert m d; induction l as [|x l IH]; intros m d; [reflexivity|].
  change (last (m :: x :: l) d) with (last (x :: l) d).
  now rewrite (IH x d), (IH x m).
Qed.

(** ** The loops of [forward] as runs of stores *)

Section Refinement.
Variable L : PriorBoxLayer.
Variables layerWidth layerHeight imageWidth imageHeight : Z.

Lemma put_box_emit cx cy bw bh st :
  put_box imageWidth imageHeight cx cy bw bh st =
  emit (box imageWidth imageHeight cx cy bw bh) st.
Proof.
  unfold put_box, box. rewrite !emit_cons.
  repeat (apply bind_ext; [reflexivity | intros _ ?]).
  symmetry. apply bind_unit_ret.
Qed.

Lemma second_size_run m M st :
  converts m M -> second_size m M st = ret (trunc_sqrt m M) st.
Proof.
  intros [Hfits Hconv]. unfold second_size, trunc_sqrt, bind, int_.
  rewrite Hfits. unfold ret at 1.
  destruct (F64.to_int _); [reflexivity | congruence].
Qed.

Lemma size_step_emit cx cy m st :
  lengths_agree L ->
  (forall M, In M (maxSize_ L) -> converts m M) ->
  size_step L imageWidth imageHeight cx cy m st =
  (emit (size_boxes L imageWidth imageHeight cx cy m) ;; ret m) st.
Proof.
  intros Hck Hconv. unfold size_step, size_boxes.
  transitivity
    ((emit (box imageWidth imageHeight cx cy (F64.of_int m) (F64.of_int m)) ;;
      emit (flat_map
              (fun maxSize =>
                 let side := F64.of_int (trunc_sqrt m maxSize) in
                 box imageWidth imageHeight cx cy side side) (maxSize_ L)) ;;
      ret m) st).
  2:{ rewrite <- bind_assoc. apply bind_ext; [|reflexivity].
      symmetry. apply emit_app. }
  apply bind_ext; [apply put_box_emit|]. intros _ st1.
  apply bind_ext; [|reflexivity].
  destruct (Nat.ltb_spec 0 (length (maxSize_ L))) as [Hpos|Hzero].
  - assert (Heq : length (minSize_ L) = length (maxSize_ L)).
    { destruct Hck as [Hnil|Heq]; [rewrite Hnil in Hpos; simpl in Hpos; lia | exact Heq]. }
    unfold bind at 1, CHECK_EQ. rewrite Heq, Nat.eqb_refl.
    apply for_each_emit. intros M st2 HM.
    unfold bind at 1. rewrite second_size_run by auto. unfold ret.
    apply put_box_emit.
  - destruct (maxSize_ L); [reflexivity | simpl in Hzero; lia].
Qed.

Lemma size_loop_emit cx cy sizes m0 st :
  lengths_agree L ->
  (forall m M, In m sizes -> In M (maxSize_ L) -> converts m M) ->
  size_loop L imageWidth imageHeight cx cy sizes m0 st =
  (emit (flat_map (size_boxes L imageWidth imageHeight cx cy) sizes) ;;
   ret (last sizes m0)) st.
Proof.
  intros Hck. revert m0 st.
  induction sizes as [|m sizes IH]; intros m0 st Hconv.
  - reflexivity.
  - cbn [size_loop flat_map].
    transitivity
      ((emit (size_boxes L imageWidth imageHeight cx cy m) ;;
        emit (flat_map (size_boxes L imageWidth imageHeight cx cy) sizes) ;;
        ret (last (m :: sizes) m0)) st).
    2:{ rewrite <- bind_assoc. apply bind_ext; [|reflexivity].
        symmetry. apply emit_app. }
    unfold bind at 1.
    rewrite size_step_emit; auto.
    2:{ intros M HM. apply Hconv; [now left | exact HM]. }
    unfold bind at 1 2 3.
    destruct (emit (size_boxes L imageWidth imageHeight cx cy m) st)
      as [[[] st1]| |]; auto.
    unfold ret at 1. rewrite IH.
    2:{ intros m' M Hm' HM. apply Hconv; [now right | exact HM]. }
    apply bind_ext; [reflexivity|]. intros _ st2.
    now rewrite last_cons.
Qed.

Lemma ratio_step_emit cx cy m ar st :
  ratio_step imageWidth imageHeight cx cy m ar st =
  emit (ratio_boxes imageWidth imageHeight cx cy m ar) st.
Proof.
  unfold ratio_step, ratio_boxes. destruct (near_one ar).
  - reflexivity.
  - apply put_box_emit.
Qed.

Lemma cell_emit h w st :
  check_passes L -> sizes_convert L ->
  cell L layerWidth layerHeight imageWidth imageHeight h w st =
  emit (cell_boxes L layerWidth layerHeight imageWidth imageHeight h w) st.
Proof.
  intros Hck Hconv. unfold cell, cell_boxes.
  rewrite emit_app. unfold bind at 1.
  assert (Hsize : forall cx cy,
            size_loop L imageWidth imageHeight cx cy (minSize_ L) 0 st =
            (emit (flat_map (size_boxes L imageWidth imageHeight cx cy)
                     (minSize_ L)) ;;
             ret (last (minSize_ L) 0)) st).
  { intros cx cy. destruct Hck as [Hnil|Hagree].
    - rewrite Hnil. reflexivity.
    - now apply size_loop_emit. }
  rewrite Hsize.
  unfold bind at 1 2.
  destruct (emit _ st) as [[[] st1]| |]; auto.
  unfold ret at 1.
  apply for_each_emit. intros ar st2 _. apply ratio_step_emit.
Qed.

Lemma fill_boxes_emit st :
  check_passes L -> sizes_convert L ->
  fill_boxes L layerWidth layerHeight imageWidth imageHeight st =
  emit (all_boxes L layerWidth layerHeight imageWidth imageHeight) st.
Proof.
  intros Hck Hconv. unfold fill_boxes, all_boxes.
  apply for_each_emit. intros h st1 _.
  apply for_each_emit. intros w st2 _.
  now apply cell_emit.
Qed.

(** Lengths. *)
Lemma flat_map_length_const A (f : A -> list float) n l :
  (forall x, In x l -> length (f x) = n) ->
  length (flat_map f l) = (length l * n)%nat.
Proof.
  induction l as [|x l IH]; intros Hf; simpl.
  - reflexivity.
  - rewrite length_app, Hf, IH by auto with datatypes.
    reflexivity.
Qed.

Lemma range_length n : length (range n) = Z.to_nat n.
Proof. unfold range. now rewrite length_map, length_seq. Qed.

Lemma size_boxes_length cx cy m :
  length (size_boxes L imageWidth imageHeight cx cy m) =
  (4 * (1 + length (maxSize_ L)))%nat.
Proof.
  unfold size_boxes. rewrite length_app.
  rewrite flat_map_length_const with (n := 4%nat) by reflexivity.
  simpl. lia.
Qed.

Lemma ratio_boxes_length cx cy m ars :
  length (flat_map (ratio_boxes imageWidth imageHeight cx cy m) ars) =
  (4 * (length ars - length (filter near_one ars)))%nat.
Proof.
  induction ars as [|ar ars IH]; [reflexivity|].
  cbn [flat_map filter]. rewrite length_app, IH.
  assert (Hle : (length (filter near_one ars) <= length ars)%nat)
    by apply filter_length_le.
  unfold ratio_boxes. destruct (near_one ar); cbn [length box]; lia.
Qed.

Lemma cell_boxes_length h w :
  length (cell_boxes L layerWidth layerHeight imageWidth imageHeight h w) =
  (4 * actualPriorsPerCell L)%nat.
Proof.
  unfold cell_boxes, actualPriorsPerCell, countOfUnityRatios.
  rewrite length_app, ratio_boxes_length.
  rewrite flat_map_length_const
    with (n := (4 * (1 + length (maxSize_ L)))%nat)
    by (intros; apply size_boxes_length).
  lia.
Qed.

Lemma all_boxes_length :
  length (all_boxes L layerWidth layerHeight imageWidth imageHeight) =
  (cells layerWidth layerHeight * (4 * actualPriorsPerCell L))%nat.
Proof.
  unfold all_boxes, cells.
  rewrite flat_map_length_const
    with (n := (Z.to_nat layerWidth * (4 * actualPriorsPerCell L))%nat).
  - rewrite range_length. lia.
  - intros h _.
    rewrite flat_map_length_const with (n := (4 * actualPriorsPerCell L)%nat).
    + now rewrite range_length.
    + intros w _. apply cell_boxes_length.
Qed.

(** The clipping loop. *)
Lemma update_middle pre v x rest :
  update (length pre) x (pre ++ v :: rest) = pre ++ x :: rest.
Proof. induction pre as [|y pre IH]; simpl; [reflexivity | now rewrite IH]. Qed.

Lemma clip_step pre v rest i :
  (v0 <- load (length pre) ;; store (length pre) (clip v0))
    {| tmpPtr := pre ++ v :: rest; idx := i |} =
  Done (tt, {| tmpPtr := pre ++ clip v :: rest; idx := i |}).
Proof.
  unfold bind, load, store. cbn [tmpPtr idx].
  rewrite nth_error_app2, Nat.sub_diag by lia. cbn [nth_error tmpPtr idx].
  rewrite length_app. cbn [length].
  destruct (Nat.ltb_spec (length pre) (length pre + S (length rest)));
    [|lia].
  now rewrite update_middle.
Qed.

Lemma clip_loop_run n pre rest i :
  (n <= length rest)%nat ->
  for_each (map Z.of_nat (seq (length pre) n))
    (fun d => v <- load (Z.to_nat d) ;; store (Z.to_nat d) (clip v))
    {| tmpPtr := pre ++ rest; idx := i |} =
  Done (tt, {| tmpPtr := pre ++ map clip (firstn n rest) ++ skipn n rest;
               idx := i |}).
Proof.
  revert pre rest; induction n as [|n IH]; intros pre rest Hn.
  - reflexivity.
  - destruct rest as [|v rest]; [simpl in Hn; lia|].
    cbn [seq map for_each]. unfold bind at 1.
    rewrite Nat2Z.id, clip_step.
    specialize (IH (pre ++ [clip v]) rest).
    rewrite length_app in IH. cbn [length] in IH.
    rewrite Nat.add_1_r in IH. rewrite <- app_assoc in IH. cbn [app] in IH.
    rewrite IH by (simpl in Hn; lia).
    rewrite <- app_assoc. reflexivity.
Qed.

Lemma clip_all_run l i :
  (Z.to_nat (dim L layerWidth layerHeight) <= length l)%nat ->
  clip_all L layerWidth layerHeight {| tmpPtr := l; idx := i |} =
  Done (tt, {| tmpPtr := clipped L layerWidth layerHeight l; idx := i |}).
Proof.
  intros Hle. unfold clip_all, clipped, range.
  exact (@clip_loop_run _ [] l i Hle).
Qed.

(** The variance loop. *)
Lemma variance_quad_emit st :
  (4 <= length (variance_ L))%nat ->
  for_each (seq 0 4) (fun j => v <- at_ (variance_ L) j ;; put v) st =
  emit (firstn 4 (variance_ L)) st.
Proof.
  intros Hlen.
  destruct (variance_ L) as [|v0 [|v1 [|v2 [|v3 rest]]]];
    simpl in Hlen; try lia.
  reflexivity.
Qed.

Lemma flat_map_const A (vs : list float) n (l : list A) :
  flat_map (fun _ => concat (repeat vs n)) l =
  concat (repeat vs (length l * n)).
Proof.
  induction l as [|x l IH]; [reflexivity|].
  cbn [flat_map length Nat.mul]. rewrite IH, repeat_app, concat_app.
  reflexivity.
Qed.

Lemma fill_variance_emit st :
  (4 <= length (variance_ L))%nat ->
  fill_variance L layerWidth layerHeight st =
  emit (variance_block L layerWidth layerHeight) st.
Proof.
  intros Hlen. unfold fill_variance, variance_block, cells.
  rewrite <- (range_length layerHeight), <- (range_length layerWidth),
    <- (range_length (numPriors_ L)).
  rewrite <- Nat.mul_assoc, <- !flat_map_const.
  apply for_each_emit. intros _ st1 _.
  apply for_each_emit. intros _ st2 _.
  rewrite <- (Nat.mul_1_r (length (range (numPriors_ L)))).
  rewrite <- flat_map_const.
  apply for_each_emit. intros _ st3 _.
  cbn [repeat concat]. rewrite app_nil_r.
  now apply variance_quad_emit.
Qed.

Lemma variance_block_length :
  (4 <= length (variance_ L))%nat ->
  length (variance_block L layerWidth layerHeight) =
  (cells layerWidth layerHeight * Z.to_nat (numPriors_ L) * 4)%nat.
Proof.
  intros Hlen. unfold variance_block.
  generalize (cells layerWidth layerHeight * Z.to_nat (numPriors_ L))%nat.
  induction n as [|n IH]; [reflexivity|].
  cbn [repeat concat]. rewrite length_app, IH, length_firstn. lia.
Qed.

Lemma clipped_length l :
  length (clipped L layerWidth layerHeight l) = length l.
Proof.
  unfold clipped. rewrite length_app, length_map, length_firstn, length_skipn.
  lia.
Qed.

Lemma fresh_length uninit :
  length (tmpPtr (fresh L layerWidth layerHeight uninit)) =
  Z.to_nat (dim L layerWidth layerHeight * 2).
Proof. unfold fresh. cbn [tmpPtr]. now rewrite length_map, length_seq. Qed.

(** What [forward] computes, when the layer passes [CHECK_EQ], its sizes
    convert and its variance has four values: the boxes, clipped over the
    first [dim] cells, then the variance block right after the boxes. *)
Theorem forward_run uninit :
  check_passes L -> sizes_convert L -> (4 <= length (variance_ L))%nat ->
  forward L layerWidth layerHeight imageWidth imageHeight uninit =
  let boxes := all_boxes L layerWidth layerHeight imageWidth imageHeight in
  let vars := variance_block L layerWidth layerHeight in
  let size := Z.to_nat (dim L layerWidth layerHeight * 2) in
  if dim_fits L layerWidth layerHeight then
    if (length boxes + length vars <=? size)%nat
    then Done (splice (length boxes) vars
                 (clipped L layerWidth layerHeight
                    (splice 0 boxes (map uninit (seq 0 size)))))
    else Undefined OutOfBounds
  else Undefined Overflow.
Proof.
  intros Hck Hconv Hvar. cbv zeta. unfold forward.
  destruct (dim_fits L layerWidth layerHeight); [|reflexivity].
  set (boxes := all_boxes L layerWidth layerHeight imageWidth imageHeight).
  set (vars := variance_block L layerWidth layerHeight).
  set (size := Z.to_nat (dim L layerWidth layerHeight * 2)).
  assert (Hdim : (Z.to_nat (dim L layerWidth layerHeight) <= size)%nat)
    by (unfold size; lia).
  unfold bind at 1. rewrite fill_boxes_emit by assumption.
  fold boxes. rewrite emit_run by (cbn; lia).
  rewrite fresh_length. fold size. cbn [idx tmpPtr fresh Nat.add].
  fold size.
  destruct (Nat.leb_spec (length boxes) size) as [HC|HC].
  2:{ destruct (Nat.leb_spec (length boxes + length vars) size);
        [lia | reflexivity]. }
  assert (Hlen1 : length (splice 0 boxes (map uninit (seq 0 size))) = size).
  { rewrite splice_length; rewrite length_map, length_seq; lia. }
  unfold bind at 1. rewrite clip_all_run by lia.
  rewrite fill_variance_emit by assumption. fold vars.
  rewrite emit_run; cbn [idx tmpPtr]; rewrite clipped_length, Hlen1; [|lia].
  destruct (Nat.leb_spec (length boxes + length vars) size) as [HV|HV];
    [|reflexivity].
  f_equal. apply firstn_all2.
  rewrite splice_length; rewrite clipped_length, Hlen1; lia.
Qed.
End Refinement.

(** ** [init]: the derived aspect ratios *)

Lemma flip_from pre rest :
  fold_left
    (fun vec index => vec ++ [recip (nth index vec F32.zero)])
    (seq (length pre) (length rest))
    ((pre ++ rest) ++ map recip pre) =
  (pre ++ rest) ++ map recip (pre ++ rest).
Proof.
  revert pre; induction rest as [|r rest IH]; intros pre.
  - now rewrite !app_nil_r.
  - cbn [length seq fold_left].
    assert (Hnth : nth (length pre) ((pre ++ r :: rest) ++ map recip pre)
                     F32.zero = r).
    { rewrite <- app_assoc, app_nth2, Nat.sub_diag by lia. reflexivity. }
    rewrite Hnth.
    specialize (IH (pre ++ [r])).
    rewrite length_app, Nat.add_1_r, map_app, <- !app_assoc in IH.
    cbn [app map] in IH. fold (recip r).
    rewrite <- !app_assoc. cbn [app]. exact IH.
Qed.

Lemma flip_spec raw : flip raw = raw ++ map recip raw.
Proof.
  unfold flip. generalize (flip_from [] raw). cbn [length app map].
  now rewrite app_nil_r.
Qed.


(** ** Where the run can abort on [CHECK_EQ] *)

Lemma never_aborts_ret A (a : A) : never_aborts (ret a).
Proof. intros st; discriminate. Qed.

Lemma never_aborts_stop A f : never_aborts (@stop A f).
Proof. intros st; discriminate. Qed.

Lemma never_aborts_put v : never_aborts (put v).
Proof. intros st; unfold put; destruct (_ <? _)%nat; discriminate. Qed.

Lemma never_aborts_load d : never_aborts (load d).
Proof. intros st; unfold load; destruct (nth_error _ _); discriminate. Qed.

Lemma never_aborts_store d v : never_aborts (store d v).
Proof. intros st; unfold store; destruct (_ <? _)%nat; discriminate. Qed.

Lemma never_aborts_at A (vec : list A) j : never_aborts (at_ vec j).
Proof. intros st; unfold at_; destruct (nth_error _ _); discriminate. Qed.

Lemma never_aborts_bind A B (c : Run A) (k : A -> Run B) :
  never_aborts c -> (forall a, never_aborts (k a)) -> never_aborts (bind c k).
Proof.
  intros Hc Hk st. unfold bind. specialize (Hc st).
  destruct (c st) as [[a st']| |]; [apply Hk | congruence | discriminate].
Qed.

Lemma never_aborts_for_each A (l : list A) (body : A -> Run unit) :
  (forall x, In x l -> never_aborts (body x)) -> never_aborts (for_each l body).
Proof.
  induction l as [|x l IH]; intros Hb; cbn [for_each].
  - apply never_aborts_ret.
  - apply never_aborts_bind; [apply Hb; now left|].
    intros _. apply IH. intros y Hy. apply Hb. now right.
Qed.

Lemma never_aborts_int z : never_aborts (int_ z).
Proof. intros st; unfold int_; destruct (fits z); discriminate. Qed.

Create HintDb aborts.
#[local] Hint Resolve never_aborts_ret never_aborts_stop never_aborts_put
  never_aborts_load never_aborts_store never_aborts_at never_aborts_int
  : aborts.

Section Aborts.
Variable L : PriorBoxLayer.
Variables layerWidth layerHeight imageWidth imageHeight : Z.

Lemma never_aborts_put_box cx cy bw bh :
  never_aborts (put_box imageWidth imageHeight cx cy bw bh).
Proof.
  unfold put_box. repeat (apply never_aborts_bind; [auto with aborts|intros _]).
  auto with aborts.
Qed.

Lemma never_aborts_size_step cx cy m :
  lengths_agree L ->
  never_aborts (size_step L imageWidth imageHeight cx cy m).
Proof.
  intros Hck. unfold size_step.
  apply never_aborts_bind; [apply never_aborts_put_box | intros _].
  apply never_aborts_bind; [|auto with aborts].
  destruct (Nat.ltb_spec 0 (length (maxSize_ L))) as [Hpos|Hzero];
    [|auto with aborts].
  apply never_aborts_bind.
  - intros st. unfold CHECK_EQ.
    destruct Hck as [Hnil|Heq];
      [rewrite Hnil in Hpos; simpl in Hpos; lia|].
    rewrite Heq, Nat.eqb_refl. discriminate.
  - intros _. apply never_aborts_for_each. intros M _.
    apply never_aborts_bind.
    + unfold second_size.
      apply never_aborts_bind; [auto with aborts | intros product].
      destruct (F64.to_int _); auto with aborts.
    + intros z. apply never_aborts_put_box.
Qed.

Lemma never_aborts_size_loop cx cy sizes m0 :
  lengths_agree L ->
  never_aborts (size_loop L imageWidth imageHeight cx cy sizes m0).
Proof.
  intros Hck. revert m0. induction sizes as [|m sizes IH]; intros m0;
    cbn [size_loop]; [auto with aborts|].
  apply never_aborts_bind; [now apply never_aborts_size_step | auto].
Qed.

Lemma never_aborts_cell h w :
  check_passes L ->
  never_aborts (cell L layerWidth layerHeight imageWidth imageHeight h w).
Proof.
  intros Hcase. unfold cell. apply never_aborts_bind.
  - destruct Hcase as [Hnil|Hck].
    + rewrite Hnil. cbn [size_loop]. auto with aborts.
    + now apply never_aborts_size_loop.
  - intros m. apply never_aborts_for_each. intros ar _.
    unfold ratio_step. destruct (near_one ar); [auto with aborts|].
    apply never_aborts_put_box.
Qed.

Lemma never_aborts_clip_all : never_aborts (clip_all L layerWidth layerHeight).
Proof.
  unfold clip_all. apply never_aborts_for_each. intros d _.
  apply never_aborts_bind; auto with aborts.
Qed.

Lemma never_aborts_fill_variance :
  never_aborts (fill_variance L layerWidth layerHeight).
Proof.
  unfold fill_variance.
  repeat (apply never_aborts_for_each; intros ? _).
  apply never_aborts_bind; auto with aborts.
Qed.

Lemma range_nonpos n : n <= 0 -> range n = [].
Proof.
  intros Hn. unfold range. now replace (Z.to_nat n) with 0%nat by lia.
Qed.

Lemma range_pos n : 0 < n -> exists r, range n = 0 :: r.
Proof.
  intros Hn. unfold range.
  destruct (Z.to_nat n) as [|k] eqn:Hk; [lia|].
  cbn [seq map]. eauto.
Qed.

Lemma never_aborts_fill_boxes :
  layerWidth <= 0 \/ layerHeight <= 0 \/ check_passes L ->
  never_aborts (fill_boxes L layerWidth layerHeight imageWidth imageHeight).
Proof.
  intros Hcase. unfold fill_boxes.
  destruct Hcase as [HW|[HH|Hcell]].
  - apply never_aborts_for_each. intros h _.
    rewrite (range_nonpos HW). apply never_aborts_ret.
  - rewrite (range_nonpos HH). apply never_aborts_ret.
  - apply never_aborts_for_each. intros h _.
    apply never_aborts_for_each. intros w _.
    now apply never_aborts_cell.
Qed.

(** With a mismatch the first turn of the size loop aborts, right after
    the first prior of the first cell is stored. *)
Lemma size_step_aborts cx cy m st :
  (0 < length (maxSize_ L))%nat ->
  length (minSize_ L) <> length (maxSize_ L) ->
  (idx st + 4 <= length (tmpPtr st))%nat ->
  size_step L imageWidth imageHeight cx cy m st = CheckFailed.
Proof.
  intros Hpos Hne Hroom. unfold size_step.
  unfold bind at 1. rewrite put_box_emit, emit_run by lia.
  cbn [length box].
  destruct (Nat.leb_spec (idx st + 4) (length (tmpPtr st))); [|lia].
  unfold bind at 1.
  destruct (Nat.ltb_spec 0 (length (maxSize_ L))); [|lia].
  unfold bind at 1. unfold CHECK_EQ at 1.
  destruct (Nat.eqb_spec (length (minSize_ L)) (length (maxSize_ L)));
    [contradiction | reflexivity].
Qed.

Lemma fill_boxes_aborts st :
  0 < layerWidth -> 0 < layerHeight -> minSize_ L <> [] ->
  (0 < length (maxSize_ L))%nat ->
  length (minSize_ L) <> length (maxSize_ L) ->
  (idx st + 4 <= length (tmpPtr st))%nat ->
  fill_boxes L layerWidth layerHeight imageWidth imageHeight st = CheckFailed.
Proof.
  intros HW HH Hmin Hpos Hne Hroom. unfold fill_boxes.
  destruct (range_pos HH) as [rh ->]. destruct (range_pos HW) as [rw ->].
  cbn [for_each]. unfold bind at 1 2. unfold cell at 1.
  pose proof (fun cx cy m => size_step_aborts cx cy m st Hpos Hne Hroom) as Hs.
  destruct (minSize_ L) as [|m ms]; [contradiction|].
  cbn [size_loop]. unfold bind at 1 2.
  rewrite Hs. reflexivity.
Qed.
End Aborts.

Lemma numPriors_init_pos pbConf : 1 <= numPriors_ (snd (init pbConf)).
Proof.
  unfold init. cbn [snd numPriors_]. rewrite length_app. cbn [length].
  destruct (0 <? length (max_size pbConf))%nat; lia.
Qed.

(** C7, as amended: [forward] aborts on the integrity check exactly when
    [maxSizes] is non-empty, its length differs from that of [minSizes],
    [minSizes] is non-empty, the grid has a cell and the size of the
    buffer fits an [int]; [init] runs no such check and always returns
    [true]. *)
Theorem C7_integrity_check_is_lazy
  (pbConf : PriorBoxConfig) (layerWidth layerHeight imageWidth imageHeight : Z)
  (uninit : nat -> float) :
  fst (init pbConf) = true /\
  (forward (snd (init pbConf)) layerWidth layerHeight imageWidth imageHeight
     uninit = CheckFailed
   <->
   0 < layerWidth /\ 0 < layerHeight /\ min_size pbConf <> [] /\
   max_size pbConf <> [] /\
   length (max_size pbConf) <> length (min_size pbConf) /\
   dim_fits (snd (init pbConf)) layerWidth layerHeight = true).
Proof.
  split; [reflexivity|].
  set (L := snd (init pbConf)).
  assert (Hmin : minSize_ L = min_size pbConf) by reflexivity.
  assert (Hmax : maxSize_ L = max_size pbConf) by reflexivity.
  split.
  - intros Hrun.
    assert (Hfit : dim_fits L layerWidth layerHeight = true).
    { unfold forward in Hrun.
      destruct (dim_fits L layerWidth layerHeight);
        [reflexivity | discriminate]. }
    assert (Hno : layerWidth <= 0 \/ layerHeight <= 0 \/ check_passes L ->
                  False).
    { intros Hcase. revert Hrun. unfold forward. rewrite Hfit.
      set (c := (fill_boxes L layerWidth layerHeight imageWidth imageHeight ;;
                 clip_all L layerWidth layerHeight ;;
                 fill_variance L layerWidth layerHeight)).
      assert (Hn : never_aborts c).
      { apply never_aborts_bind; [now apply never_aborts_fill_boxes|].
        intros _. apply never_aborts_bind; [apply never_aborts_clip_all|].
        intros _. apply never_aborts_fill_variance. }
      specialize (Hn (fresh L layerWidth layerHeight uninit)).
      destruct (c (fresh L layerWidth layerHeight uninit)) as [[? ?]| |];
        congruence. }
    unfold check_passes, lengths_agree in Hno. rewrite Hmin, Hmax in Hno.
    repeat split.
    + destruct (Z_lt_le_dec 0 layerWidth); [assumption | tauto].
    + destruct (Z_lt_le_dec 0 layerHeight); [assumption | tauto].
    + intros E. tauto.
    + intros E. tauto.
    + intros E. symmetry in E. tauto.
    + exact Hfit.
  - intros (HW & HH & Hmin' & Hmax' & Hne & Hfit).
    unfold forward. rewrite Hfit. unfold bind at 1.
    assert (H1 : minSize_ L <> []) by now rewrite Hmin.
    assert (H2 : (0 < length (maxSize_ L))%nat).
    { rewrite Hmax. destruct (max_size pbConf); [contradiction | simpl; lia]. }
    assert (H3 : length (minSize_ L) <> length (maxSize_ L)).
    { rewrite Hmin, Hmax. congruence. }
    assert (H4 : (idx (fresh L layerWidth layerHeight uninit) + 4 <=
                  length (tmpPtr (fresh L layerWidth layerHeight uninit)))%nat).
    { rewrite fresh_length. cbn [idx fresh]. unfold dim.
      pose proof (numPriors_init_pos pbConf) as Hn. fold L in Hn. nia. }
    now rewrite (@fill_boxes_aborts L _ _ imageWidth imageHeight _ HW HH H1 H2 H3 H4).
Qed.

(** ** The image dimensions do not decide how a run ends *)

Lemma alike_ret A B (R : A -> B -> Prop) a b : R a b -> alike R (ret a) (ret b).
Proof. intros HR st st' Hs. simpl. auto. Qed.

Lemma alike_stop A B (R : A -> B -> Prop) f : alike R (stop f) (stop f).
Proof. intros st st' Hs. reflexivity. Qed.

Lemma alike_bind A B A' B' (R : A -> A' -> Prop) (S : B -> B' -> Prop)
  (c : Run A) (c' : Run A') (k : A -> Run B) (k' : A' -> Run B') :
  alike R c c' -> (forall a a', R a a' -> alike S (k a) (k' a')) ->
  alike S (bind c k) (bind c' k').
Proof.
  intros Hc Hk st st' Hs. unfold bind. specialize (Hc st st' Hs).
  destruct (c st) as [[a s]| |], (c' st') as [[a' s']| |]; simpl in Hc;
    try contradiction; try exact Hc.
  destruct Hc as [HR Hs']. now apply Hk.
Qed.

Lemma alike_put v v' : alike (@any unit unit) (put v) (put v').
Proof.
  intros [l i] [l' i'] Hs. unfold shape in Hs. cbn [idx tmpPtr] in Hs.
  injection Hs as -> Hl. unfold put. cbn [idx tmpPtr]. rewrite Hl.
  destruct (i' <? length l')%nat; simpl; [|reflexivity].
  split; [exact I|]. unfold shape. cbn [idx tmpPtr].
  now rewrite !update_length, Hl.
Qed.

Lemma alike_load d : alike (@any float float) (load d) (load d).
Proof.
  intros [l i] [l' i'] Hs. unfold shape in Hs. cbn [idx tmpPtr] in Hs.
  injection Hs as -> Hl. unfold load. cbn [tmpPtr].
  destruct (nth_error l d) eqn:E, (nth_error l' d) eqn:E'; simpl.
  - split; [exact I|]. unfold shape. cbn [idx tmpPtr]. now rewrite Hl.
  - apply nth_error_None in E'. assert (nth_error l d <> None) by congruence.
    apply nth_error_Some in H. lia.
  - apply nth_error_None in E. assert (nth_error l' d <> None) by congruence.
    apply nth_error_Some in H. lia.
  - reflexivity.
Qed.

Lemma alike_store d v v' : alike (@any unit unit) (store d v) (store d v').
Proof.
  intros [l i] [l' i'] Hs. unfold shape in Hs. cbn [idx tmpPtr] in Hs.
  injection Hs as -> Hl. unfold store. cbn [idx tmpPtr]. rewrite Hl.
  destruct (d <? length l')%nat; simpl; [|reflexivity].
  split; [exact I|]. unfold shape. cbn [idx tmpPtr].
  now rewrite !update_length, Hl.
Qed.

Lemma alike_at A (vec : list A) j : alike (@eq A) (at_ vec j) (at_ vec j).
Proof.
  intros st st' Hs. unfold at_. destruct (nth_error vec j); simpl; auto.
Qed.

Lemma alike_CHECK_EQ a b : alike (@any unit unit) (CHECK_EQ a b) (CHECK_EQ a b).
Proof.
  intros st st' Hs. unfold CHECK_EQ. destruct (a =? b)%nat; simpl; auto.
  split; [exact I | exact Hs].
Qed.

Lemma alike_for_each A (l : list A) (body body' : A -> Run unit) :
  (forall x, alike (@any unit unit) (body x) (body' x)) ->
  alike (@any unit unit) (for_each l body) (for_each l body').
Proof.
  intros Hb. induction l as [|x l IH]; cbn [for_each].
  - now apply alike_ret.
  - eapply alike_bind; [apply Hb | intros _ _ _; exact IH].
Qed.

Section Alike.
Variable L : PriorBoxLayer.
Variables layerWidth layerHeight : Z.
Variables imageWidth imageHeight imageWidth' imageHeight' : Z.

Lemma alike_put_box cx cy bw bh cx' cy' bw' bh' :
  alike (@any unit unit)
    (put_box imageWidth imageHeight cx cy bw bh)
    (put_box imageWidth' imageHeight' cx' cy' bw' bh').
Proof.
  unfold put_box.
  repeat (eapply alike_bind; [apply alike_put | intros _ _ _]).
  apply alike_put.
Qed.

Lemma alike_size_step cx cy cx' cy' m :
  alike (@eq Z)
    (size_step L imageWidth imageHeight cx cy m)
    (size_step L imageWidth' imageHeight' cx' cy' m).
Proof.
  unfold size_step.
  eapply alike_bind; [apply alike_put_box | intros _ _ _].
  eapply alike_bind with (R := @any unit unit);
    [|intros _ _ _; now apply alike_ret].
  destruct (0 <? length (maxSize_ L))%nat; [|now apply alike_ret].
  eapply alike_bind; [apply alike_CHECK_EQ | intros _ _ _].
  apply alike_for_each. intros M.
  eapply alike_bind with (R := @eq Z).
  - unfold second_size. eapply alike_bind with (R := @eq Z).
    + unfold int_. destruct (fits _);
        [now apply alike_ret | apply alike_stop].
    + intros product product' ->. destruct (F64.to_int _);
        [now apply alike_ret | apply alike_stop].
  - intros z z' ->. apply alike_put_box.
Qed.

Lemma alike_size_loop cx cy cx' cy' sizes m0 :
  alike (@eq Z)
    (size_loop L imageWidth imageHeight cx cy sizes m0)
    (size_loop L imageWidth' imageHeight' cx' cy' sizes m0).
Proof.
  revert m0. induction sizes as [|m sizes IH]; intros m0; cbn [size_loop].
  - now apply alike_ret.
  - eapply alike_bind; [apply alike_size_step | intros z z' ->; apply IH].
Qed.

Lemma alike_cell h w :
  alike (@any unit unit)
    (cell L layerWidth layerHeight imageWidth imageHeight h w)
    (cell L layerWidth layerHeight imageWidth' imageHeight' h w).
Proof.
  unfold cell.
  eapply alike_bind; [apply alike_size_loop | intros m m' ->].
  apply alike_for_each. intros ar. unfold ratio_step.
  destruct (near_one ar); [now apply alike_ret | apply alike_put_box].
Qed.

Lemma alike_fill_boxes :
  alike (@any unit unit)
    (fill_boxes L layerWidth layerHeight imageWidth imageHeight)
    (fill_boxes L layerWidth layerHeight imageWidth' imageHeight').
Proof.
  unfold fill_boxes. apply alike_for_each. intros h.
  apply alike_for_each. intros w. apply alike_cell.
Qed.

Lemma alike_clip_all :
  alike (@any unit unit)
    (clip_all L layerWidth layerHeight) (clip_all L layerWidth layerHeight).
Proof.
  unfold clip_all. apply alike_for_each. intros d.
  eapply alike_bind; [apply alike_load | intros v v' _; apply alike_store].
Qed.

Lemma alike_fill_variance :
  alike (@any unit unit)
    (fill_variance L layerWidth layerHeight)
    (fill_variance L layerWidth layerHeight).
Proof.
  unfold fill_variance. repeat (apply alike_for_each; intros ?).
  eapply alike_bind; [apply alike_at | intros v v' _; apply alike_put].
Qed.

Lemma forward_kind uninit uninit' :
  kind (forward L layerWidth layerHeight imageWidth imageHeight uninit) =
  kind (forward L layerWidth layerHeight imageWidth' imageHeight' uninit').
Proof.
  unfold forward.
  destruct (dim_fits L layerWidth layerHeight); [|reflexivity].
  assert (Hs : shape (fresh L layerWidth layerHeight uninit) =
               shape (fresh L layerWidth layerHeight uninit')).
  { unfold shape. now rewrite !fresh_length. }
  assert (Hall : alike (@any unit unit)
            (fill_boxes L layerWidth layerHeight imageWidth imageHeight ;;
             clip_all L layerWidth layerHeight ;;
             fill_variance L layerWidth layerHeight)
            (fill_boxes L layerWidth layerHeight imageWidth' imageHeight' ;;
             clip_all L layerWidth layerHeight ;;
             fill_variance L layerWidth layerHeight)).
  { eapply alike_bind; [apply alike_fill_boxes | intros _ _ _].
    eapply alike_bind; [apply alike_clip_all | intros _ _ _].
    apply alike_fill_variance. }
  specialize (Hall _ _ Hs).
  destruct ((_ ;; _) (fresh L layerWidth layerHeight uninit)) as [[? ?]| |],
           ((_ ;; _) (fresh L layerWidth layerHeight uninit')) as [[? ?]| |];
    simpl in *; try contradiction; congruence.
Qed.
End Alike.


(** ** The buffer is sized by [numPriors_], not by what the loops store *)

(** C1 at [minSizes = [30, 60]], [maxSizes = []], [rawAspectRatios = [2]],
    grid 1x1: four priors are stored for the cell, the buffer is sized for
    [numPriors_ = 3], that is 24 values where the specification has 32,
    and the variance loop runs past its end. *)
Theorem C1_buffer_sized_by_numPriors (uninit : nat -> float) :
  let L := snd (init two_min_sizes) in
  actualPriorsPerCell L = 4%nat /\ numPriors_ L = 3 /\
  Z.to_nat (dim L 1 1 * 2) = 24%nat /\
  forward L 1 1 100 100 uninit = Undefined OutOfBounds.
Proof.
  intros L. repeat split; reflexivity.
Qed.

(** C2 at [minSizes = [30, 60, 90]], no other size or ratio, grid 1x1:
    three priors are due for the cell, the buffer holds 8 values, and the
    loop over the cells leaves it while storing the third prior. *)
Theorem C2_boxes_overrun_the_buffer (uninit : nat -> float) :
  let L := snd (init three_min_sizes) in
  actualPriorsPerCell L = 3%nat /\
  length (tmpPtr (fresh L 1 1 uninit)) = 8%nat /\
  fill_boxes L 1 1 100 100 (fresh L 1 1 uninit) = Undefined OutOfBounds /\
  forward L 1 1 100 100 uninit = Undefined OutOfBounds.
Proof.
  intros L. repeat split; reflexivity.
Qed.

(** C9 at [minSizes = [30]], [rawAspectRatios = [1.0]], grid 1x1: one prior
    is stored, the buffer has room for three, and its last 8 cells reach
    the output as the memory held them; two runs on the same layer, grid
    and image differ there. *)
Theorem C9_output_keeps_uninitialised_cells :
  let L := snd (init unit_ratio) in
  (forall uninit, exists written,
     length written = 16%nat /\
     forward L 1 1 100 100 uninit = Done (written ++ map uninit (seq 16 8))) /\
  forward L 1 1 100 100 (fun _ => F32.zero) <>
  forward L 1 1 100 100 (fun _ => F32.one).
Proof.
  intros L. split.
  - intros uninit. rewrite forward_run.
    + cbv zeta.
      set (boxes := all_boxes L 1 1 100 100).
      set (vars := variance_block L 1 1).
      assert (Hb : length boxes = 4%nat) by reflexivity.
      assert (Hv : length vars = 12%nat) by reflexivity.
      change (Z.to_nat (dim L 1 1 * 2)) with 24%nat.
      rewrite Hb, Hv. cbn [Nat.add Nat.leb].
      unfold splice at 1. rewrite Hv. cbn [Nat.add].
      exists (firstn 4 (clipped L 1 1 (splice 0 boxes (map uninit (seq 0 24))))
              ++ vars).
      split.
      * rewrite length_app, length_firstn, clipped_length, splice_length, Hv;
          rewrite length_map, length_seq; lia.
      * rewrite <- app_assoc. reflexivity.
    + right; left; reflexivity.
    + intros m M _ [].
    + simpl; lia.
  - vm_compute. discriminate.
Qed.

(** ** The second prior of a size pair *)

(** C3 at [minSizes = [30]], [maxSizes = [60]], grid 1x1, image 100x100:
    the cell gets the square of side 30 and a square of side 42, the
    square root of 1800 cut to an [int], not of side [sqrt(1800)]. *)
Theorem C3_second_prior_side_is_truncated :
  let L := snd (init scenario_B) in
  let centerX := center 0 (stepW 1 100) in
  let centerY := center 0 (stepH 1 100) in
  let side := F64.sqrt (F64.of_int (30 * 60)) in
  trunc_sqrt 30 60 = 42 /\
  (forall st,
     cell L 1 1 100 100 0 0 st =
     emit (box 100 100 centerX centerY (F64.of_int 30) (F64.of_int 30) ++
           box 100 100 centerX centerY (F64.of_int 42) (F64.of_int 42)) st) /\
  box 100 100 centerX centerY (F64.of_int 42) (F64.of_int 42) <>
  box 100 100 centerX centerY side side.
Proof.
  intros L centerX centerY side. split; [reflexivity|]. split.
  - intros st. rewrite cell_emit.
    + reflexivity.
    + right; right; reflexivity.
    + intros m M [<-|[]] [<-|[]]. split; [reflexivity | discriminate].
  - vm_compute. discriminate.
Qed.

(** ** No check of the dimensions *)

(** C6, as amended: [forward] checks neither the grid nor the image.  The
    image dimensions only enter the arithmetic: how the run ends is the
    same for every image, a non-positive one included.  With a
    non-positive grid dimension the loops over the cells store nothing and
    raise nothing. *)
Theorem C6_dimensions_are_not_checked
  (L : PriorBoxLayer) (layerWidth layerHeight : Z)
  (imageWidth imageHeight imageWidth' imageHeight' : Z)
  (uninit uninit' : nat -> float) :
  kind (forward L layerWidth layerHeight imageWidth imageHeight uninit) =
  kind (forward L layerWidth layerHeight imageWidth' imageHeight' uninit') /\
  (layerWidth <= 0 \/ layerHeight <= 0 ->
   forall st,
     fill_boxes L layerWidth layerHeight imageWidth imageHeight st = Done (tt, st) /\
     fill_variance L layerWidth layerHeight st = Done (tt, st)).
Proof.
  split; [apply forward_kind|].
  intros Hgrid st. unfold fill_boxes, fill_variance.
  destruct Hgrid as [HW|HH].
  - rewrite (range_nonpos HW). split.
    + now rewrite for_each_nothing.
    + now rewrite for_each_nothing.
  - rewrite (range_nonpos HH). split; reflexivity.
Qed.

(** C6 fails as stated: with image width 0 and image height -300 the run
    on scenario A's layer and a 1x1 grid ends with a full buffer. *)
Lemma C6_counterexample :
  exists out,
    forward (snd (init scenario_A)) 1 1 0 (-300) (fun _ => F32.zero) = Done out /\
    length out = 24%nat.
Proof. eexists. split; [vm_compute; reflexivity | reflexivity]. Qed.

(** C7 fails as stated: [maxSizes] is non-empty and longer than the empty
    [minSizes], and the run does not abort. *)
Lemma C7_counterexample :
  max_size no_min_size <> [] /\
  length (max_size no_min_size) <> length (min_size no_min_size) /\
  forward (snd (init no_min_size)) 1 1 100 100 (fun _ => F32.zero) <> CheckFailed.
Proof.
  split; [discriminate|]. split; [discriminate|].
  vm_compute. discriminate.
Qed.

(** ** The priors of the aspect ratios *)





(** ** Magnitudes through the rounding of [SpecFloat] *)

Unset Implicit Arguments.

Lemma digits2_size p : digits2_pos p = Pos.size p.
Proof. induction p; simpl; congruence. Qed.

Lemma digits_bounds p :
  2 ^ (Zpos (digits2_pos p) - 1) <= Zpos p < 2 ^ Zpos (digits2_pos p).
Proof.
  rewrite digits2_size. split.
  - pose proof (Pos.size_le p) as H.
    assert (H' : 2 ^ Zpos (Pos.size p) <= 2 * Zpos p).
    { change (2 * Zpos p) with (Zpos p~0). rewrite <- Pos2Z.inj_pow. 
      apply Pos2Z.pos_le_pos. exact H. }
    replace (Zpos (Pos.size p)) with ((Zpos (Pos.size p) - 1) + 1) in H' by lia.
    rewrite Z.pow_add_r in H' by lia. lia.
  - pose proof (Pos.size_gt p) as H.
    change 2 with (Zpos 2). rewrite <- Pos2Z.inj_pow. apply Pos2Z.pos_lt_pos. exact H.
Qed.

Lemma Zdigits2_nonneg m : 0 <= Zdigits2 m.
Proof. destruct m; simpl; lia. Qed.

Lemma Zdigits2_pos m : 0 < m -> 0 < Zdigits2 m.
Proof. destruct m; simpl; lia. Qed.

Lemma Zdigits2_bounds m :
  0 < m -> 2 ^ (Zdigits2 m - 1) <= m < 2 ^ Zdigits2 m.
Proof. destruct m as [|p|p]; try lia. intros _. apply digits_bounds. Qed.

Lemma Zdigits2_le m k : 0 <= m < 2 ^ k -> 0 <= k -> Zdigits2 m <= k.
Proof.
  intros [Hm Hlt] Hk. destruct (Z.eq_dec m 0) as [->|Hne]; [simpl; lia|].
  destruct (Zdigits2_bounds m ltac:(lia)) as [Hlo _].
  destruct (Z_le_gt_dec (Zdigits2 m) k) as [|Hgt]; [assumption|exfalso].
  assert (2 ^ k <= 2 ^ (Zdigits2 m - 1)) by (apply Z.pow_le_mono_r; lia).
  lia.
Qed.

Lemma Zdigits2_ge m k : 2 ^ (k - 1) <= m -> k <= Zdigits2 m.
Proof.
  intros Hm. pose proof (Zdigits2_nonneg m).
  destruct (Z_le_gt_dec k 0) as [|Hk]; [lia|].
  assert (0 < 2 ^ (k - 1)) by (apply Z.pow_pos_nonneg; lia).
  destruct (Zdigits2_bounds m ltac:(lia)) as [_ Hhi].
  destruct (Z_le_gt_dec k (Zdigits2 m)) as [|Hgt]; [assumption|exfalso].
  assert (2 ^ Zdigits2 m <= 2 ^ (k - 1)) by (apply Z.pow_le_mono_r; lia).
  lia.
Qed.

Lemma Zdigits2_div_pow2 m k :
  0 <= m -> 0 <= k -> Zdigits2 (m / 2 ^ k) = Z.max (Zdigits2 m - k) 0.
Proof.
  intros Hm Hk.
  assert (Hp : 0 < 2 ^ k) by (apply Z.pow_pos_nonneg; lia).
  destruct (Z.eq_dec m 0) as [->|Hne].
  { rewrite Z.div_0_l by lia. simpl. lia. }
  destruct (Zdigits2_bounds m ltac:(lia)) as [Hlo Hhi].
  pose proof (Zdigits2_pos m ltac:(lia)) as Hd.
  destruct (Z_le_gt_dec (Zdigits2 m) k) as [Hle|Hgt].
  - assert (2 ^ Zdigits2 m <= 2 ^ k) by (apply Z.pow_le_mono_r; lia).
    rewrite Z.div_small by lia. simpl. lia.
  - rewrite Z.max_l by lia. apply Z.le_antisymm.
    + apply Zdigits2_le; [|lia]. split; [apply Z.div_pos; lia|].
      apply Z.div_lt_upper_bound; [lia|].
      rewrite <- Z.pow_add_r by lia.
      now replace (k + (Zdigits2 m - k)) with (Zdigits2 m) by lia.
    + apply Zdigits2_ge. apply Z.div_le_lower_bound; [lia|].
      rewrite <- Z.pow_add_r by lia.
      now replace (k + (Zdigits2 m - k - 1)) with (Zdigits2 m - 1) by lia.
Qed.

Lemma Zdigits2_mono m n : 0 <= m <= n -> Zdigits2 m <= Zdigits2 n.
Proof.
  intros [Hm Hmn]. destruct (Z.eq_dec n 0) as [->|Hn].
  { replace m with 0 by lia. lia. }
  apply Zdigits2_le; [|apply Zdigits2_nonneg].
  destruct (Zdigits2_bounds n ltac:(lia)). lia.
Qed.

Lemma Zdigits2_succ m : 0 <= m -> Zdigits2 (m + 1) <= Zdigits2 m + 1.
Proof.
  intros Hm. pose proof (Zdigits2_nonneg m).
  apply Zdigits2_le; [|lia]. split; [lia|].
  destruct (Z.eq_dec m 0) as [->|Hne]; [simpl; lia|].
  destruct (Zdigits2_bounds m ltac:(lia)) as [_ Hhi].
  rewrite Z.pow_add_r by lia. lia.
Qed.

Lemma Zdigits2_mul_pow2 m k :
  0 < m -> 0 <= k -> Zdigits2 (m * 2 ^ k) = Zdigits2 m + k.
Proof.
  intros Hm Hk.
  assert (Hp : 0 < 2 ^ k) by (apply Z.pow_pos_nonneg; lia).
  destruct (Zdigits2_bounds m Hm) as [Hlo Hhi].
  pose proof (Zdigits2_pos m Hm) as Hd.
  apply Z.le_antisymm.
  - apply Zdigits2_le; [|lia]. split; [nia|].
    rewrite Z.pow_add_r by lia. nia.
  - apply Zdigits2_ge.
    replace (Zdigits2 m + k - 1) with ((Zdigits2 m - 1) + k) by lia.
    rewrite Z.pow_add_r by lia. nia.
Qed.

Lemma Zdigits2_mul m n :
  0 < m -> 0 < n -> Zdigits2 (m * n) <= Zdigits2 m + Zdigits2 n.
Proof.
  intros Hm Hn.
  destruct (Zdigits2_bounds m Hm) as [_ Hhm].
  destruct (Zdigits2_bounds n Hn) as [_ Hhn].
  pose proof (Zdigits2_pos m Hm). pose proof (Zdigits2_pos n Hn).
  apply Zdigits2_le; [|lia]. split; [nia|].
  rewrite Z.pow_add_r by lia. nia.
Qed.

(** shifts *)
Lemma shr_1_m r : 0 <= shr_m r -> shr_m (shr_1 r) = shr_m r / 2.
Proof.
  destruct r as [m r s]. simpl. intros Hm.
  destruct m as [|[p|p|]|p]; cbn [shr_m]; try lia; try reflexivity.
  - apply Z.div_unique with (r := 1); lia.
  - apply Z.div_unique with (r := 0); lia.
Qed.

Lemma shr_1_nonneg r : 0 <= shr_m r -> 0 <= shr_m (shr_1 r).
Proof.
  intros H. rewrite shr_1_m by assumption. apply Z.div_pos; lia.
Qed.

Lemma iter_shr_m p r :
  0 <= shr_m r -> shr_m (iter_pos shr_1 p r) = shr_m r / 2 ^ Zpos p.
Proof.
  revert r. induction p as [p IH|p IH|]; intros r Hr; cbn [iter_pos].
  - assert (Hpow : 2 ^ Zpos p~1 = 2 * (2 ^ Zpos p * 2 ^ Zpos p)).
    { replace (Zpos p~1) with (1 + (Zpos p + Zpos p)) by lia.
      rewrite !Z.pow_add_r by lia. lia. }
    assert (Hp : 0 < 2 ^ Zpos p) by (apply Z.pow_pos_nonneg; lia).
    assert (H1 : 0 <= shr_m (shr_1 r)) by now apply shr_1_nonneg.
    assert (H2 : 0 <= shr_m (iter_pos shr_1 p (shr_1 r))).
    { rewrite IH by assumption. apply Z.div_pos; lia. }
    rewrite IH, IH, shr_1_m, Hpow by assumption.
    rewrite !Z.div_div by lia. reflexivity.
  - assert (Hpow : 2 ^ Zpos p~0 = 2 ^ Zpos p * 2 ^ Zpos p).
    { replace (Zpos p~0) with (Zpos p + Zpos p) by lia.
      rewrite !Z.pow_add_r by lia. lia. }
    assert (Hp : 0 < 2 ^ Zpos p) by (apply Z.pow_pos_nonneg; lia).
    assert (H2 : 0 <= shr_m (iter_pos shr_1 p r)).
    { rewrite IH by assumption. apply Z.div_pos; lia. }
    rewrite IH, IH, Hpow by assumption.
    rewrite !Z.div_div by lia. reflexivity.
  - rewrite shr_1_m by assumption. reflexivity.
Qed.

Lemma shr_record_of_loc_m m l : shr_m (shr_record_of_loc m l) = m.
Proof. destruct l as [|[]]; reflexivity. Qed.

Lemma round_nearest_even_cases m l :
  round_nearest_even m l = m \/ round_nearest_even m l = m + 1.
Proof.
  destruct l as [|[]]; simpl; auto. destruct (Z.even m); auto.
Qed.

Section Round.
Variables prec emax : Z.
Hypothesis Hprec : 0 < prec.
Hypothesis Hemax : 2 <= emax.

#[local] Abbreviation fexp := (SpecFloat.fexp prec emax).
#[local] Abbreviation emin := (SpecFloat.emin prec emax).
#[local] Abbreviation bnd := (bnd prec emax).

Lemma fexp_mono a b : a <= b -> fexp a <= fexp b.
Proof. unfold SpecFloat.fexp. lia. Qed.

Lemma fexp_ge_emin a : emin <= fexp a.
Proof. unfold SpecFloat.fexp. lia. Qed.

(** What [shr_fexp] returns, for a mantissa that is not negative. *)
Lemma shr_fexp_spec m e l :
  0 <= m ->
  let n := Z.max (fexp (Zdigits2 m + e) - e) 0 in
  shr_m (fst (shr_fexp prec emax m e l)) = m / 2 ^ n /\
  snd (shr_fexp prec emax m e l) = e + n.
Proof.
  intros Hm n. unfold shr_fexp, shr. subst n.
  destruct (fexp (Zdigits2 m + e) - e) as [|p|p] eqn:En; simpl fst; simpl snd.
  - rewrite shr_record_of_loc_m, Z.max_r by lia.
    rewrite Z.pow_0_r, Z.div_1_r. lia.
  - rewrite iter_shr_m by (rewrite shr_record_of_loc_m; lia).
    rewrite shr_record_of_loc_m, Z.max_l by lia. split; reflexivity.
  - rewrite shr_record_of_loc_m, Z.max_r by lia.
    rewrite Z.pow_0_r, Z.div_1_r. lia.
Qed.

Lemma bnd_mono B B' x : B <= B' -> bnd B x -> bnd B' x.
Proof.
  intros HB. destruct x; simpl; auto. intros [H1 H2]. split; [lia|].
  pose proof (fexp_mono B B' HB). lia.
Qed.

Lemma round_aux_bnd s m e l B :
  0 <= m -> Zdigits2 m + e <= B -> e <= fexp B -> emin <= B -> B < emax ->
  bnd (B + 1) (binary_round_aux prec emax s m e l).
Proof.
  intros Hm Hmag He HBlo HBhi. unfold binary_round_aux.
  destruct (shr_fexp_spec m e l Hm) as [Hm1 He1].
  destruct (shr_fexp prec emax m e l) as [mrs' e'] eqn:E1.
  simpl fst in Hm1; simpl snd in He1.
  set (n := Z.max (fexp (Zdigits2 m + e) - e) 0) in *.
  set (m1 := round_nearest_even (shr_m mrs') (loc_of_shr_record mrs')).
  assert (Hn : 0 <= n) by (unfold n; lia).
  assert (Hm' : 0 <= shr_m mrs').
  { rewrite Hm1. apply Z.div_pos; [lia | apply Z.pow_pos_nonneg; lia]. }
  assert (Hfexp : fexp B <= B) by (unfold SpecFloat.fexp; lia).
  assert (He' : e' <= fexp B).
  { rewrite He1. unfold n.
    pose proof (fexp_mono _ _ Hmag). lia. }
  assert (Hd' : Zdigits2 (shr_m mrs') + e' <= B).
  { rewrite Hm1, Zdigits2_div_pow2, He1 by lia.
    pose proof (fexp_mono _ _ Hmag). unfold n. lia. }
  assert (Hm1' : 0 <= m1 /\ Zdigits2 m1 <= Zdigits2 (shr_m mrs') + 1).
  { unfold m1.
    destruct (round_nearest_even_cases (shr_m mrs') (loc_of_shr_record mrs'))
      as [-> | ->].
    - split; lia.
    - split; [lia|]. now apply Zdigits2_succ. }
  destruct Hm1' as [Hm1pos Hm1d].
  destruct (shr_fexp_spec m1 e' loc_Exact Hm1pos) as [Hm2 He2].
  destruct (shr_fexp prec emax m1 e' loc_Exact) as [mrs'' e''] eqn:E2.
  simpl fst in Hm2; simpl snd in He2.
  set (n2 := Z.max (fexp (Zdigits2 m1 + e') - e') 0) in *.
  assert (Hmag1 : Zdigits2 m1 + e' <= B + 1) by lia.
  assert (He'' : e'' <= fexp (B + 1)).
  { rewrite He2. unfold n2.
    pose proof (fexp_mono _ _ Hmag1).
    pose proof (fexp_mono B (B + 1) ltac:(lia)). lia. }
  assert (Hd'' : Zdigits2 (shr_m mrs'') + e'' <= B + 1).
  { assert (0 <= n2) by (unfold n2; lia).
    rewrite Hm2, Zdigits2_div_pow2, He2 by lia.
    pose proof (fexp_mono _ _ Hmag1).
    assert (fexp (B + 1) <= B + 1) by (unfold SpecFloat.fexp; lia).
    unfold n2. lia. }
  assert (Hm'' : 0 <= shr_m mrs'').
  { rewrite Hm2. apply Z.div_pos; [lia | apply Z.pow_pos_nonneg; unfold n2; lia]. }
  destruct (shr_m mrs'') as [|p|p] eqn:Ep; [exact I| |exfalso; lia].
  assert (Hov : fexp (B + 1) <= emax - prec).
  { unfold SpecFloat.fexp, SpecFloat.emin. lia. }
  destruct (Z.leb_spec e'' (emax - prec)); simpl; [|lia].
  simpl in Hd''. split; assumption.
Qed.

Lemma round_aux_signed s m e l :
  0 <= m -> signed s (binary_round_aux prec emax s m e l).
Proof.
  intros Hm. unfold binary_round_aux.
  destruct (shr_fexp_spec m e l Hm) as [Hm1 _].
  destruct (shr_fexp prec emax m e l) as [mrs' e'].
  simpl fst in Hm1.
  set (m1 := round_nearest_even (shr_m mrs') (loc_of_shr_record mrs')).
  assert (Hm' : 0 <= shr_m mrs').
  { rewrite Hm1. apply Z.div_pos; [lia | apply Z.pow_pos_nonneg; lia]. }
  assert (Hm1pos : 0 <= m1).
  { unfold m1.
    destruct (round_nearest_even_cases (shr_m mrs') (loc_of_shr_record mrs'))
      as [-> | ->]; lia. }
  destruct (shr_fexp_spec m1 e' loc_Exact Hm1pos) as [Hm2 _].
  destruct (shr_fexp prec emax m1 e' loc_Exact) as [mrs'' e''].
  simpl fst in Hm2.
  assert (Hm'' : 0 <= shr_m mrs'').
  { rewrite Hm2. apply Z.div_pos; [lia | apply Z.pow_pos_nonneg; lia]. }
  destruct (shr_m mrs'') as [|p|p]; [reflexivity| |exfalso; lia].
  destruct (e'' <=? emax - prec); reflexivity.
Qed.

(** In the normal range an aligned mantissa is not rounded to zero and
    does not lose magnitude. *)
Lemma round_aux_lb s m e l :
  0 < m -> e <= fexp (Zdigits2 m + e) -> emin + prec <= Zdigits2 m + e ->
  match binary_round_aux prec emax s m e l with
  | S754_finite _ m' e' => Zdigits2 m + e <= Zpos (digits2_pos m') + e'
  | S754_infinity _ => True
  | _ => False
  end.
Proof.
  intros Hm Hal Hnorm. unfold binary_round_aux.
  destruct (shr_fexp_spec m e l ltac:(lia)) as [Hm1 He1].
  destruct (shr_fexp prec emax m e l) as [mrs' e'].
  simpl fst in Hm1; simpl snd in He1.
  set (d := Zdigits2 m) in *.
  assert (Hf : fexp (d + e) = d + e - prec)
    by (unfold SpecFloat.fexp, SpecFloat.emin in *; lia).
  rewrite Hf in *.
  replace (Z.max (d + e - prec - e) 0) with (d - prec) in * by lia.
  set (m1 := round_nearest_even (shr_m mrs') (loc_of_shr_record mrs')).
  assert (Hd' : Zdigits2 (shr_m mrs') = prec).
  { rewrite Hm1, Zdigits2_div_pow2 by lia. fold d. lia. }
  assert (Hm' : 0 < shr_m mrs').
  { assert (0 <= shr_m mrs')
      by (rewrite Hm1; apply Z.div_pos; [lia | apply Z.pow_pos_nonneg; lia]).
    destruct (Z.eq_dec (shr_m mrs') 0) as [E|E]; [|lia].
    rewrite E in Hd'. simpl in Hd'. lia. }
  assert (Hm1' : shr_m mrs' <= m1 <= shr_m mrs' + 1).
  { unfold m1.
    destruct (round_nearest_even_cases (shr_m mrs') (loc_of_shr_record mrs'))
      as [-> | ->]; lia. }
  assert (Hd1 : prec <= Zdigits2 m1 <= prec + 1).
  { split.
    - rewrite <- Hd'. apply Zdigits2_mono. lia.
    - rewrite <- Hd'. etransitivity; [|apply Zdigits2_succ; lia].
      apply Zdigits2_mono. lia. }
  destruct (shr_fexp_spec m1 e' loc_Exact ltac:(lia)) as [Hm2 He2].
  destruct (shr_fexp prec emax m1 e' loc_Exact) as [mrs'' e''].
  simpl fst in Hm2; simpl snd in He2.
  assert (Hf1 : fexp (Zdigits2 m1 + e') = Zdigits2 m1 + e' - prec)
    by (unfold SpecFloat.fexp, SpecFloat.emin in *; lia).
  rewrite Hf1 in *.
  replace (Z.max (Zdigits2 m1 + e' - prec - e') 0) with (Zdigits2 m1 - prec)
    in * by lia.
  assert (Hd'' : Zdigits2 (shr_m mrs'') = prec).
  { rewrite Hm2, Zdigits2_div_pow2 by lia. lia. }
  assert (Hq : 0 <= m1 / 2 ^ (Zdigits2 m1 - prec))
    by (apply Z.div_pos; [lia | apply Z.pow_pos_nonneg; lia]).
  destruct (shr_m mrs'') as [|p|p] eqn:Ep; simpl in Hd''; try lia.
  destruct (e'' <=? emax - prec); [|exact I]. lia.
Qed.

Lemma iter_xO m d : Zpos (Pos.iter xO m d) = Zpos m * 2 ^ Zpos d.
Proof.
  induction d as [|d IH] using Pos.peano_ind.
  - simpl. lia.
  - rewrite Pos.iter_succ, Pos2Z.inj_xO, IH, Pos2Z.inj_succ, Z.pow_succ_r by lia.
    lia.
Qed.

(** What [shl_align] returns. *)
Lemma shl_align_spec mx ex ex' :
  snd (shl_align mx ex ex') = Z.min ex ex' /\
  Zpos (fst (shl_align mx ex ex')) = Zpos mx * 2 ^ (ex - Z.min ex ex').
Proof.
  unfold shl_align. destruct (ex' - ex) as [|p|p] eqn:E; simpl fst; simpl snd.
  - rewrite Z.min_l by lia. rewrite Z.sub_diag. simpl. lia.
  - rewrite Z.min_l by lia. rewrite Z.sub_diag. simpl. lia.
  - rewrite Z.min_r by lia. split; [reflexivity|].
    rewrite iter_xO. f_equal. f_equal. lia.
Qed.

Lemma binary_round_bnd s m e B :
  Zpos (digits2_pos m) + e <= B -> emin <= B -> B < emax ->
  bnd (B + 1) (binary_round prec emax s m e).
Proof.
  intros Hmag HBlo HBhi. unfold binary_round.
  destruct (shl_align_spec m e (fexp (Zpos (digits2_pos m) + e))) as [He' Hm'].
  destruct (shl_align m e (fexp (Zpos (digits2_pos m) + e))) as [mz ez].
  simpl fst in Hm'; simpl snd in He'.
  assert (Hdz : Zdigits2 (Zpos mz) + ez = Zpos (digits2_pos m) + e).
  { rewrite Hm', Zdigits2_mul_pow2 by lia. simpl Zdigits2. lia. }
  apply round_aux_bnd; try lia.
  pose proof (fexp_mono _ _ Hmag). lia.
Qed.

Lemma binary_round_signed s m e : signed s (binary_round prec emax s m e).
Proof.
  unfold binary_round. destruct (shl_align _ _ _) as [mz ez].
  apply round_aux_signed. lia.
Qed.

Lemma binary_round_lb s m e :
  emin + prec <= Zpos (digits2_pos m) + e ->
  match binary_round prec emax s m e with
  | S754_finite _ m' e' => Zpos (digits2_pos m) + e <= Zpos (digits2_pos m') + e'
  | S754_infinity _ => True
  | _ => False
  end.
Proof.
  intros Hnorm. unfold binary_round.
  destruct (shl_align_spec m e (fexp (Zpos (digits2_pos m) + e))) as [He' Hm'].
  destruct (shl_align m e (fexp (Zpos (digits2_pos m) + e))) as [mz ez].
  simpl fst in Hm'; simpl snd in He'.
  assert (Hdz : Zdigits2 (Zpos mz) + ez = Zpos (digits2_pos m) + e).
  { rewrite Hm', Zdigits2_mul_pow2 by lia. simpl Zdigits2. lia. }
  pose proof (round_aux_lb s (Zpos mz) ez loc_Exact) as H.
  rewrite Hdz in H. apply H; lia.
Qed.

Lemma signed_number s x : signed s x -> number x.
Proof. destruct x; simpl; unfold number; congruence. Qed.

Lemma bnd_number B x : bnd B x -> number x.
Proof. destruct x; simpl; unfold number; try congruence; contradiction. Qed.

Lemma normalize_number z e s0 : number (binary_normalize prec emax z e s0).
Proof.
  destruct z as [|p|p]; simpl; [discriminate| |];
    eapply signed_number, binary_round_signed.
Qed.

Lemma normalize_bnd z e s0 B :
  Zdigits2 z + e <= B -> emin <= B -> B < emax ->
  bnd (B + 1) (binary_normalize prec emax z e s0).
Proof.
  intros Hmag HBlo HBhi. destruct z as [|p|p]; simpl; [exact I| |];
    now apply binary_round_bnd.
Qed.

Lemma SFmul_bnd x y Bx By B :
  bnd Bx x -> bnd By y -> emin <= Bx -> emin <= By ->
  Bx + By <= B -> emin <= B -> B < emax ->
  bnd (B + 1) (SFmul prec emax x y).
Proof.
  intros Hx Hy HBx HBy HB HBlo HBhi.
  destruct x as [sx|sx| |sx mx ex], y as [sy|sy| |sy my ey];
    cbn [bnd SFmul] in *; try contradiction; try exact I.
  destruct Hx as [Hx1 Hx2], Hy as [Hy1 Hy2].
  apply round_aux_bnd; try lia.
  - pose proof (Zdigits2_mul (Zpos mx) (Zpos my) ltac:(lia) ltac:(lia)) as H.
    change (Zpos mx * Zpos my) with (Zpos (mx * my)) in H.
    cbn [Zdigits2] in *. lia.
  - unfold SpecFloat.fexp, SpecFloat.emin in *. lia.
Qed.

Lemma SFadd_bnd x y Bx By B :
  bnd Bx x -> bnd By y -> Bx <= B -> By <= B -> emin <= B -> B + 1 < emax ->
  bnd (B + 2) (SFadd prec emax x y).
Proof.
  intros Hx Hy HBx HBy HBlo HBhi.
  destruct x as [sx|sx| |sx mx ex], y as [sy|sy| |sy my ey];
    cbn [bnd] in Hx, Hy; try contradiction.
  - destruct sx, sy; exact I.
  - cbn [SFadd]. apply bnd_mono with (B := By); [lia | exact Hy].
  - cbn [SFadd]. apply bnd_mono with (B := Bx); [lia | exact Hx].
  - cbn [SFadd]. destruct Hx as [Hx1 _], Hy as [Hy1 _].
    set (ez := Z.min ex ey).
    destruct (shl_align_spec mx ex ez) as [_ Hmx].
    destruct (shl_align_spec my ey ez) as [_ Hmy].
    replace (Z.min ex ez) with ez in Hmx by (unfold ez; lia).
    replace (Z.min ey ez) with ez in Hmy by (unfold ez; lia).
    set (mx' := fst (shl_align mx ex ez)) in *.
    set (my' := fst (shl_align my ey ez)) in *.
    replace (B + 2) with (B + 1 + 1) by lia.
    apply normalize_bnd; try lia.
    assert (Hdx : Zdigits2 (Zpos mx') = Zpos (digits2_pos mx) + (ex - ez)).
    { rewrite Hmx. apply Zdigits2_mul_pow2; unfold ez; lia. }
    assert (Hdy : Zdigits2 (Zpos my') = Zpos (digits2_pos my) + (ey - ez)).
    { rewrite Hmy. apply Zdigits2_mul_pow2; unfold ez; lia. }
    assert (Hpx : Zpos mx' < 2 ^ (B - ez)).
    { destruct (Zdigits2_bounds (Zpos mx') ltac:(lia)) as [_ Hhi].
      eapply Z.lt_le_trans; [exact Hhi|]. apply Z.pow_le_mono_r; lia. }
    assert (Hpy : Zpos my' < 2 ^ (B - ez)).
    { destruct (Zdigits2_bounds (Zpos my') ltac:(lia)) as [_ Hhi].
      eapply Z.lt_le_trans; [exact Hhi|]. apply Z.pow_le_mono_r; lia. }
    assert (Hez : 0 <= B - ez).
    { pose proof (Zdigits2_pos (Zpos mx') ltac:(lia)). lia. }
    set (z := cond_Zopp sx (Zpos mx') + cond_Zopp sy (Zpos my')).
    assert (Habs : Z.abs z < 2 ^ (B + 1 - ez)).
    { replace (B + 1 - ez) with (1 + (B - ez)) by lia.
      rewrite Z.pow_add_r by lia. unfold z.
      destruct sx, sy; simpl cond_Zopp; lia. }
    assert (Hdz : Zdigits2 z <= B + 1 - ez).
    { replace (Zdigits2 z) with (Zdigits2 (Z.abs z))
        by (destruct z; reflexivity).
      apply Zdigits2_le; lia. }
    lia.
Qed.

Lemma shift_match m s :
  0 <= s ->
  match s with
  | Zpos _ => Z.shiftl m s
  | Z0 => m
  | Zneg _ => Z0
  end = m * 2 ^ s.
Proof.
  intros Hs. destruct s as [|p|p]; try lia.
  now rewrite Z.shiftl_mul_pow2 by lia.
Qed.

Lemma div_eucl_div a b : fst (Z.div_eucl a b) = a / b.
Proof. reflexivity. Qed.

Lemma SFdiv_core_bnd mx ex my ey Bx Ly B :
  Zpos (digits2_pos mx) + ex <= Bx -> Ly <= Zpos (digits2_pos my) + ey ->
  Bx - Ly + 1 <= B -> emin <= B -> B < emax ->
  let '(q, e', l) := SFdiv_core_binary prec emax (Zpos mx) ex (Zpos my) ey in
  0 <= q /\ Zdigits2 q + e' <= B /\ e' <= fexp B.
Proof.
  intros Hx Hy HB HBlo HBhi. unfold SFdiv_core_binary.
  set (d1 := Zdigits2 (Zpos mx)). set (d2 := Zdigits2 (Zpos my)).
  assert (Hd1 : d1 = Zpos (digits2_pos mx)) by reflexivity.
  assert (Hd2 : d2 = Zpos (digits2_pos my)) by reflexivity.
  set (e' := Z.min (fexp (d1 + ex - (d2 + ey))) (ex - ey)).
  set (s := ex - ey - e').
  assert (Hs : 0 <= s) by (unfold s, e'; lia).
  set (m' := match s with
             | Zpos _ => Z.shiftl (Zpos mx) s
             | Z0 => Zpos mx
             | Zneg _ => Z0
             end).
  assert (Hm' : m' = Zpos mx * 2 ^ s) by (apply shift_match; exact Hs).
  pose proof (div_eucl_div m' (Zpos my)) as Hq.
  destruct (Z.div_eucl m' (Zpos my)) as [q r]. simpl fst in Hq. subst q.
  assert (Hp : 0 < 2 ^ s) by (apply Z.pow_pos_nonneg; lia).
  assert (Hq0 : 0 <= m' / Zpos my) by (apply Z.div_pos; nia).
  split; [exact Hq0|].
  assert (He' : e' <= fexp B).
  { unfold e'. pose proof (fexp_mono (d1 + ex - (d2 + ey)) B ltac:(lia)). lia. }
  split; [|exact He'].
  destruct (Zdigits2_bounds (Zpos mx) ltac:(lia)) as [_ Hhi1].
  destruct (Zdigits2_bounds (Zpos my) ltac:(lia)) as [Hlo2 _].
  fold d1 in Hhi1. fold d2 in Hlo2.
  assert (Hd2pos : 0 < d2) by (rewrite Hd2; lia).
  assert (Hd1pos : 0 < d1) by (rewrite Hd1; lia).
  destruct (Z_lt_le_dec (d1 + s - d2 + 1) 0) as [Hneg|Hnn].
  - (* the quotient is zero *)
    assert (Hsmall : m' < Zpos my).
    { rewrite Hm'. eapply Z.lt_le_trans; [|exact Hlo2].
      eapply Z.lt_le_trans.
      - apply Z.mul_lt_mono_pos_r; [lia | exact Hhi1].
      - rewrite <- Z.pow_add_r by lia. apply Z.pow_le_mono_r; lia. }
    rewrite Z.div_small by nia. simpl Zdigits2.
    unfold SpecFloat.fexp in He'. lia.
  - assert (Hdq : Zdigits2 (m' / Zpos my) <= d1 + s - d2 + 1).
    { apply Zdigits2_le; [|lia]. split; [exact Hq0|].
      apply Z.div_lt_upper_bound; [lia|].
      rewrite Hm'.
      assert (Hmy : 2 ^ (d2 - 1) * 2 ^ (d1 + s - d2 + 1) <=
                    Zpos my * 2 ^ (d1 + s - d2 + 1)).
      { apply Z.mul_le_mono_nonneg_r; [apply Z.pow_nonneg; lia | exact Hlo2]. }
      rewrite <- Z.pow_add_r in Hmy by lia.
      replace (d2 - 1 + (d1 + s - d2 + 1)) with (d1 + s) in Hmy by lia.
      rewrite Z.pow_add_r in Hmy by lia. nia. }
    unfold s in Hdq. lia.
Qed.

Lemma SFdiv_bnd sx mx ex sy my ey Bx Ly B :
  Zpos (digits2_pos mx) + ex <= Bx -> Ly <= Zpos (digits2_pos my) + ey ->
  Bx - Ly + 1 <= B -> emin <= B -> B < emax ->
  bnd (B + 1)
    (SFdiv prec emax (S754_finite sx mx ex) (S754_finite sy my ey)).
Proof.
  intros Hx Hy HB HBlo HBhi. cbn [SFdiv].
  pose proof (SFdiv_core_bnd mx ex my ey Bx Ly B Hx Hy HB HBlo HBhi) as H.
  destruct (SFdiv_core_binary prec emax (Zpos mx) ex (Zpos my) ey)
    as [[q e'] l].
  destruct H as (Hq & Hmag & He).
  now apply round_aux_bnd.
Qed.

Lemma SFdiv_signed sx mx ex sy my ey :
  signed (xorb sx sy)
    (SFdiv prec emax (S754_finite sx mx ex) (S754_finite sy my ey)).
Proof.
  cbn [SFdiv]. unfold SFdiv_core_binary.
  match goal with
  | |- context [Z.div_eucl ?a ?b] =>
      pose proof (div_eucl_div a b) as Hq;
      assert (Ha : 0 <= a);
      [|destruct (Z.div_eucl a b) as [q r]; simpl fst in Hq; subst q]
  end.
  { match goal with
    | |- 0 <= match ?s with _ => _ end =>
        destruct s; [lia | apply Z.shiftl_nonneg; lia | lia]
    end. }
  apply round_aux_signed. apply Z.div_pos; lia.
Qed.

Lemma sqrtrem_sqrt a : fst (Z.sqrtrem a) = Z.sqrt a.
Proof. apply Z.sqrtrem_sqrt. Qed.

Lemma SFsqrt_core_bnd m e Bx B :
  Zpos (digits2_pos m) + e <= Bx -> (Bx + 1) / 2 <= B ->
  emin <= B -> B < emax ->
  let '(q, e', l) := SFsqrt_core_binary prec emax (Zpos m) e in
  0 <= q /\ Zdigits2 q + e' <= B /\ e' <= fexp B.
Proof.
  intros Hx HB HBlo HBhi. unfold SFsqrt_core_binary.
  set (d := Zdigits2 (Zpos m)).
  assert (Hd : d = Zpos (digits2_pos m)) by reflexivity.
  rewrite !Z.div2_div.
  set (e' := Z.min (fexp ((d + e + 1) / 2)) (e / 2)).
  set (s := e - 2 * e').
  assert (He2 : 2 * (e / 2) <= e) by (apply Z.mul_div_le; lia).
  assert (Hs : 0 <= s) by (unfold s, e'; lia).
  set (m' := match s with
             | Zpos _ => Z.shiftl (Zpos m) s
             | Z0 => Zpos m
             | Zneg _ => Z0
             end).
  assert (Hm' : m' = Zpos m * 2 ^ s) by (apply shift_match; exact Hs).
  pose proof (sqrtrem_sqrt m') as Hq.
  destruct (Z.sqrtrem m') as [q r]. simpl fst in Hq. subst q.
  assert (Hp : 0 < 2 ^ s) by (apply Z.pow_pos_nonneg; lia).
  assert (Hm'pos : 0 < m') by nia.
  pose proof (Z.sqrt_nonneg m') as Hq0.
  split; [exact Hq0|].
  assert (Hmono : (d + e + 1) / 2 <= B).
  { etransitivity; [|exact HB]. apply Z.div_le_mono; lia. }
  assert (He' : e' <= fexp B).
  { unfold e'. pose proof (fexp_mono _ _ Hmono). lia. }
  split; [|exact He'].
  destruct (Zdigits2_bounds (Zpos m) ltac:(lia)) as [_ Hhi].
  fold d in Hhi.
  assert (Hdpos : 0 < d) by (rewrite Hd; lia).
  set (k := (d + s + 1) / 2).
  assert (Hk : d + s <= 2 * k).
  { unfold k. pose proof (Z.mul_succ_div_gt (d + s + 1) 2 ltac:(lia)). lia. }
  assert (Hk0 : 0 <= k) by (unfold k; apply Z.div_pos; lia).
  assert (Hdq : Zdigits2 (Z.sqrt m') <= k).
  { apply Zdigits2_le; [|exact Hk0]. split; [exact Hq0|].
    destruct (Z_lt_le_dec (Z.sqrt m') (2 ^ k)) as [|Hge]; [assumption|exfalso].
    destruct (Z.sqrt_spec m' ltac:(lia)) as [Hlo _].
    assert (Hsq : 2 ^ k * 2 ^ k <= Z.sqrt m' * Z.sqrt m').
    { assert (0 < 2 ^ k) by (apply Z.pow_pos_nonneg; lia). nia. }
    rewrite <- Z.pow_add_r in Hsq by lia.
    assert (Hm'lt : m' < 2 ^ (d + s)).
    { rewrite Hm', Z.pow_add_r by lia. nia. }
    assert (2 ^ (d + s) <= 2 ^ (k + k)) by (apply Z.pow_le_mono_r; lia).
    lia. }
  assert (Hke : k = (d + e + 1) / 2 - e').
  { unfold k, s.
    replace (d + (e - 2 * e') + 1) with (d + e + 1 + (- e') * 2) by lia.
    rewrite Z.div_add by lia. lia. }
  lia.
Qed.

Lemma SFsqrt_bnd m e Bx B :
  Zpos (digits2_pos m) + e <= Bx -> (Bx + 1) / 2 <= B ->
  emin <= B -> B < emax ->
  bnd (B + 1) (SFsqrt prec emax (S754_finite false m e)).
Proof.
  intros Hx HB HBlo HBhi. cbn [SFsqrt].
  pose proof (SFsqrt_core_bnd m e Bx B Hx HB HBlo HBhi) as H.
  destruct (SFsqrt_core_binary prec emax (Zpos m) e) as [[q e'] l].
  destruct H as (Hq & Hmag & He).
  now apply round_aux_bnd.
Qed.

Lemma SFsqrt_signed m e :
  signed false (SFsqrt prec emax (S754_finite false m e)).
Proof.
  cbn [SFsqrt]. unfold SFsqrt_core_binary.
  match goal with
  | |- context [Z.sqrtrem ?a] =>
      pose proof (sqrtrem_sqrt a) as Hq;
      destruct (Z.sqrtrem a) as [q r]; simpl fst in Hq; subst q
  end.
  apply round_aux_signed. apply Z.sqrt_nonneg.
Qed.
End Round.

Set Implicit Arguments.

(** ** Signs through the arithmetic *)

Section Signs.
Variables prec emax : Z.

Lemma nonneg_round_aux m e l :
  nonneg (binary_round_aux prec emax false m e l).
Proof.
  unfold binary_round_aux.
  destruct (shr_fexp prec emax m e l) as [mrs e'].
  destruct (shr_fexp prec emax _ e' loc_Exact) as [mrs' e''].
  destruct (shr_m mrs'); simpl; auto.
  destruct (e'' <=? emax - prec); simpl; auto.
Qed.

Lemma nonneg_round m e : nonneg (binary_round prec emax false m e).
Proof.
  unfold binary_round. destruct (shl_align _ _ _). apply nonneg_round_aux.
Qed.

Lemma nonneg_normalize z e :
  0 <= z -> nonneg (binary_normalize prec emax z e false).
Proof.
  intros Hz. destruct z as [|p|p]; simpl; auto; [apply nonneg_round | lia].
Qed.

Lemma nonneg_SFmul x y : nonneg x -> nonneg y -> nonneg (SFmul prec emax x y).
Proof.
  destruct x as [sx|sx| |sx mx ex], y as [sy|sy| |sy my ey]; simpl;
    intros Hx Hy; subst; simpl; auto.
  apply nonneg_round_aux.
Qed.

Lemma nonneg_SFdiv x y : nonneg x -> nonneg y -> nonneg (SFdiv prec emax x y).
Proof.
  destruct x as [sx|sx| |sx mx ex], y as [sy|sy| |sy my ey]; simpl;
    intros Hx Hy; subst; simpl; auto.
  destruct (SFdiv_core_binary _ _ _ _ _ _) as [[mz ez] lz].
  apply nonneg_round_aux.
Qed.

Lemma nonneg_SFadd x y : nonneg x -> nonneg y -> nonneg (SFadd prec emax x y).
Proof.
  destruct x as [sx|sx| |sx mx ex], y as [sy|sy| |sy my ey]; simpl;
    intros Hx Hy; subst; simpl; auto.
  apply nonneg_round.
Qed.
End Signs.

Lemma nonneg_F32_of_int z : 0 <= z -> nonneg (F32.of_int z).
Proof. apply nonneg_normalize. Qed.

Lemma nonneg_F64_of_int z : 0 <= z -> nonneg (F64.of_int z).
Proof. apply nonneg_normalize. Qed.

Lemma nonneg_F64_of_float x : nonneg x -> nonneg (F64.of_float x).
Proof.
  destruct x as [s|s| |s m e]; simpl; auto. intros ->. apply nonneg_round.
Qed.

Lemma nonneg_F32_of_double x : nonneg x -> nonneg (F32.of_double x).
Proof.
  destruct x as [s|s| |s m e]; simpl; auto. intros ->. apply nonneg_round.
Qed.

Lemma nonneg_center w iw lw :
  0 <= w -> 0 <= iw -> 0 <= lw ->
  nonneg (center w (F32.div (F32.of_int iw) (F32.of_int lw))).
Proof.
  intros Hw Hiw Hlw. unfold center.
  apply nonneg_F32_of_double, nonneg_SFmul.
  - apply nonneg_SFadd; [now apply nonneg_F64_of_int | reflexivity].
  - apply nonneg_F64_of_float, nonneg_SFdiv; now apply nonneg_F32_of_int.
Qed.

Lemma F64_sub_zero x : F64.sub x (S754_zero false) = x.
Proof. destruct x as [[]|[]| |[] m e]; reflexivity. Qed.

Lemma F64_add_zero x : nonneg x -> F64.add x (S754_zero false) = x.
Proof. destruct x as [[]|[]| |[] m e]; simpl; intros H; congruence. Qed.

(** ** Without any minimum size *)

Lemma lo_zero c image : lo c (S754_zero false) image = point c image.
Proof.
  unfold lo, point.
  change (F64.div (S754_zero false) F64.two) with (S754_zero false).
  now rewrite F64_sub_zero.
Qed.

Lemma hi_zero c image : nonneg c -> hi c (S754_zero false) image = point c image.
Proof.
  intros Hc. unfold hi, point.
  change (F64.div (S754_zero false) F64.two) with (S754_zero false).
  now rewrite F64_add_zero by now apply nonneg_F64_of_float.
Qed.

Lemma ratio_size_zero ar :
  finite_root ar ->
  ratio_width 0 ar = S754_zero false /\ ratio_height 0 ar = S754_zero false.
Proof.
  unfold finite_root, ratio_width, ratio_height.
  destruct (F64.sqrt (F64.of_float ar)) as [s|s| |[] m e]; try contradiction.
  intros _. split; reflexivity.
Qed.

Lemma range_In x n : In x (range n) -> 0 <= x < n.
Proof.
  unfold range. rewrite in_map_iff. intros (k & <- & Hk).
  apply in_seq in Hk. lia.
Qed.

Lemma unity_counted pbConf :
  (1 <= countOfUnityRatios (snd (init pbConf)))%nat.
Proof.
  unfold countOfUnityRatios, init. cbn [snd aspectRatio_].
  rewrite filter_app, length_app.
  change (F32.of_double F64.one) with F32.one.
  change (filter near_one [F32.one]) with [F32.one].
  cbn [length]. lia.
Qed.

Lemma numPriors_init_ge pbConf :
  Z.of_nat (length (aspectRatio_ (snd (init pbConf)))) <=
  numPriors_ (snd (init pbConf)).
Proof.
  unfold init. cbn [snd numPriors_ aspectRatio_].
  destruct (0 <? length (max_size pbConf))%nat; lia.
Qed.

Lemma forward_done_no_min_size pbConf W H iw ih uninit :
  min_size pbConf = [] -> length (variance pbConf) = 4%nat ->
  dim_fits (snd (init pbConf)) W H = true ->
  exists out, forward (snd (init pbConf)) W H iw ih uninit = Done out.
Proof.
  intros Hmin Hvar Hfit. set (L := snd (init pbConf)). fold L in Hfit.
  assert (HminL : minSize_ L = []) by exact Hmin.
  assert (HvarL : (4 <= length (variance_ L))%nat)
    by (change (variance_ L) with (variance pbConf); lia).
  rewrite forward_run; [|now left| |exact HvarL].
  2:{ intros m M Hm. rewrite HminL in Hm. destruct Hm. }
  cbv zeta. rewrite Hfit.
  rewrite all_boxes_length, variance_block_length by exact HvarL.
  assert (Hact : (actualPriorsPerCell L < Z.to_nat (numPriors_ L))%nat).
  { unfold actualPriorsPerCell. rewrite HminL. cbn [length Nat.mul Nat.add].
    pose proof (unity_counted pbConf) as Hu. fold L in Hu.
    pose proof (numPriors_init_ge pbConf) as Hn. fold L in Hn.
    assert (Hlen : (1 <= length (aspectRatio_ L))%nat).
    { unfold L, init. cbn [snd aspectRatio_]. rewrite length_app.
      cbn [length]. lia. }
    lia. }
  match goal with |- exists out, (if ?c then _ else _) = _ =>
    assert (Hc : c = true) end.
  { apply Nat.leb_le. unfold cells, dim.
    destruct (Z_lt_le_dec 0 H) as [HH|HH];
      [destruct (Z_lt_le_dec 0 W) as [HW|HW]|].
    - pose proof (numPriors_init_pos pbConf) as Hn. fold L in Hn.
      replace (Z.to_nat (H * W * numPriors_ L * 4 * 2))
        with (Z.to_nat H * Z.to_nat W * Z.to_nat (numPriors_ L) * 8)%nat
        by nia.
      nia.
    - replace (Z.to_nat W) with 0%nat by lia. lia.
    - replace (Z.to_nat H) with 0%nat by lia. lia. }
  rewrite Hc. eauto.
Qed.

(** C10, as amended: with no minimum size [forward] ends with a buffer,
    whatever [maxSizes] holds, as long as the grid dimensions are not
    negative and the size of the buffer fits an [int]; in every cell the
    variable [minSize] still holds 0 when the aspect ratios are gone
    through, and every ratio whose square root is a finite non-zero number
    gets the prior
    [(centerX/imageWidth, centerY/imageHeight, centerX/imageWidth,
    centerY/imageHeight)], of no area. *)
Theorem C10_no_min_size
  (pbConf : PriorBoxConfig) (layerWidth layerHeight imageWidth imageHeight : Z)
  (uninit : nat -> float) :
  min_size pbConf = [] -> length (variance pbConf) = 4%nat ->
  let L := snd (init pbConf) in
  (0 <= layerWidth -> 0 <= layerHeight ->
   dim_fits L layerWidth layerHeight = true ->
   exists out,
     forward L layerWidth layerHeight imageWidth imageHeight uninit = Done out) /\
  (0 <= imageWidth -> 0 <= imageHeight ->
   forall h w, In h (range layerHeight) -> In w (range layerWidth) ->
     let centerX := center w (stepW layerWidth imageWidth) in
     let centerY := center h (stepH layerHeight imageHeight) in
     (forall st,
        cell L layerWidth layerHeight imageWidth imageHeight h w st =
        emit (flat_map (ratio_boxes imageWidth imageHeight centerX centerY 0)
                (aspectRatio_ L)) st) /\
     (forall ar, near_one ar = false -> finite_root ar ->
        ratio_boxes imageWidth imageHeight centerX centerY 0 ar =
        [point centerX imageWidth; point centerY imageHeight;
         point centerX imageWidth; point centerY imageHeight])).
Proof.
  intros Hmin Hvar L. split; [intros _ _; now apply forward_done_no_min_size|].
  intros Hiw Hih h w Hh Hw centerX centerY.
  apply range_In in Hh. apply range_In in Hw. split.
  - intros st. unfold cell. fold centerX centerY.
    change (minSize_ L) with (min_size pbConf). rewrite Hmin.
    cbn [size_loop]. unfold bind, ret.
    apply for_each_emit. intros ar st1 _. apply ratio_step_emit.
  - intros ar Hne Hroot. unfold ratio_boxes, box. rewrite Hne.
    destruct (ratio_size_zero ar Hroot) as [-> ->].
    change (F64.of_float (S754_zero false)) with (S754_zero false).
    assert (HcX : nonneg centerX) by (apply nonneg_center; lia).
    assert (HcY : nonneg centerY) by (apply nonneg_center; lia).
    now rewrite !lo_zero, !hi_zero.
Qed.

Lemma C10_witness :
  let L := snd (init no_min_size) in
  let centerX := center 0 (stepW 1 100) in
  let centerY := center 0 (stepH 1 100) in
  (exists out, forward L 1 1 100 100 (fun _ => F32.zero) = Done out) /\
  ratio_boxes 100 100 centerX centerY 0 (F32.of_int 2) =
  [point centerX 100; point centerY 100; point centerX 100; point centerY 100].
Proof.
  intros L centerX centerY.
  pose proof (@C10_no_min_size no_min_size 1 1 100 100 (fun _ => F32.zero)
                eq_refl eq_refl) as [Hdone Hcell].
  split; [exact (Hdone ltac:(lia) ltac:(lia) eq_refl)|].
  refine (proj2 (Hcell _ _ 0 0 _ _) (F32.of_int 2) eq_refl I);
    [lia | lia | now left | now left].
Defined.

(** C10 fails as stated: the reciprocal of the raw ratio [2^-149] is
    [+inf], whose prior has NaN for [xmin] and [xmax]. *)
Lemma C10_counterexample :
  let L := snd (init tiny_ratio) in
  let centerX := center 0 (stepW 1 100) in
  let centerY := center 0 (stepH 1 100) in
  min_size tiny_ratio = [] /\
  In (recip tiny) (aspectRatio_ L) /\ near_one (recip tiny) = false /\
  ratio_boxes 100 100 centerX centerY 0 (recip tiny) =
    [S754_nan; point centerY 100; S754_nan; point centerY 100] /\
  ratio_boxes 100 100 centerX centerY 0 (recip tiny) <>
    [point centerX 100; point centerY 100; point centerX 100; point centerY 100].
Proof.
  intros L centerX centerY. split; [reflexivity|].
  split; [right; left; reflexivity|]. split; [reflexivity|].
  split; [reflexivity | vm_compute; discriminate].
Qed.


(** ** What a run that ends well has stored *)

Lemma writes_ret A (a : A) : writes (ret a) [] a.
Proof. intros st r st' H. injection H as <- <-. auto. Qed.

Lemma writes_stop A (f : fault) vs (a : A) : writes (stop f) vs a.
Proof. intros st r st' H. discriminate. Qed.

Lemma writes_put v : writes (put v) [v] tt.
Proof.
  intros st [] st' H. split; [reflexivity|].
  rewrite emit_cons. unfold bind. rewrite H. reflexivity.
Qed.

Lemma writes_CHECK_EQ a b : writes (CHECK_EQ a b) [] tt.
Proof.
  intros st [] st'. unfold CHECK_EQ. destruct (a =? b)%nat; [|discriminate].
  intros H. injection H as <-. auto.
Qed.

Lemma writes_at A (vec : list A) j d : writes (at_ vec j) [] (nth j vec d).
Proof.
  intros st r st'. unfold at_. destruct (nth_error vec j) as [v|] eqn:E.
  - intros H. injection H as <- <-. split; [|reflexivity].
    symmetry. now apply nth_error_nth.
  - discriminate.
Qed.

Lemma writes_bind A B (c : Run A) (k : A -> Run B) vs ws a b :
  writes c vs a -> writes (k a) ws b -> writes (bind c k) (vs ++ ws) b.
Proof.
  intros Hc Hk st r st''. unfold bind.
  destruct (c st) as [[a' st']| |] eqn:E; try discriminate.
  destruct (Hc _ _ _ E) as [-> Hvs]. intros Hrun.
  destruct (Hk _ _ _ Hrun) as [-> Hws]. split; [reflexivity|].
  rewrite emit_app. unfold bind. now rewrite Hvs.
Qed.

Lemma writes_for_each A (f : A -> list float) (body : A -> Run unit) l :
  (forall x, In x l -> writes (body x) (f x) tt) ->
  writes (for_each l body) (flat_map f l) tt.
Proof.
  induction l as [|x l IH]; intros Hb; cbn [for_each flat_map].
  - apply writes_ret.
  - eapply writes_bind; [apply Hb; now left|].
    apply IH. intros y Hy. apply Hb. now right.
Qed.

Section Writes.
Variable L : PriorBoxLayer.
Variables layerWidth layerHeight imageWidth imageHeight : Z.

Lemma writes_put_box cx cy bw bh :
  writes (put_box imageWidth imageHeight cx cy bw bh)
         (box imageWidth imageHeight cx cy bw bh) tt.
Proof.
  unfold put_box, box.
  change [lo cx bw imageWidth; lo cy bh imageHeight; hi cx bw imageWidth;
          hi cy bh imageHeight]
    with ([lo cx bw imageWidth] ++ [lo cy bh imageHeight] ++
          [hi cx bw imageWidth] ++ [hi cy bh imageHeight]).
  repeat (eapply writes_bind; [apply writes_put|]). apply writes_put.
Qed.

Lemma writes_second_size m M :
  writes (second_size m M) [] (trunc_sqrt m M).
Proof.
  intros st r st'. unfold second_size, trunc_sqrt, bind, int_.
  destruct (fits (m * M)); [|discriminate]. unfold ret at 1.
  destruct (F64.to_int _); [apply writes_ret | apply writes_stop].
Qed.

Lemma writes_size_step cx cy m :
  writes (size_step L imageWidth imageHeight cx cy m)
         (size_boxes L imageWidth imageHeight cx cy m) m.
Proof.
  unfold size_step, size_boxes.
  eapply writes_bind; [apply writes_put_box|].
  rewrite <- (app_nil_r (flat_map _ (maxSize_ L))).
  eapply writes_bind; [|apply writes_ret].
  destruct (Nat.ltb_spec 0 (length (maxSize_ L))) as [Hpos|Hzero].
  - change (flat_map ?f (maxSize_ L)) with ([] ++ flat_map f (maxSize_ L)).
    eapply writes_bind; [apply writes_CHECK_EQ|].
    apply writes_for_each. intros M _.
    change (box imageWidth imageHeight cx cy (F64.of_int (trunc_sqrt m M))
              (F64.of_int (trunc_sqrt m M)))
      with ([] ++ box imageWidth imageHeight cx cy
                    (F64.of_int (trunc_sqrt m M))
                    (F64.of_int (trunc_sqrt m M))).
    eapply writes_bind; [apply writes_second_size | apply writes_put_box].
  - destruct (maxSize_ L); [apply writes_ret | simpl in Hzero; lia].
Qed.

Lemma writes_size_loop cx cy sizes m0 :
  writes (size_loop L imageWidth imageHeight cx cy sizes m0)
         (flat_map (size_boxes L imageWidth imageHeight cx cy) sizes)
         (last sizes m0).
Proof.
  revert m0. induction sizes as [|m sizes IH]; intros m0;
    cbn [size_loop flat_map].
  - apply writes_ret.
  - rewrite last_cons.
    apply writes_bind with (a := m); [apply writes_size_step | apply IH].
Qed.

Lemma writes_cell h w :
  writes (cell L layerWidth layerHeight imageWidth imageHeight h w)
         (cell_boxes L layerWidth layerHeight imageWidth imageHeight h w) tt.
Proof.
  unfold cell, cell_boxes.
  apply writes_bind with (a := last (minSize_ L) 0);
    [apply writes_size_loop|].
  apply writes_for_each. intros ar _.
  unfold ratio_step, ratio_boxes.
  destruct (near_one ar); [apply writes_ret | apply writes_put_box].
Qed.

Lemma writes_fill_boxes :
  writes (fill_boxes L layerWidth layerHeight imageWidth imageHeight)
         (all_boxes L layerWidth layerHeight imageWidth imageHeight) tt.
Proof.
  unfold fill_boxes, all_boxes.
  apply writes_for_each. intros h _.
  apply writes_for_each. intros w _. apply writes_cell.
Qed.

Lemma writes_fill_variance :
  writes (fill_variance L layerWidth layerHeight)
    (flat_map (fun _ => flat_map (fun _ => flat_map (fun _ => variance_quad L)
                                      (range (numPriors_ L)))
                          (range layerWidth))
       (range layerHeight)) tt.
Proof.
  unfold fill_variance.
  repeat (apply writes_for_each; intros ? _).
  change [nth x2 (variance_ L) F32.zero]
    with ([] ++ [nth x2 (variance_ L) F32.zero]).
  apply writes_bind with (a := nth x2 (variance_ L) F32.zero);
    [apply writes_at | apply writes_put].
Qed.
End Writes.


(** ** The clipping *)

Lemma SFcompare_antisym x y c :
  SFcompare x y = Some c -> SFcompare y x = Some (CompOpp c).
Proof.
  destruct x as [sx|sx| |sx mx ex], y as [sy|sy| |sy my ey]; simpl;
    try discriminate; intros H; injection H as <-;
    try (destruct sx; reflexivity); try (destruct sy; reflexivity);
    try (destruct sx, sy; reflexivity).
  destruct sx, sy; try reflexivity;
    rewrite (Z.compare_antisym ex ey);
    destruct (ex ?= ey); simpl; try reflexivity;
    change (Pos.compare_cont Eq my mx) with (Pos.compare my mx);
    change (Pos.compare_cont Eq mx my) with (Pos.compare mx my);
    rewrite (Pos.compare_antisym mx my); destruct (mx ?= my)%positive;
    reflexivity.
Qed.

Lemma SFcompare_zero_None v : SFcompare v F32.zero = None -> v = S754_nan.
Proof. destruct v as [s|s| |s m e]; simpl; try discriminate; auto. Qed.

(** The clipped value is in [[0, 1]], except that NaN stays NaN. *)
Lemma clip_range v :
  in_unit (clip v) \/ (v = S754_nan /\ clip v = S754_nan).
Proof.
  unfold clip, std_min, std_max, F32.ltb, SFltb.
  destruct (SFcompare v F32.zero) as [[| |]|] eqn:E0.
  - (* v == 0 *)
    destruct (SFcompare F32.one v) as [[| |]|] eqn:E1.
    + left. apply SFcompare_antisym in E0, E1. unfold in_unit, F32.leb, SFleb.
      now rewrite E0, E1.
    + left. split; reflexivity.
    + left. apply SFcompare_antisym in E0, E1. unfold in_unit, F32.leb, SFleb.
      now rewrite E0, E1.
    + destruct v; simpl in *; discriminate.
  - (* v < 0 *) left. split; reflexivity.
  - (* v > 0 *)
    destruct (SFcompare F32.one v) as [[| |]|] eqn:E1.
    + left. apply SFcompare_antisym in E0, E1. unfold in_unit, F32.leb, SFleb.
      now rewrite E0, E1.
    + left. split; reflexivity.
    + left. apply SFcompare_antisym in E0, E1. unfold in_unit, F32.leb, SFleb.
      now rewrite E0, E1.
    + destruct v; simpl in *; discriminate.
  - right. apply SFcompare_zero_None in E0. subst v. split; reflexivity.
Qed.

Lemma clip_in_unit v : v <> S754_nan -> in_unit (clip v).
Proof. intros Hv. destruct (clip_range v) as [H|[H _]]; [exact H | contradiction]. Qed.

Lemma variance_stores_length L W H :
  length (flat_map (fun _ : Z =>
            flat_map (fun _ : Z =>
              flat_map (fun _ : Z => variance_quad L) (range (numPriors_ L)))
              (range W)) (range H)) =
  (Z.to_nat H * (Z.to_nat W * (Z.to_nat (numPriors_ L) * 4)))%nat.
Proof.
  rewrite flat_map_length_const
    with (n := (Z.to_nat W * (Z.to_nat (numPriors_ L) * 4))%nat).
  - now rewrite range_length.
  - intros _ _.
    rewrite flat_map_length_const with (n := (Z.to_nat (numPriors_ L) * 4)%nat).
    + now rewrite range_length.
    + intros _ _. rewrite flat_map_length_const with (n := 4%nat).
      * now rewrite range_length.
      * reflexivity.
Qed.

(** A run of [forward] that ends well has stored the boxes from cell 0
    on, all of them inside the first [dim] cells, clipped those [dim]
    cells, and gone on storing right after the boxes. *)
Lemma forward_done_inv L W H iw ih uninit out :
  forward L W H iw ih uninit = Done out ->
  exists vs,
    (length (all_boxes L W H iw ih) + length vs <= Z.to_nat (dim L W H * 2))%nat /\
    (length (all_boxes L W H iw ih) <= Z.to_nat (dim L W H))%nat /\
    out = splice (length (all_boxes L W H iw ih)) vs
            (clipped L W H
               (splice 0 (all_boxes L W H iw ih)
                  (map uninit (seq 0 (Z.to_nat (dim L W H * 2)))))).
Proof.
  unfold forward.
  set (boxes := all_boxes L W H iw ih).
  set (size := Z.to_nat (dim L W H * 2)).
  destruct (dim_fits L W H); [|discriminate].
  destruct ((fill_boxes L W H iw ih ;; clip_all L W H ;; fill_variance L W H)
              (fresh L W H uninit)) as [[[] st3]| |] eqn:E; try discriminate.
  intros Hout. injection Hout as <-.
  unfold bind in E.
  destruct (fill_boxes L W H iw ih (fresh L W H uninit))
    as [[[] st1]| |] eqn:E1; try discriminate.
  apply writes_fill_boxes in E1. destruct E1 as [_ E1]. fold boxes in E1.
  rewrite emit_run in E1 by (cbn; lia).
  rewrite fresh_length in E1. fold size in E1. cbn [idx tmpPtr fresh Nat.add] in E1.
  fold size in E1.
  destruct (Nat.leb_spec (length boxes) size) as [HC|HC]; try discriminate.
  injection E1 as <-.
  assert (Hdim : (Z.to_nat (dim L W H) <= size)%nat) by (unfold size; lia).
  assert (Hlen1 : length (splice 0 boxes (map uninit (seq 0 size))) = size).
  { rewrite splice_length; rewrite length_map, length_seq; lia. }
  rewrite clip_all_run in E by lia.
  apply writes_fill_variance in E. destruct E as [_ E].
  match type of E with emit ?l _ = _ => set (vs := l) in * end.
  rewrite emit_run in E; cbn [idx tmpPtr] in *;
    rewrite clipped_length, Hlen1 in *; [|lia].
  destruct (Nat.leb_spec (length boxes + length vs) size) as [HV|HV];
    try discriminate.
  injection E as <-. cbn [tmpPtr].
  exists vs. split; [exact HV|]. split.
  - assert (Hvs : length vs =
              (Z.to_nat H * (Z.to_nat W * (Z.to_nat (numPriors_ L) * 4)))%nat)
      by apply variance_stores_length.
    unfold size, dim in *.
    destruct (Z_lt_le_dec 0 H) as [HH|HH];
      [destruct (Z_lt_le_dec 0 W) as [HW|HW];
       [destruct (Z_lt_le_dec 0 (numPriors_ L)) as [HN|HN]|]|].
    + replace (Z.to_nat (H * W * numPriors_ L * 4 * 2))
        with (2 * (Z.to_nat H * (Z.to_nat W * (Z.to_nat (numPriors_ L) * 4))))%nat
        in HV by nia.
      replace (Z.to_nat (H * W * numPriors_ L * 4))
        with (Z.to_nat H * (Z.to_nat W * (Z.to_nat (numPriors_ L) * 4)))%nat
        by nia.
      lia.
    + replace (Z.to_nat (H * W * numPriors_ L * 4 * 2)) with 0%nat in HC by nia.
      lia.
    + unfold boxes. rewrite all_boxes_length. unfold cells.
      replace (Z.to_nat W) with 0%nat by lia. lia.
    + unfold boxes. rewrite all_boxes_length. unfold cells.
      replace (Z.to_nat H) with 0%nat by lia. lia.
  - apply firstn_all2.
    rewrite splice_length; rewrite clipped_length, Hlen1; lia.
Qed.

Lemma forward_done_nth L W H iw ih uninit out i :
  forward L W H iw ih uninit = Done out ->
  (i < length (all_boxes L W H iw ih))%nat ->
  (i < Z.to_nat (dim L W H))%nat /\
  nth i out F32.zero = clip (nth i (all_boxes L W H iw ih) F32.zero).
Proof.
  intros Hrun Hi.
  destruct (forward_done_inv _ _ _ _ _ _ Hrun) as (vs & HV & HC & ->).
  set (boxes := all_boxes L W H iw ih) in *.
  set (size := Z.to_nat (dim L W H * 2)) in *.
  assert (Hlen1 : length (splice 0 boxes (map uninit (seq 0 size))) = size).
  { rewrite splice_length; rewrite length_map, length_seq; lia. }
  split; [lia|].
  unfold splice at 1.
  rewrite app_nth1 by (rewrite length_firstn, clipped_length, Hlen1; lia).
  rewrite nth_firstn.
  destruct (Nat.ltb_spec i (length boxes)); [|lia].
  unfold clipped.
  rewrite app_nth1 by (rewrite length_map, length_firstn, Hlen1; lia).
  rewrite nth_indep with (d' := clip F32.zero)
    by (rewrite length_map, length_firstn, Hlen1; lia).
  rewrite map_nth, nth_firstn.
  destruct (Nat.ltb_spec i (Z.to_nat (dim L W H))); [|lia].
  unfold splice. cbn [firstn app Nat.add].
  now rewrite app_nth1 by lia.
Qed.



(** ** Further properties of the generator *)

(** The declared number of priors per cell: the derived ratios, and one
    more when there is a maximum size. *)
Theorem nominal_prior_count (pbConf : PriorBoxConfig) :
  numPriors_ (snd (init pbConf)) =
  2 * Z.of_nat (length (aspect_ratio pbConf)) + 1 +
  (if (0 <? length (max_size pbConf))%nat then 1 else 0).
Proof.
  unfold init. cbn [snd numPriors_].
  rewrite flip_spec, !length_app, length_map. cbn [length].
  destruct (0 <? length (max_size pbConf))%nat; lia.
Qed.

(** [init] succeeds whatever it is given and keeps the sizes and the
    variance as they are. *)
Theorem init_keeps_configuration (pbConf : PriorBoxConfig) :
  fst (init pbConf) = true /\
  minSize_ (snd (init pbConf)) = min_size pbConf /\
  maxSize_ (snd (init pbConf)) = max_size pbConf /\
  variance_ (snd (init pbConf)) = variance pbConf.
Proof. repeat split. Qed.

Lemma emit_done vs st st' :
  emit vs st = Done (tt, st') ->
  idx st' = (idx st + length vs)%nat /\
  (vs <> [] -> tmpPtr st' = splice (idx st) vs (tmpPtr st)).
Proof.
  destruct vs as [|v vs].
  - intros H. injection H as <-. split; [simpl; lia | congruence].
  - intros H.
    assert (Hi : (idx st <= length (tmpPtr st))%nat).
    { rewrite emit_cons in H. unfold bind, put in H.
      destruct (Nat.ltb_spec (idx st) (length (tmpPtr st))); [lia | discriminate]. }
    rewrite emit_run in H by exact Hi.
    destruct (_ <=? _)%nat; [|discriminate].
    injection H as <-. split; [reflexivity | auto].
Qed.

(** Whenever the loop over the cells ends well it has stored
    [height * width * actualPriorsPerCell] quadruples, the boxes of the
    cells in row-major order. *)
Theorem boxes_stored_when_done
  (L : PriorBoxLayer) (layerWidth layerHeight imageWidth imageHeight : Z)
  (st st' : buffer) :
  fill_boxes L layerWidth layerHeight imageWidth imageHeight st = Done (tt, st') ->
  emit (all_boxes L layerWidth layerHeight imageWidth imageHeight) st
    = Done (tt, st') /\
  idx st' =
    (idx st + 4 * (Z.to_nat layerHeight * Z.to_nat layerWidth *
                   actualPriorsPerCell L))%nat.
Proof.
  intros Hrun. apply writes_fill_boxes in Hrun. destruct Hrun as [_ Hemit].
  split; [exact Hemit|].
  apply emit_done in Hemit. destruct Hemit as [-> _].
  rewrite all_boxes_length. unfold cells. lia.
Qed.

Lemma boxes_stored_witness :
  let L := snd (init scenario_A) in
  exists st',
    fill_boxes L 2 2 300 300 (fresh L 2 2 (fun _ => F32.zero)) = Done (tt, st') /\
    idx st' = 48%nat.
Proof.
  intros L. eexists. split; [vm_compute; reflexivity|].
  exact (proj2 (@boxes_stored_when_done L 2 2 300 300
                  (fresh L 2 2 (fun _ => F32.zero)) _
                  ltac:(vm_compute; reflexivity))).
Defined.

(** With room in the buffer, a layer that passes [CHECK_EQ] and sizes
    whose square roots convert, the loop over the cells does end well. *)
Theorem boxes_stored_when_room
  (L : PriorBoxLayer) (layerWidth layerHeight imageWidth imageHeight : Z)
  (st : buffer) :
  check_passes L -> sizes_convert L ->
  (idx st + 4 * (Z.to_nat layerHeight * Z.to_nat layerWidth *
                 actualPriorsPerCell L) <= length (tmpPtr st))%nat ->
  fill_boxes L layerWidth layerHeight imageWidth imageHeight st =
  Done (tt, {| tmpPtr := splice (idx st)
                           (all_boxes L layerWidth layerHeight imageWidth
                              imageHeight) (tmpPtr st);
               idx := idx st + 4 * (Z.to_nat layerHeight * Z.to_nat layerWidth *
                                    actualPriorsPerCell L) |}).
Proof.
  intros Hck Hconv Hroom.
  rewrite fill_boxes_emit, emit_run by (assumption || lia).
  rewrite all_boxes_length. unfold cells.
  replace (Z.to_nat layerHeight * Z.to_nat layerWidth *
           (4 * actualPriorsPerCell L))%nat
    with (4 * (Z.to_nat layerHeight * Z.to_nat layerWidth *
               actualPriorsPerCell L))%nat by lia.
  destruct (Nat.leb_spec
              (idx st + 4 * (Z.to_nat layerHeight * Z.to_nat layerWidth *
                             actualPriorsPerCell L)) (length (tmpPtr st)));
    [reflexivity | lia].
Qed.

Lemma boxes_stored_when_room_witness :
  let L := snd (init scenario_B) in
  let st := fresh L 1 1 (fun _ => F32.zero) in
  fill_boxes L 1 1 100 100 st =
  Done (tt, {| tmpPtr := splice 0 (all_boxes L 1 1 100 100) (tmpPtr st);
               idx := 8 |}).
Proof.
  intros L st.
  refine (@boxes_stored_when_room L 1 1 100 100 st _ _ _).
  - right; right; reflexivity.
  - intros m M [<-|[]] [<-|[]]. split; [reflexivity | discriminate].
  - vm_compute. lia.
Defined.

Lemma variance_block_repeat L W H :
  length (variance_ L) = 4%nat ->
  variance_block L W H =
  concat (repeat (variance_ L) (cells W H * Z.to_nat (numPriors_ L))).
Proof.
  intros Hlen. unfold variance_block.
  now rewrite firstn_all2 by lia.
Qed.

(** When the cells get as many priors as [numPriors_] declares, the
    output is exactly the clipped boxes followed by the variance block:
    its length is [2 * height * width * actualPriorsPerCell * 4], its second
    half is [height * width * actualPriorsPerCell] copies of the variance,
    and nothing of the previous contents of the buffer is left. *)
Theorem output_when_counts_agree
  (L : PriorBoxLayer) (layerWidth layerHeight imageWidth imageHeight : Z)
  (uninit : nat -> float) :
  check_passes L -> sizes_convert L -> length (variance_ L) = 4%nat ->
  0 <= layerWidth -> 0 <= layerHeight ->
  numPriors_ L = Z.of_nat (actualPriorsPerCell L) ->
  dim_fits L layerWidth layerHeight = true ->
  let boxes := all_boxes L layerWidth layerHeight imageWidth imageHeight in
  let copies :=
    (Z.to_nat layerHeight * Z.to_nat layerWidth * actualPriorsPerCell L)%nat in
  forward L layerWidth layerHeight imageWidth imageHeight uninit =
    Done (map (clip) boxes ++ concat (repeat (variance_ L) copies)) /\
  length boxes = (4 * copies)%nat /\
  length (map (clip) boxes ++ concat (repeat (variance_ L) copies)) =
    (2 * Z.to_nat layerHeight * Z.to_nat layerWidth * actualPriorsPerCell L * 4)%nat.
Proof.
  intros Hck Hconv Hvar HW HH Hn Hfit boxes copies.
  assert (Hb : length boxes = (4 * copies)%nat).
  { unfold boxes, copies. rewrite all_boxes_length. unfold cells. lia. }
  assert (Hcopies : (cells layerWidth layerHeight * Z.to_nat (numPriors_ L))%nat
                    = copies).
  { unfold copies, cells. rewrite Hn, Nat2Z.id. reflexivity. }
  assert (Hvs : length (concat (repeat (variance_ L) copies)) = (4 * copies)%nat).
  { clear - Hvar. induction copies as [|n IH]; [reflexivity|].
    cbn [repeat concat]. rewrite length_app, IH, Hvar. lia. }
  assert (Hdim : Z.to_nat (dim L layerWidth layerHeight) = (4 * copies)%nat).
  { unfold dim, copies. rewrite Hn. nia. }
  assert (Hsize : Z.to_nat (dim L layerWidth layerHeight * 2) = (8 * copies)%nat)
    by lia.
  split; [|split; [exact Hb | rewrite length_app, length_map, Hb, Hvs; unfold copies; lia]].
  rewrite forward_run by (assumption || lia). cbv zeta. rewrite Hfit.
  rewrite (variance_block_repeat L layerWidth layerHeight Hvar), Hcopies.
  fold boxes. rewrite Hb, Hvs, Hsize.
  destruct (Nat.leb_spec (4 * copies + 4 * copies) (8 * copies)); [|lia].
  f_equal. unfold splice at 1. rewrite Hvs.
  set (b1 := splice 0 boxes (map uninit (seq 0 (8 * copies)))).
  assert (Hb1 : length b1 = (8 * copies)%nat).
  { unfold b1. rewrite splice_length; rewrite length_map, length_seq; lia. }
  rewrite skipn_all2 by (rewrite clipped_length, Hb1; lia).
  rewrite app_nil_r. f_equal.
  unfold clipped. rewrite Hdim.
  rewrite firstn_app, firstn_all2
    by (rewrite length_map, length_firstn, Hb1; lia).
  rewrite length_map, length_firstn, Hb1.
  replace (4 * copies - Nat.min (4 * copies) (8 * copies))%nat with 0%nat by lia.
  cbn [firstn]. rewrite app_nil_r. f_equal.
  unfold b1, splice. cbn [firstn app Nat.add].
  rewrite <- Hb. now rewrite firstn_app, firstn_all, Nat.sub_diag, firstn_0, app_nil_r.
Qed.

Lemma output_when_counts_agree_witness :
  let L := snd (init scenario_A) in
  forward L 2 2 300 300 (fun _ => F32.zero) =
  Done (map clip (all_boxes L 2 2 300 300) ++
        concat (repeat (variance_ L) 12)).
Proof.
  intros L.
  refine (proj1 (@output_when_counts_agree L 2 2 300 300 (fun _ => F32.zero)
                   _ _ _ _ _ _ _)).
  - right; left; reflexivity.
  - intros m M _ [].
  - reflexivity.
  - lia.
  - lia.
  - reflexivity.
  - reflexivity.
Defined.



Lemma filter_none A (f : A -> bool) l :
  (forall x, In x l -> f x = false) -> filter f l = [].
Proof.
  induction l as [|x l IH]; intros Hf; [reflexivity|].
  cbn [filter]. rewrite (Hf x (or_introl eq_refl)).
  apply IH. intros y Hy. apply Hf. now right.
Qed.

Lemma init_aspect_ratios pbConf :
  aspectRatio_ (snd (init pbConf)) =
    aspect_ratio pbConf ++ map recip (aspect_ratio pbConf) ++ [F32.one] /\
  length (aspectRatio_ (snd (init pbConf))) =
    (2 * length (aspect_ratio pbConf) + 1)%nat.
Proof.
  assert (Hd : aspectRatio_ (snd (init pbConf)) =
               aspect_ratio pbConf ++ map recip (aspect_ratio pbConf) ++
               [F32.one]).
  { unfold init. cbn [snd aspectRatio_]. rewrite flip_spec, <- app_assoc.
    reflexivity. }
  split; [exact Hd|]. rewrite Hd, !length_app, length_map. cbn [length]. lia.
Qed.

(** The two counts agree for one minimum size, at most one maximum size
    and raw ratios none of which, nor its reciprocal, is within [1e-6] of
    1: the usual configuration of a layer. *)
Theorem counts_agree_for_one_min_size (pbConf : PriorBoxConfig) :
  length (min_size pbConf) = 1%nat ->
  (length (max_size pbConf) <= 1)%nat ->
  (forall r, In r (aspect_ratio pbConf) ->
     near_one r = false /\ near_one (recip r) = false) ->
  numPriors_ (snd (init pbConf)) =
  Z.of_nat (actualPriorsPerCell (snd (init pbConf))).
Proof.
  intros Hmin Hmax Hraw.
  rewrite nominal_prior_count.
  unfold actualPriorsPerCell, countOfUnityRatios.
  change (minSize_ (snd (init pbConf))) with (min_size pbConf).
  change (maxSize_ (snd (init pbConf))) with (max_size pbConf).
  destruct (init_aspect_ratios pbConf) as [Hd Hlen].
  rewrite Hd, Hmin.
  assert (Hf : filter near_one
                 (aspect_ratio pbConf ++ map recip (aspect_ratio pbConf) ++
                  [F32.one]) = [F32.one]).
  { rewrite !filter_app.
    rewrite (filter_none near_one (aspect_ratio pbConf))
      by (intros r Hr; apply Hraw; exact Hr).
    rewrite (filter_none near_one (map recip (aspect_ratio pbConf))).
    - reflexivity.
    - intros r' Hr'. apply in_map_iff in Hr'. destruct Hr' as (r & <- & Hr).
      apply Hraw; exact Hr. }
  rewrite Hf, !length_app, length_map. cbn [length].
  destruct (max_size pbConf) as [|M [|M' Ms]]; cbn [length Nat.ltb Nat.leb] in *;
    lia.
Qed.

Unset Implicit Arguments.

(** ** The numbers of [forward] are numbers *)

Lemma binary_round_finite prec emax s p e B :
  0 < prec -> 2 <= emax ->
  Zpos (digits2_pos p) + e <= B -> SpecFloat.emin prec emax <= B -> B < emax ->
  SpecFloat.emin prec emax + prec <= Zpos (digits2_pos p) + e ->
  exists m' e',
    binary_round prec emax s p e = S754_finite s m' e' /\
    Zpos (digits2_pos p) + e <= Zpos (digits2_pos m') + e' <= B + 1 /\
    e' <= SpecFloat.fexp prec emax (B + 1).
Proof.
  intros Hprec Hemax Hmag HBlo HBhi Hnorm.
  pose proof (binary_round_bnd prec emax Hprec Hemax s p e B Hmag HBlo HBhi) as Hb.
  pose proof (binary_round_lb prec emax Hprec s p e Hnorm) as Hl.
  pose proof (binary_round_signed prec emax s p e) as Hs.
  destruct (binary_round prec emax s p e) as [s'|s'| |s' m' e'];
    cbn [bnd signed] in Hb, Hl, Hs; try contradiction.
  subst s'. exists m', e'. split; [reflexivity|]. lia.
Qed.

Lemma int_digits z : positive_int z -> 1 <= Zdigits2 z <= 31.
Proof.
  intros [Hlo Hhi]. split.
  - pose proof (Zdigits2_pos z Hlo). lia.
  - apply Zdigits2_le; lia.
Qed.

Lemma F32_of_int_pos z :
  positive_int z ->
  exists m e, F32.of_int z = S754_finite false m e /\
              1 <= Zpos (digits2_pos m) + e <= 32.
Proof.
  intros Hz. pose proof (int_digits z Hz) as Hd.
  destruct z as [|p|p]; try (destruct Hz; lia).
  simpl Zdigits2 in Hd.
  destruct (binary_round_finite 24 128 false p 0 31) as (m & e & Heq & Hm & _);
    try (unfold SpecFloat.emin; lia).
  exists m, e. split; [exact Heq | lia].
Qed.

Lemma F64_of_int_pos z :
  positive_int z -> exists m e, F64.of_int z = S754_finite false m e.
Proof.
  intros Hz. pose proof (int_digits z Hz) as Hd.
  destruct z as [|p|p]; try (destruct Hz; lia).
  simpl Zdigits2 in Hd.
  destruct (binary_round_finite 53 1024 false p 0 31) as (m & e & Heq & _);
    try (unfold SpecFloat.emin; lia).
  exists m, e. exact Heq.
Qed.

Lemma F64_of_int_bnd z :
  0 <= z < 2 ^ 31 -> bnd 53 1024 32 (F64.of_int z) /\ nonneg (F64.of_int z).
Proof.
  intros Hz. split; [|apply nonneg_normalize; lia].
  apply (normalize_bnd 53 1024 ltac:(lia) ltac:(lia) z 0 false 31);
    try (unfold SpecFloat.emin; lia).
  assert (Zdigits2 z <= 31) by (apply Zdigits2_le; lia). lia.
Qed.

(** [stepW] and [stepH] are finite. *)
Lemma step_bnd image layer :
  positive_int image -> positive_int layer ->
  bnd 24 128 33 (F32.div (F32.of_int image) (F32.of_int layer)).
Proof.
  intros Hi Hl.
  destruct (F32_of_int_pos image Hi) as (mi & ei & -> & Hmi).
  destruct (F32_of_int_pos layer Hl) as (ml & el & -> & Hml).
  apply (SFdiv_bnd 24 128 ltac:(lia) ltac:(lia) false mi ei false ml el 32 1 32);
    try (unfold SpecFloat.emin; lia).
Qed.

Lemma F64_of_float_bnd x B :
  bnd 24 128 B x -> -1074 <= B -> B < 1024 -> bnd 53 1024 (B + 1) (F64.of_float x).
Proof.
  intros Hx HBlo HBhi. destruct x as [s|s| |s m e]; cbn [bnd] in Hx;
    try contradiction; [exact I|].
  apply (binary_round_bnd 53 1024 ltac:(lia) ltac:(lia));
    try (unfold SpecFloat.emin; lia).
Qed.

Lemma F32_of_double_bnd x B :
  bnd 53 1024 B x -> -149 <= B -> B < 128 -> bnd 24 128 (B + 1) (F32.of_double x).
Proof.
  intros Hx HBlo HBhi. destruct x as [s|s| |s m e]; cbn [bnd] in Hx;
    try contradiction; [exact I|].
  apply (binary_round_bnd 24 128 ltac:(lia) ltac:(lia));
    try (unfold SpecFloat.emin; lia).
Qed.

(** The centre of a cell is finite. *)
Lemma center_bnd w image layer :
  0 <= w < 2 ^ 31 -> positive_int image -> positive_int layer ->
  bnd 24 128 70 (center w (F32.div (F32.of_int image) (F32.of_int layer))).
Proof.
  intros Hw Hi Hl. unfold center.
  apply (F32_of_double_bnd _ 69); try lia.
  apply (SFmul_bnd 53 1024 ltac:(lia) ltac:(lia) _ _ 34 34 68);
    try (unfold SpecFloat.emin; lia).
  - apply (SFadd_bnd 53 1024 ltac:(lia) ltac:(lia) _ _ 32 0 32);
      try (unfold SpecFloat.emin; lia).
    + apply F64_of_int_bnd; lia.
    + simpl. unfold SpecFloat.fexp, SpecFloat.emin. lia.
  - apply (F64_of_float_bnd _ 33); try lia. now apply step_bnd.
Qed.

Lemma signed_false_nonneg x : signed false x -> nonneg x.
Proof. destruct x; simpl; auto. Qed.

Lemma F64_div_number x s m e :
  number x -> number (F64.div x (S754_finite s m e)).
Proof.
  intros Hx. destruct x as [sx|sx| |sx mx ex]; try discriminate.
  - contradiction.
  - exact (signed_number _ _ (SFdiv_signed 53 1024 sx mx ex s m e)).
Qed.

Lemma F64_div_finite_number s m e y :
  signed false y -> number (F64.div (S754_finite s m e) y).
Proof.
  intros Hy. destruct y as [sy|sy| |sy my ey]; try discriminate.
  - contradiction.
  - exact (signed_number _ _ (SFdiv_signed 53 1024 s m e sy my ey)).
Qed.

Lemma F64_mul_finite_number s m e y :
  signed false y -> number (F64.mul (S754_finite s m e) y).
Proof.
  intros Hy. destruct y as [sy|sy| |sy my ey]; try discriminate.
  - contradiction.
  - cbn [F64.mul SFmul].
    apply (signed_number (xorb s sy)). apply round_aux_signed. lia.
Qed.

Lemma F64_sub_number x y B :
  bnd 53 1024 B x -> number y -> number (F64.sub x y).
Proof.
  intros Hx Hy.
  destruct x as [sx|sx| |sx mx ex]; cbn [bnd] in Hx; try contradiction;
    destruct y as [sy|sy| |sy my ey]; try contradiction; try discriminate.
  - destruct sx, sy; discriminate.
  - apply normalize_number.
Qed.

Lemma F64_add_number x y B :
  bnd 53 1024 B x -> number y -> number (F64.add x y).
Proof.
  intros Hx Hy.
  destruct x as [sx|sx| |sx mx ex]; cbn [bnd] in Hx; try contradiction;
    destruct y as [sy|sy| |sy my ey]; try contradiction; try discriminate.
  - destruct sx, sy; discriminate.
  - apply normalize_number.
Qed.

Lemma F32_of_double_number x : number x -> number (F32.of_double x).
Proof.
  destruct x as [s|s| |s m e]; auto. intros _.
  exact (signed_number _ _ (binary_round_signed 24 128 s m e)).
Qed.

Lemma F64_of_float_number x : number x -> number (F64.of_float x).
Proof.
  destruct x as [s|s| |s m e]; auto. intros _.
  exact (signed_number _ _ (binary_round_signed 53 1024 s m e)).
Qed.

Lemma F64_of_float_signed x : signed false x -> signed false (F64.of_float x).
Proof.
  destruct x as [s|s| |s m e]; auto. simpl. intros ->.
  apply binary_round_signed.
Qed.

Lemma F64_sqrt_signed x : signed false x -> signed false (F64.sqrt x).
Proof.
  destruct x as [[]|[]| |[] m e]; cbn [signed]; try discriminate;
    try contradiction; intros _; try reflexivity.
  apply SFsqrt_signed.
Qed.

(** A coordinate is a number when the centre is finite, the side a
    number and the image dimension a positive [int]. *)
Lemma lo_number c box image :
  bnd 24 128 70 c -> number box -> positive_int image ->
  number (lo c box image).
Proof.
  intros Hc Hbox Himg. unfold lo.
  destruct (F64_of_int_pos image Himg) as (m & e & ->).
  apply F32_of_double_number, F64_div_number.
  apply (F64_sub_number _ _ 71).
  - apply (F64_of_float_bnd _ 70); [exact Hc | lia | lia].
  - now apply (F64_div_number box false 4503599627370496 (-51)).
Qed.

Lemma hi_number c box image :
  bnd 24 128 70 c -> number box -> positive_int image ->
  number (hi c box image).
Proof.
  intros Hc Hbox Himg. unfold hi.
  destruct (F64_of_int_pos image Himg) as (m & e & ->).
  apply F32_of_double_number, F64_div_number.
  apply (F64_add_number _ _ 71).
  - apply (F64_of_float_bnd _ 70); [exact Hc | lia | lia].
  - now apply (F64_div_number box false 4503599627370496 (-51)).
Qed.

Lemma box_number iw ih cx cy bw bh :
  bnd 24 128 70 cx -> bnd 24 128 70 cy -> number bw -> number bh ->
  positive_int iw -> positive_int ih ->
  Forall number (box iw ih cx cy bw bh).
Proof.
  intros Hcx Hcy Hbw Hbh Hiw Hih. unfold box.
  repeat constructor;
    (apply lo_number || apply hi_number); assumption.
Qed.

Lemma ratio_sides_number m ar :
  positive_int m -> signed false ar ->
  number (F64.of_float (ratio_width m ar)) /\
  number (F64.of_float (ratio_height m ar)).
Proof.
  intros Hm Har. unfold ratio_width, ratio_height.
  destruct (F64_of_int_pos m Hm) as (mm & me & ->).
  assert (Hroot : signed false (F64.sqrt (F64.of_float ar)))
    by now apply F64_sqrt_signed, F64_of_float_signed.
  split; apply F64_of_float_number, F32_of_double_number.
  - now apply F64_mul_finite_number.
  - now apply F64_div_finite_number.
Qed.

Lemma derived_ratios_signed pbConf :
  Forall positive_float (aspect_ratio pbConf) ->
  Forall (signed false) (aspectRatio_ (snd (init pbConf))).
Proof.
  intros Hraw. rewrite (proj1 (init_aspect_ratios pbConf)).
  rewrite !Forall_app. repeat split.
  - eapply Forall_impl; [|exact Hraw].
    intros [s|s| |[] m e]; simpl; auto; contradiction.
  - rewrite Forall_map. eapply Forall_impl; [|exact Hraw].
    intros [s|s| |[] m e]; simpl; try contradiction. intros _.
    unfold recip. change (F32.of_int 1) with (S754_finite false 8388608 (-23)).
    exact (SFdiv_signed 24 128 false 8388608 (-23) false m e).
  - repeat constructor.
Qed.

Lemma Forall_flat_map A B (P : B -> Prop) (f : A -> list B) l :
  (forall x, In x l -> Forall P (f x)) -> Forall P (flat_map f l).
Proof.
  induction l as [|x l IH]; intros Hf; simpl; [constructor|].
  apply Forall_app. split; [apply Hf; now left|].
  apply IH. intros y Hy. apply Hf. now right.
Qed.

Lemma last_In (l : list Z) d : l <> [] -> In (last l d) l.
Proof.
  induction l as [|x l IH]; [congruence|]. intros _.
  destruct l as [|y l]; [now left|]. right. apply IH. discriminate.
Qed.

(** Every coordinate the cells get is a number, for a valid
    configuration and valid dimensions. *)
Lemma all_boxes_number pbConf W H iw ih :
  valid_configuration pbConf -> valid_dimensions W H iw ih ->
  Forall number (all_boxes (snd (init pbConf)) W H iw ih).
Proof.
  intros (Hne & Hmin & Hmax & Hlen & Hraw & Hvar) (HW & HH & Hiw & Hih).
  set (L := snd (init pbConf)).
  unfold all_boxes. apply Forall_flat_map. intros h Hh.
  apply Forall_flat_map. intros w Hw.
  apply range_In in Hh. apply range_In in Hw.
  assert (Hcx : bnd 24 128 70 (center w (stepW W iw))).
  { apply center_bnd; [destruct HW; lia | exact Hiw | exact HW]. }
  assert (Hcy : bnd 24 128 70 (center h (stepH H ih))).
  { apply center_bnd; [destruct HH; lia | exact Hih | exact HH]. }
  unfold cell_boxes. apply Forall_app. split.
  - apply Forall_flat_map. intros m Hm. unfold size_boxes.
    apply Forall_app. split.
    + apply box_number; auto; apply normalize_number.
    + apply Forall_flat_map. intros M HM.
      apply box_number; auto; apply normalize_number.
  - apply Forall_flat_map. intros ar Har. unfold ratio_boxes.
    destruct (near_one ar); [constructor|].
    assert (Hm : positive_int (last (minSize_ L) 0)).
    { rewrite Forall_forall in Hmin. apply Hmin.
      now apply last_In. }
    assert (Hs : signed false ar).
    { pose proof (derived_ratios_signed pbConf Hraw) as Hd.
      rewrite Forall_forall in Hd. now apply Hd. }
    destruct (ratio_sides_number _ _ Hm Hs) as [Hbw Hbh].
    now apply box_number.
Qed.

(** ** Valid configurations *)

(** The truncation of a non-negative value below [2^K] lies below
    [2^K]. *)
Lemma truncation_bound q e K :
  0 <= K -> Zpos (digits2_pos q) + e <= K ->
  0 <= match e with
       | Zneg p => Z.shiftr (Zpos q) (Zpos p)
       | _ => Z.shiftl (Zpos q) e
       end < 2 ^ K.
Proof.
  intros HK Hmag. pose proof (digits_bounds q) as [_ Hq].
  set (d := Zpos (digits2_pos q)) in *.
  assert (Hd : 0 < d) by (unfold d; lia).
  destruct e as [|p|p].
  - rewrite Z.shiftl_0_r. split; [lia|].
    apply Z.lt_le_trans with (2 ^ d); [exact Hq|].
    apply Z.pow_le_mono_r; lia.
  - rewrite Z.shiftl_mul_pow2 by lia.
    assert (Hp : 0 < 2 ^ Zpos p) by (apply Z.pow_pos_nonneg; lia).
    split; [nia|].
    apply Z.lt_le_trans with (2 ^ (d + Zpos p)).
    + rewrite Z.pow_add_r by lia. nia.
    + apply Z.pow_le_mono_r; lia.
  - rewrite Z.shiftr_div_pow2 by lia.
    assert (Hp : 0 < 2 ^ Zpos p) by (apply Z.pow_pos_nonneg; lia).
    split; [apply Z.div_pos; lia|].
    destruct (Z_le_gt_dec (Zpos p) d) as [Hle|Hgt].
    + apply Z.lt_le_trans with (2 ^ (d - Zpos p)).
      * apply Z.div_lt_upper_bound; [exact Hp|].
        rewrite <- Z.pow_add_r by lia.
        now replace (Zpos p + (d - Zpos p)) with d by lia.
      * apply Z.pow_le_mono_r; lia.
    + rewrite Z.div_small.
      * apply Z.pow_pos_nonneg; lia.
      * split; [lia|]. apply Z.lt_le_trans with (2 ^ d); [exact Hq|].
        apply Z.pow_le_mono_r; lia.
Qed.

(** The square root of a product of positive sizes that fits an [int]
    converts to [int]. *)
Lemma sqrt_converts m M :
  positive_int m -> positive_int M -> fits (m * M) = true -> converts m M.
Proof.
  intros [Hm1 Hm2] [HM1 HM2] Hfits. split; [exact Hfits|].
  unfold fits in Hfits. apply andb_prop in Hfits. destruct Hfits as [_ Hhi].
  apply Z.ltb_lt in Hhi.
  assert (Hz : 0 < m * M) by nia.
  destruct (m * M) as [|p|p] eqn:Ep; try lia.
  assert (Hd : Zpos (digits2_pos p) <= 31).
  { apply (Zdigits2_le (Zpos p) 31); lia. }
  destruct (binary_round_finite 53 1024 false p 0 31)
    as (m' & e' & Heq & Hmag & _); try (unfold SpecFloat.emin; lia).
  change (F64.of_int (Zpos p)) with (binary_round 53 1024 false p 0).
  rewrite Heq.
  assert (Hb : bnd 53 1024 (16 + 1) (SFsqrt 53 1024 (S754_finite false m' e'))).
  { apply (SFsqrt_bnd 53 1024 ltac:(lia) ltac:(lia) m' e' 32 16);
      try (unfold SpecFloat.emin; lia). reflexivity. }
  pose proof (SFsqrt_signed 53 1024 m' e') as Hs.
  change (F64.sqrt (S754_finite false m' e'))
    with (SFsqrt 53 1024 (S754_finite false m' e')).
  destruct (SFsqrt 53 1024 (S754_finite false m' e')) as [s|s| |s q eq];
    cbn [bnd signed] in Hb, Hs; try contradiction; try discriminate.
  subst s. destruct Hb as [Hb _].
  pose proof (truncation_bound q eq 17 ltac:(lia) Hb) as Ht.
  unfold F64.to_int. cbn [cond_Zopp].
  match goal with
  | |- (if fits ?z then _ else _) <> None =>
      assert (Hf : fits z = true)
  end.
  { unfold fits. apply andb_true_intro.
    split; [apply Z.leb_le | apply Z.ltb_lt]; lia. }
  rewrite Hf. discriminate.
Qed.

Lemma valid_sizes_convert pbConf :
  valid_configuration pbConf ->
  (forall m M, In m (min_size pbConf) -> In M (max_size pbConf) ->
     fits (m * M) = true) ->
  sizes_convert (snd (init pbConf)).
Proof.
  intros (_ & Hmin & Hmax & _) Hfits m M Hm HM.
  rewrite Forall_forall in Hmin, Hmax.
  apply sqrt_converts; [now apply Hmin | now apply Hmax | now apply Hfits].
Qed.

Lemma valid_check_passes pbConf :
  valid_configuration pbConf -> check_passes (snd (init pbConf)).
Proof.
  intros (_ & _ & _ & Hlen & _). right. unfold lengths_agree.
  change (maxSize_ (snd (init pbConf))) with (max_size pbConf).
  change (minSize_ (snd (init pbConf))) with (min_size pbConf).
  destruct Hlen as [H|H]; [now left | right; now symmetry].
Qed.

Lemma scenario_A_valid : valid_configuration scenario_A.
Proof.
  unfold valid_configuration, positive_int. cbn.
  split; [discriminate|]. split; [repeat constructor|].
  split; [constructor|]. split; [now left|].
  split; [repeat constructor | reflexivity].
Qed.



(** The usual configuration: one minimum size, at most one maximum
    size, positive ratios none of which nor its reciprocal is within
    [1e-6] of 1, and no [int] product that overflows.  The run ends well,
    with the clipped boxes followed by the variance block and nothing
    else; every coordinate lies in [[0, 1]]. *)
Theorem usual_configuration_output
  (pbConf : PriorBoxConfig) (layerWidth layerHeight imageWidth imageHeight : Z)
  (uninit : nat -> float) :
  valid_configuration pbConf ->
  valid_dimensions layerWidth layerHeight imageWidth imageHeight ->
  length (min_size pbConf) = 1%nat ->
  (forall r, In r (aspect_ratio pbConf) ->
     near_one r = false /\ near_one (recip r) = false) ->
  (forall m M, In m (min_size pbConf) -> In M (max_size pbConf) ->
     fits (m * M) = true) ->
  dim_fits (snd (init pbConf)) layerWidth layerHeight = true ->
  let L := snd (init pbConf) in
  let boxes := all_boxes L layerWidth layerHeight imageWidth imageHeight in
  let copies :=
    (Z.to_nat layerHeight * Z.to_nat layerWidth * actualPriorsPerCell L)%nat in
  forward L layerWidth layerHeight imageWidth imageHeight uninit =
    Done (map clip boxes ++ concat (repeat (variance pbConf) copies)) /\
  length boxes = (4 * copies)%nat /\
  Forall in_unit (map clip boxes).
Proof.
  intros Hconf Hdims Hone Hraw Hprod Hfit L boxes copies.
  pose proof Hconf as (Hne & Hmin & Hmax & Hlen & Hratio & Hvar).
  pose proof Hdims as (HW & HH & Hiw & Hih).
  assert (Hmax1 : (length (max_size pbConf) <= 1)%nat).
  { destruct Hlen as [E|E]; rewrite E; [simpl; lia | lia]. }
  pose proof (@counts_agree_for_one_min_size pbConf Hone Hmax1 Hraw) as Hn.
  destruct (@output_when_counts_agree L layerWidth layerHeight imageWidth
              imageHeight uninit (valid_check_passes pbConf Hconf)
              (valid_sizes_convert pbConf Hconf Hprod) Hvar
              ltac:(destruct HW; lia) ltac:(destruct HH; lia) Hn Hfit)
    as (Hrun & Hb & _).
  split; [exact Hrun|]. split; [exact Hb|].
  apply Forall_map.
  pose proof (all_boxes_number pbConf _ _ _ _ Hconf Hdims) as Hall.
  eapply Forall_impl; [|exact Hall].
  intros v Hv. now apply clip_in_unit.
Qed.

Lemma usual_configuration_output_witness :
  let L := snd (init scenario_A) in
  forward L 2 2 300 300 (fun _ => F32.zero) =
    Done (map clip (all_boxes L 2 2 300 300) ++
          concat (repeat (variance scenario_A) 12)) /\
  Forall in_unit (map clip (all_boxes L 2 2 300 300)).
Proof.
  intros L.
  destruct (usual_configuration_output scenario_A 2 2 300 300
              (fun _ => F32.zero) scenario_A_valid
              ltac:(unfold valid_dimensions, positive_int; lia)
              eq_refl
              ltac:(intros r [<-|[]]; vm_compute; split; reflexivity)
              ltac:(intros m M _ [])
              eq_refl)
    as (Hrun & _ & Hunit).
  split; [exact Hrun | exact Hunit].
Defined.



(** ** What a run that ends well went through *)

Lemma bind_done A B (c : Run A) (k : A -> Run B) st r :
  bind c k st = Done r ->
  exists a st', c st = Done (a, st') /\ k a st' = Done r.
Proof.
  unfold bind. destruct (c st) as [[a st']| |]; try discriminate. eauto.
Qed.

Lemma for_each_done A (l : list A) (body : A -> Run unit) st r :
  for_each l body st = Done r ->
  forall x, In x l -> exists s r', body x s = Done r'.
Proof.
  revert st. induction l as [|y l IH]; intros st Hrun x Hx; [destruct Hx|].
  cbn [for_each] in Hrun. apply bind_done in Hrun.
  destruct Hrun as (a & st' & Hy & Hrest).
  destruct Hx as [<-|Hx]; [eauto | eapply IH; eauto].
Qed.

Lemma second_size_done m M st r :
  second_size m M st = Done r -> converts m M.
Proof.
  unfold second_size, bind, int_, converts.
  destruct (fits (m * M)); [|discriminate]. unfold ret at 1.
  destruct (F64.to_int _); [|discriminate].
  intros _. split; [reflexivity | discriminate].
Qed.

Lemma size_step_done L iw ih cx cy m st r :
  size_step L iw ih cx cy m st = Done r ->
  lengths_agree L /\ forall M, In M (maxSize_ L) -> converts m M.
Proof.
  unfold size_step. intros Hrun.
  apply bind_done in Hrun. destruct Hrun as ([] & st1 & _ & Hrun).
  apply bind_done in Hrun. destruct Hrun as ([] & st2 & Hmax & _).
  unfold lengths_agree.
  destruct (Nat.ltb_spec 0 (length (maxSize_ L))) as [Hpos|Hzero].
  - apply bind_done in Hmax. destruct Hmax as ([] & st3 & Hck & Hloop).
    unfold CHECK_EQ in Hck.
    destruct (Nat.eqb_spec (length (minSize_ L)) (length (maxSize_ L)))
      as [Heq|Hne]; [|discriminate].
    split; [right; exact Heq|].
    intros M HM.
    destruct (for_each_done _ _ _ _ _ Hloop M HM) as (s & r' & Hb).
    apply bind_done in Hb. destruct Hb as (z & s' & Hs & _).
    exact (second_size_done _ _ _ _ Hs).
  - destruct (maxSize_ L); [|simpl in Hzero; lia].
    split; [now left | intros M []].
Qed.

Lemma size_loop_done L iw ih cx cy sizes m0 st r :
  size_loop L iw ih cx cy sizes m0 st = Done r ->
  forall m, In m sizes ->
    lengths_agree L /\ forall M, In M (maxSize_ L) -> converts m M.
Proof.
  revert m0 st. induction sizes as [|s sizes IH]; intros m0 st Hrun m Hm;
    [destruct Hm|].
  cbn [size_loop] in Hrun. apply bind_done in Hrun.
  destruct Hrun as (a & st' & Hstep & Hrest).
  destruct Hm as [<-|Hm]; [exact (size_step_done _ _ _ _ _ _ _ _ Hstep)|].
  exact (IH _ _ Hrest m Hm).
Qed.

Lemma range_has_zero n : 0 < n -> In 0 (range n).
Proof. intros Hn. destruct (range_pos Hn) as [r ->]. now left. Qed.

(** On a grid that has a cell, the loop over the cells only ends well
    for a layer that passes [CHECK_EQ] and whose sizes convert. *)
Lemma fill_boxes_done L W H iw ih st r :
  fill_boxes L W H iw ih st = Done r -> 0 < W -> 0 < H ->
  check_passes L /\ sizes_convert L.
Proof.
  intros Hrun HW HH. unfold fill_boxes in Hrun.
  destruct (for_each_done _ _ _ _ _ Hrun 0 (range_has_zero H HH))
    as (s & r' & Hrow).
  destruct (for_each_done _ _ _ _ _ Hrow 0 (range_has_zero W HW))
    as (s' & r'' & Hcell).
  unfold cell in Hcell. apply bind_done in Hcell.
  destruct Hcell as (m & s'' & Hloop & _).
  pose proof (size_loop_done _ _ _ _ _ _ _ _ _ Hloop) as Hall.
  unfold check_passes, sizes_convert.
  destruct (minSize_ L) as [|m0 ms] eqn:Emin.
  - split; [now left | intros ? ? []].
  - split.
    + right. exact (proj1 (Hall m0 (or_introl eq_refl))).
    + intros m' M Hm' HM. exact (proj2 (Hall m' Hm') M HM).
Qed.

(** The variance loop only ends well, when it has a turn to make, for a
    variance of four values or more. *)
Lemma fill_variance_done L W H st r :
  fill_variance L W H st = Done r ->
  0 < W -> 0 < H -> 0 < numPriors_ L ->
  (4 <= length (variance_ L))%nat.
Proof.
  intros Hrun HW HH Hn. unfold fill_variance in Hrun.
  destruct (for_each_done _ _ _ _ _ Hrun 0 (range_has_zero H HH))
    as (s1 & r1 & H1).
  destruct (for_each_done _ _ _ _ _ H1 0 (range_has_zero W HW))
    as (s2 & r2 & H2).
  destruct (for_each_done _ _ _ _ _ H2 0 (range_has_zero _ Hn))
    as (s3 & r3 & H3).
  destruct (for_each_done _ _ _ _ _ H3 3%nat) as (s4 & r4 & H4).
  { cbn. auto. }
  apply bind_done in H4. destruct H4 as (v & s5 & Hat & _).
  unfold at_ in Hat.
  destruct (nth_error (variance_ L) 3) as [v'|] eqn:E; [|discriminate].
  assert (Hlt : (3 < length (variance_ L))%nat).
  { apply nth_error_Some. congruence. }
  lia.
Qed.

Lemma forward_done_parts L W H iw ih uninit out :
  forward L W H iw ih uninit = Done out ->
  dim_fits L W H = true /\
  exists st1 st2 st3,
    fill_boxes L W H iw ih (fresh L W H uninit) = Done (tt, st1) /\
    clip_all L W H st1 = Done (tt, st2) /\
    fill_variance L W H st2 = Done (tt, st3).
Proof.
  unfold forward. destruct (dim_fits L W H); [|discriminate].
  destruct ((fill_boxes L W H iw ih ;; clip_all L W H ;; fill_variance L W H)
              (fresh L W H uninit)) as [[[] st3]| |] eqn:E; try discriminate.
  intros _. split; [reflexivity|].
  apply bind_done in E. destruct E as ([] & st1 & E1 & E).
  apply bind_done in E. destruct E as ([] & st2 & E2 & E3).
  eauto 6.
Qed.

(** What a run needs to end well on a grid that has a cell. *)
Lemma forward_done_needs L W H iw ih uninit out :
  forward L W H iw ih uninit = Done out ->
  0 < W -> 0 < H -> 0 < numPriors_ L ->
  dim_fits L W H = true /\ check_passes L /\ sizes_convert L /\
  (4 <= length (variance_ L))%nat.
Proof.
  intros Hrun HW HH Hn.
  destruct (forward_done_parts _ _ _ _ _ _ _ Hrun)
    as (Hfit & st1 & st2 & st3 & E1 & E2 & E3).
  destruct (fill_boxes_done _ _ _ _ _ _ _ E1 HW HH) as [Hck Hconv].
  pose proof (fill_variance_done _ _ _ _ _ E3 HW HH Hn) as Hvar.
  auto.
Qed.

(** ** The cells of the output *)

Lemma splice_nth i vs l k d :
  (i + length vs <= length l)%nat ->
  nth k (splice i vs l) d =
  if (k <? i)%nat then nth k l d
  else if (k <? i + length vs)%nat then nth (k - i) vs d
  else nth k l d.
Proof.
  intros Hle. unfold splice.
  destruct (Nat.ltb_spec k i) as [Hk|Hk].
  - rewrite app_nth1 by (rewrite length_firstn; lia).
    rewrite nth_firstn. destruct (Nat.ltb_spec k i); [reflexivity | lia].
  - rewrite app_nth2 by (rewrite length_firstn; lia).
    rewrite length_firstn. replace (Nat.min i (length l)) with i by lia.
    destruct (Nat.ltb_spec k (i + length vs)) as [Hv|Hv].
    + now rewrite app_nth1 by lia.
    + rewrite app_nth2 by lia. rewrite nth_skipn. f_equal. lia.
Qed.

Lemma clipped_nth L W H l k d :
  (k < length l)%nat ->
  nth k (clipped L W H l) d =
  if (k <? Z.to_nat (dim L W H))%nat then clip (nth k l d) else nth k l d.
Proof.
  intros Hk. unfold clipped.
  destruct (Nat.ltb_spec k (Z.to_nat (dim L W H))) as [Hd|Hd].
  - rewrite app_nth1 by (rewrite length_map, length_firstn; lia).
    rewrite nth_indep with (d' := clip d)
      by (rewrite length_map, length_firstn; lia).
    rewrite map_nth, nth_firstn.
    destruct (Nat.ltb_spec k (Z.to_nat (dim L W H))); [reflexivity | lia].
  - rewrite app_nth2 by (rewrite length_map, length_firstn; lia).
    rewrite length_map, length_firstn, nth_skipn. f_equal. lia.
Qed.

Lemma uninit_nth (uninit : nat -> float) n k d :
  (k < n)%nat -> nth k (map uninit (seq 0 n)) d = uninit k.
Proof.
  intros Hk. rewrite nth_indep with (d' := uninit 0%nat)
    by (rewrite length_map, length_seq; exact Hk).
  now rewrite map_nth, seq_nth.
Qed.

Lemma forward_done_length L W H iw ih uninit out :
  forward L W H iw ih uninit = Done out ->
  length out = Z.to_nat (dim L W H * 2).
Proof.
  intros Hrun.
  destruct (forward_done_inv _ _ _ _ _ _ Hrun) as (vs & HV & HC & ->).
  rewrite splice_length; rewrite clipped_length, splice_length;
    rewrite ?length_map, ?length_seq; lia.
Qed.

(** The cells of the output, one by one: the clipped boxes, then the
    variance block, then what the memory held. *)
Lemma forward_done_cells L W H iw ih uninit out :
  forward L W H iw ih uninit = Done out -> 0 <= W -> 0 <= H ->
  let boxes := all_boxes L W H iw ih in
  let vars := variance_block L W H in
  (length boxes + length vars <= Z.to_nat (dim L W H * 2))%nat /\
  forall k d, (k < Z.to_nat (dim L W H * 2))%nat ->
    nth k out d =
    if (k <? length boxes)%nat then clip (nth k boxes d)
    else if (k <? length boxes + length vars)%nat
         then nth (k - length boxes) vars d
         else uninit k.
Proof.
  intros Hrun HW HH boxes vars.
  set (size := Z.to_nat (dim L W H * 2)).
  destruct (Z_lt_le_dec 0 W) as [HWp|HWz];
    [destruct (Z_lt_le_dec 0 H) as [HHp|HHz];
     [destruct (Z_lt_le_dec 0 (numPriors_ L)) as [Hn|Hn]|]|].
  - destruct (forward_done_needs _ _ _ _ _ _ _ Hrun HWp HHp Hn)
      as (Hfit & Hck & Hconv & Hvar).
    rewrite (forward_run W H iw ih uninit Hck Hconv Hvar) in Hrun.
    cbv zeta in Hrun. rewrite Hfit in Hrun.
    fold boxes vars size in Hrun.
    destruct (Nat.leb_spec (length boxes + length vars) size) as [Hroom|];
      [|discriminate].
    injection Hrun as <-. split; [exact Hroom|]. intros k d Hk.
    assert (Hv : length vars = Z.to_nat (dim L W H)).
    { unfold vars. rewrite (@variance_block_length L W H Hvar).
      unfold cells, dim. nia. }
    assert (Hsize : size = (2 * Z.to_nat (dim L W H))%nat)
      by (unfold size; lia).
    assert (Hbase : length (splice 0 boxes (map uninit (seq 0 size))) = size).
    { rewrite splice_length; rewrite length_map, length_seq; lia. }
    rewrite splice_nth by (rewrite clipped_length, Hbase; lia).
    destruct (Nat.ltb_spec k (length boxes)) as [Hb|Hb].
    + rewrite clipped_nth by (rewrite Hbase; lia).
      destruct (Nat.ltb_spec k (Z.to_nat (dim L W H))); [|lia].
      rewrite splice_nth by (rewrite length_map, length_seq; lia).
      destruct (Nat.ltb_spec k 0); [lia|]. rewrite Nat.add_0_l.
      destruct (Nat.ltb_spec k (length boxes)); [|lia].
      now rewrite Nat.sub_0_r.
    + destruct (Nat.ltb_spec k (length boxes + length vars)) as [Hvk|Hvk];
        [reflexivity|].
      rewrite clipped_nth by (rewrite Hbase; lia).
      destruct (Nat.ltb_spec k (Z.to_nat (dim L W H))); [lia|].
      rewrite splice_nth by (rewrite length_map, length_seq; lia).
      destruct (Nat.ltb_spec k 0); [lia|]. rewrite Nat.add_0_l.
      destruct (Nat.ltb_spec k (length boxes)); [lia|].
      now apply uninit_nth.
  - assert (Hz : size = 0%nat).
    { unfold size, dim. assert (0 < H * W) by nia.
      assert (H * W * numPriors_ L <= 0) by nia. lia. }
    pose proof (forward_done_inv _ _ _ _ _ _ Hrun) as (vs & HV & HC & _).
    fold boxes size in HV, HC.
    assert (Hvz : length vars = 0%nat).
    { unfold vars, variance_block.
      replace (Z.to_nat (numPriors_ L)) with 0%nat by lia.
      now rewrite Nat.mul_0_r. }
    split; [lia|]. intros k d Hk. lia.
  - assert (Hz : size = 0%nat).
    { unfold size, dim. replace (H * W) with 0 by nia. reflexivity. }
    pose proof (forward_done_inv _ _ _ _ _ _ Hrun) as (vs & HV & HC & _).
    fold boxes size in HV, HC.
    assert (Hvz : length vars = 0%nat).
    { unfold vars, variance_block, cells.
      replace (Z.to_nat H) with 0%nat by lia. reflexivity. }
    split; [lia|]. intros k d Hk. lia.
  - assert (Hz : size = 0%nat).
    { unfold size, dim. replace (H * W) with 0 by nia. reflexivity. }
    pose proof (forward_done_inv _ _ _ _ _ _ Hrun) as (vs & HV & HC & _).
    fold boxes size in HV, HC.
    assert (Hvz : length vars = 0%nat).
    { unfold vars, variance_block, cells.
      replace (Z.to_nat W) with 0%nat by lia. now rewrite Nat.mul_0_r. }
    split; [lia|]. intros k d Hk. lia.
Qed.

Lemma nth_flat_map_const A (f : A -> list float) n (l : list A) i k d a0 :
  (forall x, In x l -> length (f x) = n) ->
  (i < length l)%nat -> (k < n)%nat ->
  nth (i * n + k) (flat_map f l) d = nth k (f (nth i l a0)) d.
Proof.
  revert i. induction l as [|x l IH]; intros i Hf Hi Hk; [simpl in Hi; lia|].
  cbn [flat_map]. destruct i as [|i].
  - cbn [Nat.mul Nat.add nth].
    apply app_nth1. rewrite Hf by now left. exact Hk.
  - rewrite app_nth2 by (rewrite Hf by (now left); simpl; lia).
    rewrite Hf by now left.
    replace (S i * n + k - n)%nat with (i * n + k)%nat by (simpl; lia).
    cbn [nth]. apply IH; [|simpl in Hi; lia | exact Hk].
    intros y Hy. apply Hf. now right.
Qed.

Lemma nth_concat_repeat (vs : list float) N q j d :
  (q < N)%nat -> (j < length vs)%nat ->
  nth (q * length vs + j) (concat (repeat vs N)) d = nth j vs d.
Proof.
  revert q. induction N as [|N IH]; intros q Hq Hj; [lia|].
  cbn [repeat concat]. destruct q as [|q].
  - cbn [Nat.mul Nat.add]. now apply app_nth1.
  - rewrite app_nth2 by (simpl; lia).
    replace (S q * length vs + j - length vs)%nat
      with (q * length vs + j)%nat by (simpl; lia).
    apply IH; [lia | exact Hj].
Qed.

Lemma range_nth n i : (i < Z.to_nat n)%nat -> nth i (range n) 0 = Z.of_nat i.
Proof.
  intros Hi. unfold range.
  change 0 with (Z.of_nat 0). now rewrite map_nth, seq_nth.
Qed.

(** An empty grid gives an empty output and reaches no check. *)
Theorem empty_grid_gives_empty_output
  (L : PriorBoxLayer) (layerWidth layerHeight imageWidth imageHeight : Z)
  (uninit : nat -> float) :
  layerWidth = 0 \/ layerHeight = 0 ->
  forward L layerWidth layerHeight imageWidth imageHeight uninit = Done [].
Proof.
  intros Hgrid.
  assert (Hzero : layerHeight * layerWidth = 0) by nia.
  assert (Hdim : dim L layerWidth layerHeight = 0)
    by (unfold dim; rewrite Hzero; reflexivity).
  unfold forward, dim_fits. rewrite Hdim, Hzero. cbn [Z.mul].
  change (fits 0) with true. cbn [andb].
  unfold fresh. rewrite Hdim. cbn [Z.mul Z.to_nat seq map].
  assert (Hboxes : forall st,
    fill_boxes L layerWidth layerHeight imageWidth imageHeight st = ret tt st).
  { intros st. unfold fill_boxes. destruct Hgrid as [->| ->].
    - apply for_each_nothing. intros h st' _. reflexivity.
    - reflexivity. }
  assert (Hvars : forall st,
    fill_variance L layerWidth layerHeight st = ret tt st).
  { intros st. unfold fill_variance. destruct Hgrid as [->| ->].
    - apply for_each_nothing. intros h st' _. reflexivity.
    - reflexivity. }
  unfold bind. rewrite Hboxes. unfold ret at 1.
  unfold clip_all. rewrite Hdim. cbn [range Z.to_nat seq map for_each].
  unfold ret at 1. rewrite Hvars. reflexivity.
Qed.

Lemma empty_grid_witness :
  forward (snd (init scenario_A)) 0 5 300 300 (fun _ => F32.zero) = Done [].
Proof.
  apply empty_grid_gives_empty_output. now left.
Defined.

(** The output of a run that ends well always has the declared length,
    [2 * layerHeight * layerWidth * numPriors_ * 4], whatever the number of
    priors the cells got. *)
Theorem output_has_declared_length
  (L : PriorBoxLayer) (layerWidth layerHeight imageWidth imageHeight : Z)
  (uninit : nat -> float) (out : list float) :
  forward L layerWidth layerHeight imageWidth imageHeight uninit = Done out ->
  0 <= layerWidth -> 0 <= layerHeight -> 0 <= numPriors_ L ->
  length out =
  (2 * Z.to_nat layerHeight * Z.to_nat layerWidth *
   Z.to_nat (numPriors_ L) * 4)%nat.
Proof.
  intros Hrun HW HH Hn.
  rewrite (forward_done_length _ _ _ _ _ _ _ Hrun). unfold dim. nia.
Qed.

Lemma output_has_declared_length_witness :
  exists out,
    forward (snd (init unit_ratio)) 1 1 100 100 (fun _ => F32.zero) = Done out /\
    length out = 24%nat.
Proof.
  eexists. split; [vm_compute; reflexivity|].
  exact (output_has_declared_length (snd (init unit_ratio)) 1 1 100 100
           (fun _ => F32.zero) _ ltac:(vm_compute; reflexivity)
           ltac:(lia) ltac:(lia) ltac:(vm_compute; discriminate)).
Defined.

(** Where the priors of a cell are: the cells are laid out in row-major
    order, [4 * actualPriorsPerCell] values each, and the [k]-th value of
    the cell in row [h] and column [w] is the clipped [k]-th coordinate
    that cell stored. *)
Theorem cell_position_in_output
  (L : PriorBoxLayer) (layerWidth layerHeight imageWidth imageHeight : Z)
  (uninit : nat -> float) (out : list float) :
  forward L layerWidth layerHeight imageWidth imageHeight uninit = Done out ->
  forall h w k d,
    (h < Z.to_nat layerHeight)%nat -> (w < Z.to_nat layerWidth)%nat ->
    (k < 4 * actualPriorsPerCell L)%nat ->
    nth ((h * Z.to_nat layerWidth + w) * (4 * actualPriorsPerCell L) + k) out d =
    clip (nth k (cell_boxes L layerWidth layerHeight imageWidth imageHeight
                   (Z.of_nat h) (Z.of_nat w)) d).
Proof.
  intros Hrun h w k d Hh Hw Hk.
  set (a4 := (4 * actualPriorsPerCell L)%nat) in *.
  set (Wn := Z.to_nat layerWidth) in *.
  set (boxes := all_boxes L layerWidth layerHeight imageWidth imageHeight).
  assert (Hlen : length boxes = (Z.to_nat layerHeight * Wn * a4)%nat).
  { unfold boxes. rewrite all_boxes_length. reflexivity. }
  assert (Hidx : ((h * Wn + w) * a4 + k < length boxes)%nat).
  { rewrite Hlen.
    assert (H1 : (h * Wn + w + 1 <= Z.to_nat layerHeight * Wn)%nat) by nia.
    pose proof (Nat.mul_le_mono_r _ _ a4 H1) as H2.
    rewrite Nat.mul_add_distr_r, Nat.mul_1_l in H2. lia. }
  destruct (forward_done_cells _ _ _ _ _ _ _ Hrun ltac:(lia) ltac:(lia))
    as [Hroom Hcells].
  fold boxes in Hroom, Hcells.
  rewrite Hcells by lia.
  destruct (Nat.ltb_spec ((h * Wn + w) * a4 + k) (length boxes)); [|lia].
  f_equal. unfold boxes, all_boxes.
  replace ((h * Wn + w) * a4 + k)%nat
    with (h * (Wn * a4) + (w * a4 + k))%nat by lia.
  rewrite nth_flat_map_const with (a0 := 0).
  - rewrite range_nth by exact Hh.
    rewrite nth_flat_map_const with (a0 := 0).
    + now rewrite range_nth by exact Hw.
    + intros x _. apply cell_boxes_length.
    + rewrite range_length. exact Hw.
    + exact Hk.
  - intros x _.
    rewrite flat_map_length_const with (n := a4).
    + now rewrite range_length.
    + intros y _. apply cell_boxes_length.
  - rewrite range_length. exact Hh.
  - fold Wn. nia.
Qed.

Lemma cell_position_in_output_witness :
  let L := snd (init scenario_A) in
  exists out,
    forward L 2 2 300 300 (fun _ => F32.zero) = Done out /\
    nth 38 out F32.zero = clip (nth 2 (cell_boxes L 2 2 300 300 1 1) F32.zero).
Proof.
  intros L. eexists. split; [vm_compute; reflexivity|].
  exact (cell_position_in_output L 2 2 300 300 (fun _ => F32.zero) _
           ltac:(vm_compute; reflexivity) 1%nat 1%nat 2%nat F32.zero
           ltac:(vm_compute; lia) ltac:(vm_compute; lia)
           ltac:(vm_compute; lia)).
Defined.

(** The variance block starts right after the boxes the cells stored, not
    at the middle of the buffer, and holds the first four values of the
    variance once for each of the [numPriors_] declared priors of each
    cell; those values are not clipped. *)
Theorem variance_follows_the_boxes
  (L : PriorBoxLayer) (layerWidth layerHeight imageWidth imageHeight : Z)
  (uninit : nat -> float) (out : list float) :
  forward L layerWidth layerHeight imageWidth imageHeight uninit = Done out ->
  0 <= layerWidth -> 0 <= layerHeight ->
  forall q j d,
    (q < cells layerWidth layerHeight * Z.to_nat (numPriors_ L))%nat ->
    (j < 4)%nat ->
    (4 <= length (variance_ L))%nat /\
    nth (4 * (cells layerWidth layerHeight * actualPriorsPerCell L) + 4 * q + j)
        out d =
    nth j (variance_ L) d.
Proof.
  intros Hrun HW HH q j d Hq Hj.
  assert (Hpos : 0 < layerWidth /\ 0 < layerHeight /\ 0 < numPriors_ L).
  { unfold cells in Hq. nia. }
  destruct Hpos as (HWp & HHp & Hn).
  destruct (forward_done_needs _ _ _ _ _ _ _ Hrun HWp HHp Hn)
    as (_ & _ & _ & Hvar).
  split; [exact Hvar|].
  destruct (forward_done_cells _ _ _ _ _ _ _ Hrun HW HH) as [Hroom Hcells].
  set (boxes := all_boxes L layerWidth layerHeight imageWidth imageHeight) in *.
  set (vars := variance_block L layerWidth layerHeight) in *.
  assert (Hb : length boxes =
               (4 * (cells layerWidth layerHeight * actualPriorsPerCell L))%nat).
  { unfold boxes. rewrite all_boxes_length. lia. }
  assert (Hv : length vars =
               (cells layerWidth layerHeight * Z.to_nat (numPriors_ L) * 4)%nat).
  { unfold vars. exact (@variance_block_length L layerWidth layerHeight Hvar). }
  rewrite <- Hb. rewrite Hcells by lia.
  destruct (Nat.ltb_spec (length boxes + 4 * q + j) (length boxes)); [lia|].
  destruct (Nat.ltb_spec (length boxes + 4 * q + j)
              (length boxes + length vars)); [|lia].
  replace (length boxes + 4 * q + j - length boxes)%nat
    with (q * 4 + j)%nat by lia.
  unfold vars, variance_block.
  assert (H4 : length (firstn 4 (variance_ L)) = 4%nat)
    by (rewrite length_firstn; lia).
  rewrite <- H4 at 1.
  rewrite nth_concat_repeat by (rewrite ?H4; assumption).
  rewrite nth_firstn. destruct (Nat.ltb_spec j 4); [reflexivity | lia].
Qed.

Lemma variance_follows_the_boxes_witness :
  let L := snd (init unit_ratio) in
  exists out,
    forward L 1 1 100 100 (fun _ => F32.zero) = Done out /\
    nth 9 out F32.zero = nth 1 (variance_ L) F32.zero.
Proof.
  intros L. eexists. split; [vm_compute; reflexivity|].
  exact (proj2 (variance_follows_the_boxes L 1 1 100 100 (fun _ => F32.zero) _
                  ltac:(vm_compute; reflexivity) ltac:(lia) ltac:(lia)
                  1%nat 1%nat F32.zero
                  ltac:(vm_compute; lia) ltac:(lia))).
Defined.

(** The cells past the variance block are never written: the output
    holds there what the memory held before the run. *)
Theorem cells_past_the_variance_keep_the_memory
  (L : PriorBoxLayer) (layerWidth layerHeight imageWidth imageHeight : Z)
  (uninit : nat -> float) (out : list float) :
  forward L layerWidth layerHeight imageWidth imageHeight uninit = Done out ->
  0 <= layerWidth -> 0 <= layerHeight ->
  forall k d,
    (4 * (cells layerWidth layerHeight *
          (actualPriorsPerCell L + Z.to_nat (numPriors_ L))) <= k)%nat ->
    (k < length out)%nat ->
    nth k out d = uninit k.
Proof.
  intros Hrun HW HH k d Hlo Hhi.
  rewrite (forward_done_length _ _ _ _ _ _ _ Hrun) in Hhi.
  assert (Hpos : 0 < layerWidth /\ 0 < layerHeight /\ 0 < numPriors_ L).
  { unfold dim in Hhi. nia. }
  destruct Hpos as (HWp & HHp & Hn).
  destruct (forward_done_needs _ _ _ _ _ _ _ Hrun HWp HHp Hn)
    as (_ & _ & _ & Hvar).
  destruct (forward_done_cells _ _ _ _ _ _ _ Hrun HW HH) as [Hroom Hcells].
  set (boxes := all_boxes L layerWidth layerHeight imageWidth imageHeight) in *.
  set (vars := variance_block L layerWidth layerHeight) in *.
  assert (Hb : length boxes =
               (4 * (cells layerWidth layerHeight * actualPriorsPerCell L))%nat).
  { unfold boxes. rewrite all_boxes_length. lia. }
  assert (Hv : length vars =
               (cells layerWidth layerHeight * Z.to_nat (numPriors_ L) * 4)%nat).
  { unfold vars. exact (@variance_block_length L layerWidth layerHeight Hvar). }
  rewrite Hcells by exact Hhi.
  destruct (Nat.ltb_spec k (length boxes)); [lia|].
  destruct (Nat.ltb_spec k (length boxes + length vars)); [lia | reflexivity].
Qed.

Lemma cells_past_the_variance_witness :
  let L := snd (init unit_ratio) in
  exists out,
    forward L 1 1 100 100 (fun _ => F32.one) = Done out /\
    nth 20 out F32.zero = F32.one.
Proof.
  intros L. eexists. split; [vm_compute; reflexivity|].
  exact (cells_past_the_variance_keep_the_memory L 1 1 100 100
           (fun _ => F32.one) _
           ltac:(vm_compute; reflexivity) ltac:(lia) ltac:(lia)
           20%nat F32.zero ltac:(vm_compute; lia) ltac:(vm_compute; lia)).
Defined.

(** A variance of fewer than four values is read out of its bounds: on a
    grid that has a cell no run ends well. *)
Theorem short_variance_never_ends_well
  (L : PriorBoxLayer) (layerWidth layerHeight imageWidth imageHeight : Z)
  (uninit : nat -> float) :
  (length (variance_ L) < 4)%nat ->
  0 < layerWidth -> 0 < layerHeight -> 0 < numPriors_ L ->
  ~ exists out,
      forward L layerWidth layerHeight imageWidth imageHeight uninit = Done out.
Proof.
  intros Hshort HW HH Hn [out Hrun].
  destruct (forward_done_needs _ _ _ _ _ _ _ Hrun HW HH Hn)
    as (_ & _ & _ & Hvar).
  lia.
Qed.

Lemma short_variance_witness :
  ~ exists out,
      forward (snd (init {| min_size := [30]; max_size := [];
                            aspect_ratio := [F32.of_int 2];
                            variance := [tenths 1; tenths 1; tenths 2] |}))
        2 2 300 300 (fun _ => F32.zero) = Done out.
Proof.
  apply short_variance_never_ends_well.
  - simpl. lia.
  - lia.
  - lia.
  - vm_compute. reflexivity.
Defined.

Lemma for_each_ext A (l : list A) (body body' : A -> Run unit) :
  (forall x st, In x l -> body x st = body' x st) ->
  forall st, for_each l body st = for_each l body' st.
Proof.
  induction l as [|x l IH]; intros Hb st; cbn [for_each]; [reflexivity|].
  apply bind_ext; [apply Hb; now left|].
  intros _ st'. apply IH. intros y st'' Hy. apply Hb. now right.
Qed.

Lemma nth_error_firstn_lt A (l : list A) n j :
  (j < n)%nat -> nth_error (firstn n l) j = nth_error l j.
Proof.
  revert l j. induction n as [|n IH]; intros l j Hj; [lia|].
  destruct l as [|x l]; [reflexivity|].
  destruct j as [|j]; [reflexivity|]. cbn [firstn nth_error]. apply IH. lia.
Qed.

(** [forward] reads the first four values of the variance and nothing
    past them: two layers that differ only past the fourth value of their
    variance run alike. *)
Theorem variance_past_the_fourth_value_is_ignored
  (L L' : PriorBoxLayer) (layerWidth layerHeight imageWidth imageHeight : Z)
  (uninit : nat -> float) :
  numPriors_ L = numPriors_ L' -> minSize_ L = minSize_ L' ->
  maxSize_ L = maxSize_ L' -> aspectRatio_ L = aspectRatio_ L' ->
  firstn 4 (variance_ L) = firstn 4 (variance_ L') ->
  forward L layerWidth layerHeight imageWidth imageHeight uninit =
  forward L' layerWidth layerHeight imageWidth imageHeight uninit.
Proof.
  destruct L as [n mins maxs ars v], L' as [n' mins' maxs' ars' v'].
  cbn [numPriors_ minSize_ maxSize_ aspectRatio_ variance_].
  intros <- <- <- <- Hv.
  unfold forward.
  change (dim_fits {| numPriors_ := n; minSize_ := mins; maxSize_ := maxs;
                      aspectRatio_ := ars; variance_ := v' |}
            layerWidth layerHeight)
    with (dim_fits {| numPriors_ := n; minSize_ := mins; maxSize_ := maxs;
                      aspectRatio_ := ars; variance_ := v |}
            layerWidth layerHeight).
  destruct (dim_fits _ _ _); [|reflexivity].
  match goal with
  | |- match ?c ?s with _ => _ end = match ?c' ?s' with _ => _ end =>
      assert (Hrun : c s = c' s')
  end.
  { apply bind_ext; [reflexivity|]. intros _ st1.
    apply bind_ext; [reflexivity|]. intros _ st2.
    unfold fill_variance. cbn [numPriors_ variance_].
    apply for_each_ext. intros _ st3 _.
    apply for_each_ext. intros _ st4 _.
    apply for_each_ext. intros _ st5 _.
    apply for_each_ext. intros j st6 Hj.
    apply bind_ext; [|reflexivity].
    unfold at_.
    assert (Hlt : (j < 4)%nat) by (apply in_seq in Hj; lia).
    rewrite <- (nth_error_firstn_lt _ v 4 j Hlt),
            <- (nth_error_firstn_lt _ v' 4 j Hlt), Hv.
    reflexivity. }
  rewrite Hrun. reflexivity.
Qed.

Lemma variance_past_the_fourth_value_witness :
  let L := snd (init scenario_A) in
  let L' := {| numPriors_ := numPriors_ L; minSize_ := minSize_ L;
               maxSize_ := maxSize_ L; aspectRatio_ := aspectRatio_ L;
               variance_ := variance_ L ++ [F32.one] |} in
  forward L 2 2 300 300 (fun _ => F32.zero) =
  forward L' 2 2 300 300 (fun _ => F32.zero).
Proof.
  intros L L'.
  apply variance_past_the_fourth_value_is_ignored; reflexivity.
Defined.

(** A run on a buffer that already holds the output of a run of the same
    layer, grid and image leaves that output as it is. *)
Theorem forward_reproduces_its_output
  (L : PriorBoxLayer) (layerWidth layerHeight imageWidth imageHeight : Z)
  (uninit : nat -> float) (out : list float) :
  forward L layerWidth layerHeight imageWidth imageHeight uninit = Done out ->
  0 <= layerWidth -> 0 <= layerHeight ->
  forward L layerWidth layerHeight imageWidth imageHeight
    (fun i => nth i out F32.zero) = Done out.
Proof.
  intros Hrun HW HH.
  pose proof (@forward_kind L layerWidth layerHeight imageWidth imageHeight
                imageWidth imageHeight uninit (fun i => nth i out F32.zero))
    as Hkind.
  rewrite Hrun in Hkind. cbn [kind] in Hkind.
  destruct (forward L layerWidth layerHeight imageWidth imageHeight
              (fun i => nth i out F32.zero)) as [out'| |] eqn:Hrun';
    try discriminate.
  f_equal.
  pose proof (forward_done_length _ _ _ _ _ _ _ Hrun) as Hlen.
  pose proof (forward_done_length _ _ _ _ _ _ _ Hrun') as Hlen'.
  destruct (forward_done_cells _ _ _ _ _ _ _ Hrun HW HH) as [_ Hcells].
  destruct (forward_done_cells _ _ _ _ _ _ _ Hrun' HW HH) as [_ Hcells'].
  apply nth_ext with (d := F32.zero) (d' := F32.zero); [congruence|].
  intros k Hk. rewrite Hlen' in Hk.
  rewrite Hcells' by exact Hk.
  pose proof (Hcells k F32.zero Hk) as Hout.
  destruct (k <? _)%nat; [now rewrite Hout|].
  destruct (k <? _)%nat; [now rewrite Hout | reflexivity].
Qed.

Lemma forward_reproduces_its_output_witness :
  exists out,
    forward (snd (init unit_ratio)) 1 1 100 100 (fun _ => F32.one) = Done out /\
    forward (snd (init unit_ratio)) 1 1 100 100 (fun i => nth i out F32.zero) =
    Done out.
Proof.
  eexists. split; [vm_compute; reflexivity|].
  exact (forward_reproduces_its_output (snd (init unit_ratio)) 1 1 100 100
           (fun _ => F32.one) _ ltac:(vm_compute; reflexivity)
           ltac:(lia) ltac:(lia)).
Defined.

(** ** More on the clipping *)

Lemma clip_unit v : in_unit v -> clip v = v.
Proof.
  intros [Hlo Hhi]. unfold F32.leb, SFleb in Hlo, Hhi.
  unfold clip, std_min, std_max, F32.ltb, SFltb.
  destruct (SFcompare F32.zero v) as [c0|] eqn:E0; [|discriminate].
  apply SFcompare_antisym in E0. rewrite E0.
  destruct (SFcompare v F32.one) as [c1|] eqn:E1; [|discriminate].
  apply SFcompare_antisym in E1.
  destruct c0; try discriminate; cbn [CompOpp]; rewrite E1;
    destruct c1; try discriminate; reflexivity.
Qed.

(** Clipping a clipped value changes nothing, NaN included. *)
Theorem clipping_twice_changes_nothing (v : float) : clip (clip v) = clip v.
Proof.
  destruct (clip_range v) as [Hunit|[_ Hnan]].
  - now apply clip_unit.
  - rewrite Hnan. reflexivity.
Qed.

(** A coordinate that lies in [[0, 1]] when it is stored reaches the
    output as it is, bit for bit. *)
Theorem in_range_coordinates_are_kept
  (L : PriorBoxLayer) (layerWidth layerHeight imageWidth imageHeight : Z)
  (uninit : nat -> float) (out : list float) (i : nat) :
  forward L layerWidth layerHeight imageWidth imageHeight uninit = Done out ->
  (i < length (all_boxes L layerWidth layerHeight imageWidth imageHeight))%nat ->
  in_unit (nth i (all_boxes L layerWidth layerHeight imageWidth imageHeight)
             F32.zero) ->
  nth i out F32.zero =
  nth i (all_boxes L layerWidth layerHeight imageWidth imageHeight) F32.zero.
Proof.
  intros Hrun Hi Hunit.
  destruct (forward_done_nth _ _ _ _ _ _ Hrun Hi) as [_ ->].
  now apply clip_unit.
Qed.

Lemma in_range_coordinates_witness :
  let L := snd (init scenario_A) in
  exists out,
    forward L 2 2 300 300 (fun _ => F32.zero) = Done out /\
    nth 0 out F32.zero = nth 0 (all_boxes L 2 2 300 300) F32.zero.
Proof.
  intros L. eexists. split; [vm_compute; reflexivity|].
  exact (in_range_coordinates_are_kept L 2 2 300 300 (fun _ => F32.zero) _
           0%nat ltac:(vm_compute; reflexivity)
           ltac:(vm_compute; apply Nat.lt_0_succ)
           ltac:(vm_compute; split; reflexivity)).
Defined.

(** ** When a run ends well *)

Lemma room_leb L W H iw ih :
  (4 <= length (variance_ L))%nat -> 0 <= numPriors_ L -> 0 < W -> 0 < H ->
  (length (all_boxes L W H iw ih) + length (variance_block L W H) <=?
   Z.to_nat (dim L W H * 2))%nat =
  (Z.of_nat (actualPriorsPerCell L) <=? numPriors_ L).
Proof.
  intros Hvar Hn HW HH.
  rewrite all_boxes_length, (@variance_block_length L W H Hvar).
  unfold cells, dim.
  replace (Z.to_nat (H * W * numPriors_ L * 4 * 2))
    with (Z.to_nat H * Z.to_nat W * Z.to_nat (numPriors_ L) * 8)%nat by nia.
  assert (Hc : (1 <= Z.to_nat H * Z.to_nat W)%nat) by nia.
  revert Hc.
  generalize (Z.to_nat H * Z.to_nat W)%nat. intros c Hc.
  destruct (Z.leb_spec (Z.of_nat (actualPriorsPerCell L)) (numPriors_ L))
    as [Hle|Hgt].
  - apply Nat.leb_le.
    assert (Ha : (actualPriorsPerCell L <= Z.to_nat (numPriors_ L))%nat) by lia.
    revert Ha. generalize (actualPriorsPerCell L), (Z.to_nat (numPriors_ L)).
    intros a n Ha. nia.
  - apply Nat.leb_gt.
    assert (Ha : (Z.to_nat (numPriors_ L) < actualPriorsPerCell L)%nat) by lia.
    revert Ha. generalize (actualPriorsPerCell L), (Z.to_nat (numPriors_ L)).
    intros a n Ha. nia.
Qed.

(** On a grid that has a cell, for a layer that declares a prior, a run
    ends well exactly when no [int] product overflows, the layer passes
    [CHECK_EQ], its sizes convert, its variance has four values or more
    and the cells get at most [numPriors_] priors. *)
Theorem forward_ends_well_exactly_when
  (L : PriorBoxLayer) (layerWidth layerHeight imageWidth imageHeight : Z)
  (uninit : nat -> float) :
  0 < layerWidth -> 0 < layerHeight -> 0 < numPriors_ L ->
  (exists out,
     forward L layerWidth layerHeight imageWidth imageHeight uninit = Done out)
  <->
  dim_fits L layerWidth layerHeight = true /\ check_passes L /\
  sizes_convert L /\ (4 <= length (variance_ L))%nat /\
  Z.of_nat (actualPriorsPerCell L) <= numPriors_ L.
Proof.
  intros HW HH Hn. split.
  - intros [out Hrun].
    destruct (forward_done_needs _ _ _ _ _ _ _ Hrun HW HH Hn)
      as (Hfit & Hck & Hconv & Hvar).
    repeat (split; [assumption|]).
    rewrite (forward_run layerWidth layerHeight imageWidth imageHeight uninit
               Hck Hconv Hvar) in Hrun.
    cbv zeta in Hrun. rewrite Hfit, room_leb in Hrun by (assumption || lia).
    destruct (Z.leb_spec (Z.of_nat (actualPriorsPerCell L)) (numPriors_ L));
      [assumption | discriminate].
  - intros (Hfit & Hck & Hconv & Hvar & Hle).
    rewrite (forward_run layerWidth layerHeight imageWidth imageHeight uninit
               Hck Hconv Hvar).
    cbv zeta. rewrite Hfit, room_leb by (assumption || lia).
    destruct (Z.leb_spec (Z.of_nat (actualPriorsPerCell L)) (numPriors_ L));
      [eauto | lia].
Qed.

Lemma forward_ends_well_exactly_when_witness :
  let L := snd (init scenario_B) in
  (exists out, forward L 2 3 300 200 (fun _ => F32.zero) = Done out)
  <->
  dim_fits L 2 3 = true /\ check_passes L /\ sizes_convert L /\
  (4 <= length (variance_ L))%nat /\
  Z.of_nat (actualPriorsPerCell L) <= numPriors_ L.
Proof.
  intros L.
  apply forward_ends_well_exactly_when;
    [lia | lia | vm_compute; reflexivity].
Defined.

(** ** The two counts of priors *)

Lemma unity_count_one pbConf :
  (forall r, In r (aspect_ratio pbConf) ->
     near_one r = false /\ near_one (recip r) = false) ->
  countOfUnityRatios (snd (init pbConf)) = 1%nat.
Proof.
  intros Hraw. unfold countOfUnityRatios.
  rewrite (proj1 (init_aspect_ratios pbConf)), !filter_app.
  rewrite (@filter_none _ near_one (aspect_ratio pbConf))
    by (intros r Hr; apply Hraw; exact Hr).
  rewrite (@filter_none _ near_one (map recip (aspect_ratio pbConf))).
  - reflexivity.
  - intros r' Hr'. apply in_map_iff in Hr'. destruct Hr' as (r & <- & Hr).
    apply Hraw; exact Hr.
Qed.


(** With two minimum sizes or more, and no raw ratio that is, or whose
    reciprocal is, within [1e-6] of 1, the cells get more priors than
    [numPriors_] declares and the run stores outside the buffer. *)
Theorem several_min_sizes_overrun_the_buffer
  (pbConf : PriorBoxConfig) (layerWidth layerHeight imageWidth imageHeight : Z)
  (uninit : nat -> float) :
  (2 <= length (min_size pbConf))%nat ->
  (max_size pbConf = [] \/
   length (max_size pbConf) = length (min_size pbConf)) ->
  (forall r, In r (aspect_ratio pbConf) ->
     near_one r = false /\ near_one (recip r) = false) ->
  sizes_convert (snd (init pbConf)) ->
  (4 <= length (variance pbConf))%nat ->
  0 < layerWidth -> 0 < layerHeight ->
  dim_fits (snd (init pbConf)) layerWidth layerHeight = true ->
  forward (snd (init pbConf)) layerWidth layerHeight imageWidth imageHeight
    uninit = Undefined OutOfBounds.
Proof.
  intros Hk Hmax Hraw Hconv Hvar HW HH Hfit.
  set (L := snd (init pbConf)) in *.
  assert (Hck : check_passes L).
  { right. unfold lengths_agree.
    change (maxSize_ L) with (max_size pbConf).
    change (minSize_ L) with (min_size pbConf).
    destruct Hmax as [E|E]; [now left | right; now symmetry]. }
  assert (Hn : 1 <= numPriors_ L) by apply numPriors_init_pos.
  rewrite (forward_run layerWidth layerHeight imageWidth imageHeight uninit
             Hck Hconv Hvar).
  cbv zeta. rewrite Hfit, room_leb by (assumption || lia).
  destruct (Z.leb_spec (Z.of_nat (actualPriorsPerCell L)) (numPriors_ L))
    as [Hle|Hgt]; [exfalso | reflexivity].
  unfold L in Hle. rewrite nominal_prior_count in Hle.
  unfold actualPriorsPerCell in Hle.
  rewrite (unity_count_one pbConf Hraw) in Hle.
  rewrite (proj2 (init_aspect_ratios pbConf)) in Hle.
  change (minSize_ (snd (init pbConf))) with (min_size pbConf) in Hle.
  change (maxSize_ (snd (init pbConf))) with (max_size pbConf) in Hle.
  destruct Hmax as [E|E]; rewrite E in Hle.
  - cbn [length Nat.ltb Nat.leb] in Hle. lia.
  - destruct (Nat.ltb_spec 0 (length (min_size pbConf))); [|lia].
    revert Hk Hle. generalize (length (min_size pbConf)),
      (length (aspect_ratio pbConf)). intros k r Hk Hle. nia.
Qed.

Lemma several_min_sizes_witness :
  forward (snd (init two_min_sizes)) 3 2 300 200 (fun _ => F32.zero) =
  Undefined OutOfBounds.
Proof.
  apply several_min_sizes_overrun_the_buffer.
  - simpl. lia.
  - now left.
  - intros r [<-|[]]. vm_compute. split; reflexivity.
  - intros m M _ [].
  - simpl. lia.
  - lia.
  - lia.
  - reflexivity.
Defined.

(** ** The side of the second prior *)

Lemma loc_of_shr_record_of_loc m l :
  loc_of_shr_record (shr_record_of_loc m l) = l.
Proof. destruct l as [|[| |]]; reflexivity. Qed.

Lemma shr_fexp_no_shift prec emax m e l :
  SpecFloat.fexp prec emax (Zdigits2 m + e) <= e ->
  shr_fexp prec emax m e l = (shr_record_of_loc m l, e).
Proof.
  intros Hle. unfold shr_fexp, shr.
  destruct (SpecFloat.fexp prec emax (Zdigits2 m + e) - e) eqn:E;
    try reflexivity. lia.
Qed.

(** Rounding a mantissa that needs no shift: it is rounded by its
    location, and shifted afterwards if the rounding made it longer. *)
Lemma round_aux_no_shift prec emax s m e l :
  0 <= m -> SpecFloat.fexp prec emax (Zdigits2 m + e) <= e ->
  let m2 := round_nearest_even m l in
  let n2 := Z.max (SpecFloat.fexp prec emax (Zdigits2 m2 + e) - e) 0 in
  binary_round_aux prec emax s m e l =
  match m2 / 2 ^ n2 with
  | Z0 => S754_zero s
  | Zpos p =>
      if e + n2 <=? emax - prec then S754_finite s p (e + n2)
      else S754_infinity s
  | Zneg _ => S754_nan
  end.
Proof.
  intros Hm Hle m2 n2. unfold binary_round_aux.
  rewrite (shr_fexp_no_shift prec emax m e l Hle).
  rewrite shr_record_of_loc_m, loc_of_shr_record_of_loc. fold m2.
  assert (Hm2 : 0 <= m2).
  { unfold m2. destruct (round_nearest_even_cases m l) as [-> | ->]; lia. }
  pose proof (shr_fexp_spec prec emax m2 e loc_Exact Hm2) as Hspec.
  cbv zeta in Hspec. fold n2 in Hspec.
  destruct (shr_fexp prec emax m2 e loc_Exact) as [mrs e'']. cbn [fst snd] in Hspec.
  destruct Hspec as [-> ->]. reflexivity.
Qed.

(** The conversion of a positive [int] to [double] is exact. *)
Lemma F64_of_int_exact p :
  Zpos p < 2 ^ 31 ->
  let d := Zpos (digits2_pos p) in
  exists mz,
    F64.of_int (Zpos p) = S754_finite false mz (d - 53) /\
    Zpos mz = Zpos p * 2 ^ (53 - d).
Proof.
  intros Hp d.
  assert (Hd : 1 <= d <= 31).
  { unfold d. split; [lia|]. apply (Zdigits2_le (Zpos p) 31); lia. }
  change (F64.of_int (Zpos p)) with (binary_round 53 1024 false p 0).
  unfold binary_round.
  pose proof (shl_align_spec p 0 (SpecFloat.fexp 53 1024 (Zpos (digits2_pos p) + 0)))
    as [He Hmz].
  fold d in He, Hmz.
  assert (Hf : SpecFloat.fexp 53 1024 (d + 0) = d - 53).
  { unfold SpecFloat.fexp, SpecFloat.emin. lia. }
  rewrite Hf in He, Hmz.
  fold d. rewrite Hf.
  destruct (shl_align p 0 (d - 53)) as [mz ez]. cbn [fst snd] in He, Hmz.
  replace (Z.min 0 (d - 53)) with (d - 53) in He, Hmz by lia.
  replace (0 - (d - 53)) with (53 - d) in Hmz by lia.
  subst ez. exists mz. split; [|exact Hmz].
  assert (Hdig : Zdigits2 (Zpos mz) = 53).
  { rewrite Hmz, Zdigits2_mul_pow2 by lia. cbn [Zdigits2]. fold d. lia. }
  rewrite round_aux_no_shift.
  - cbn [round_nearest_even]. rewrite Hdig.
    replace (Z.max (SpecFloat.fexp 53 1024 (53 + (d - 53)) - (d - 53)) 0) with 0
      by (unfold SpecFloat.fexp, SpecFloat.emin; lia).
    rewrite Z.div_1_r, Z.add_0_r.
    destruct (Z.leb_spec (d - 53) (1024 - 53)); [reflexivity | lia].
  - lia.
  - rewrite Hdig. unfold SpecFloat.fexp, SpecFloat.emin. lia.
Qed.

(** The integer square root from a square root taken at a larger scale
    and rounded up or not. *)
Lemma scaled_sqrt_floor p t m2 :
  0 <= p < 2 ^ 31 -> 17 <= t ->
  m2 = Z.sqrt (p * 2 ^ (2 * t)) \/ m2 = Z.sqrt (p * 2 ^ (2 * t)) + 1 ->
  m2 / 2 ^ t = Z.sqrt p.
Proof.
  intros [Hp0 Hp] Ht Hm2.
  assert (HT : 2 ^ 17 <= 2 ^ t) by (apply Z.pow_le_mono_r; lia).
  replace (2 ^ (2 * t)) with (2 ^ t * 2 ^ t) in Hm2
    by (rewrite <- Z.pow_add_r by lia; f_equal; lia).
  revert HT Hm2. generalize (2 ^ t). intros T HT Hm2.
  change (2 ^ 17) with 131072 in HT. change (2 ^ 31) with 2147483648 in Hp.
  pose proof (Z.sqrt_spec p Hp0) as Hk. cbv zeta in Hk.
  pose proof (Z.sqrt_nonneg p) as Hk0.
  set (k := Z.sqrt p) in *. unfold Z.succ in Hk.
  assert (Hk16 : k < 65536).
  { destruct (Z_lt_le_dec k 65536) as [|Hge]; [assumption|].
    assert (65536 * 65536 <= k * k) by (apply Z.mul_le_mono_nonneg; lia).
    lia. }
  assert (HTT : 0 <= T * T) by (apply Z.mul_nonneg_nonneg; lia).
  assert (Hscaled : 0 <= p * (T * T)) by (apply Z.mul_nonneg_nonneg; lia).
  set (q := Z.sqrt (p * (T * T))) in *.
  set (X := (k + 1) * T).
  assert (HX : T <= X).
  { unfold X. rewrite <- (Z.mul_1_l T) at 1.
    apply Z.mul_le_mono_nonneg_r; lia. }
  assert (Hlo : k * T <= q).
  { apply Z.sqrt_le_square;
      [exact Hscaled | apply Z.mul_nonneg_nonneg; lia |].
    replace (k * T * (k * T)) with (k * k * (T * T)) by ring.
    apply Z.mul_le_mono_nonneg_r; lia. }
  assert (Hhi : q < X - 1).
  { apply Z.sqrt_lt_square; [exact Hscaled | lia |].
    assert (H1 : p * (T * T) <= ((k + 1) * (k + 1) - 1) * (T * T))
      by (apply Z.mul_le_mono_nonneg_r; lia).
    assert (E1 : ((k + 1) * (k + 1) - 1) * (T * T) = X * X - T * T)
      by (unfold X; ring).
    assert (E2 : (X - 1) * (X - 1) = X * X - 2 * X + 1) by ring.
    assert (H3 : 2 * X <= T * T).
    { unfold X. replace (2 * ((k + 1) * T)) with (2 * (k + 1) * T) by ring.
      apply Z.mul_le_mono_nonneg_r; lia. }
    rewrite E2. lia. }
  symmetry. apply Z.div_unique with (r := m2 - k * T); [|lia].
  left. unfold X in Hhi.
  replace ((k + 1) * T) with (k * T + T) in Hhi by ring.
  destruct Hm2 as [-> | ->]; lia.
Qed.

(** [(int)sqrt(p)] on a positive [int] [p]: the integer square root. *)
Lemma to_int_sqrt_of_int p :
  Zpos p < 2 ^ 31 ->
  F64.to_int (F64.sqrt (F64.of_int (Zpos p))) = Some (Z.sqrt (Zpos p)).
Proof.
  intros Hp.
  destruct (F64_of_int_exact p Hp) as (mz & -> & Hmz). cbv zeta in Hmz.
  pose proof (digits_bounds p) as Hb.
  set (d := Zpos (digits2_pos p)) in *.
  assert (Hd : 1 <= d <= 31).
  { unfold d. split; [lia|]. apply (Zdigits2_le (Zpos p) 31); lia. }
  assert (Hdig : Zdigits2 (Zpos mz) = 53).
  { rewrite Hmz, Zdigits2_mul_pow2 by lia. cbn [Zdigits2]. fold d. lia. }
  set (t := 53 - (d + 1) / 2).
  assert (Ht : 37 <= t <= 52) by (unfold t; Z.div_mod_to_equations; lia).
  change (F64.sqrt (S754_finite false mz (d - 53)))
    with (SFsqrt 53 1024 (S754_finite false mz (d - 53))).
  cbn [SFsqrt]. unfold SFsqrt_core_binary. rewrite Hdig.
  assert (He : Z.min (SpecFloat.fexp 53 1024 (Z.div2 (53 + (d - 53) + 1)))
                     (Z.div2 (d - 53)) = - t).
  { rewrite !Z.div2_div. unfold SpecFloat.fexp, SpecFloat.emin, t.
    Z.div_mod_to_equations. lia. }
  rewrite He.
  assert (Hs : 0 <= d - 53 - 2 * - t) by lia.
  rewrite (shift_match (Zpos mz) _ Hs).
  assert (Hscaled : Zpos mz * 2 ^ (d - 53 - 2 * - t) = Zpos p * 2 ^ (2 * t)).
  { rewrite Hmz, <- Z.mul_assoc, <- Z.pow_add_r by lia. f_equal. f_equal. lia. }
  rewrite Hscaled.
  pose proof (sqrtrem_sqrt (Zpos p * 2 ^ (2 * t))) as Hq.
  destruct (Z.sqrtrem (Zpos p * 2 ^ (2 * t))) as [q r]. cbn [fst] in Hq.
  set (l := if r =? 0 then loc_Exact
            else loc_Inexact (if r <=? q then Lt else Gt)).
  assert (Hbig : 2 ^ 104 <= Zpos p * 2 ^ (2 * t) < 2 ^ 106).
  { assert (H2t : 0 < 2 ^ (2 * t)) by (apply Z.pow_pos_nonneg; lia).
    split.
    - apply Z.le_trans with (2 ^ (d - 1) * 2 ^ (2 * t)).
      + rewrite <- Z.pow_add_r by lia.
        apply Z.pow_le_mono_r; unfold t; Z.div_mod_to_equations; lia.
      + apply Z.mul_le_mono_nonneg_r; lia.
    - apply Z.lt_le_trans with (2 ^ d * 2 ^ (2 * t)).
      + apply Z.mul_lt_mono_pos_r; lia.
      + rewrite <- Z.pow_add_r by lia.
        apply Z.pow_le_mono_r; unfold t; Z.div_mod_to_equations; lia. }
  assert (Hqb : 2 ^ 52 <= q < 2 ^ 53).
  { rewrite Hq. split.
    - apply Z.sqrt_le_square; [lia | lia |].
      change (2 ^ 52 * 2 ^ 52) with (2 ^ 104). lia.
    - apply Z.sqrt_lt_square; [lia | lia |].
      change (2 ^ 53 * 2 ^ 53) with (2 ^ 106). lia. }
  assert (Hqd : Zdigits2 q = 53).
  { apply Z.le_antisymm; [apply Zdigits2_le; lia | apply Zdigits2_ge; lia]. }
  rewrite round_aux_no_shift;
    [| lia | rewrite Hqd; unfold SpecFloat.fexp, SpecFloat.emin; lia].
  set (m2 := round_nearest_even q l).
  assert (Hm2 : m2 = q \/ m2 = q + 1) by apply round_nearest_even_cases.
  assert (Hm2b : 2 ^ 52 <= m2 <= 2 ^ 53) by (destruct Hm2; lia).
  assert (Hm2d : 53 <= Zdigits2 m2 <= 54).
  { split; [apply Zdigits2_ge; lia|].
    apply Zdigits2_le; [|lia]. change (2 ^ 54) with (2 * 2 ^ 53). lia. }
  set (n2 := Z.max (SpecFloat.fexp 53 1024 (Zdigits2 m2 + - t) - - t) 0).
  assert (Hn2 : 0 <= n2 <= 1)
    by (unfold n2, SpecFloat.fexp, SpecFloat.emin; lia).
  assert (Hm3 : 2 ^ 51 <= m2 / 2 ^ n2).
  { apply Z.div_le_lower_bound; [apply Z.pow_pos_nonneg; lia|].
    apply Z.le_trans with (2 ^ 1 * 2 ^ 51); [|change (2 ^ 1 * 2 ^ 51) with (2 ^ 52); lia].
    apply Z.mul_le_mono_nonneg_r; [lia|]. apply Z.pow_le_mono_r; lia. }
  destruct (m2 / 2 ^ n2) as [|m3|m3] eqn:Em3; try lia.
  destruct (Z.leb_spec (- t + n2) (1024 - 53)); [|lia].
  unfold F64.to_int. cbn [cond_Zopp].
  destruct (- t + n2) as [|e3|e3] eqn:Ee3; try lia.
  rewrite Z.shiftr_div_pow2 by lia.
  assert (Hval : Zpos m3 / 2 ^ Zpos e3 = Z.sqrt (Zpos p)).
  { rewrite <- Em3, Z.div_div
      by first [apply Z.pow_pos_nonneg; lia | apply Z.pow_nonzero; lia].
    rewrite <- Z.pow_add_r by lia.
    replace (n2 + Zpos e3) with t by lia.
    apply scaled_sqrt_floor; [lia | lia |].
    rewrite <- Hq. exact Hm2. }
  rewrite Hval.
  assert (Hfit : fits (Z.sqrt (Zpos p)) = true).
  { pose proof (Z.sqrt_nonneg (Zpos p)).
    pose proof (Z.sqrt_le_lin (Zpos p) ltac:(lia)).
    unfold fits. apply andb_true_intro.
    split; [apply Z.leb_le | apply Z.ltb_lt]; lia. }
  now rewrite Hfit.
Qed.

(** [boxWidth = boxHeight = sqrt(minSize * maxSize)] leaves the integer
    square root of the product in the two [int] variables; a product that
    is negative has no square root to convert, and one that does not fit
    an [int] has overflowed before. *)
Theorem second_size_is_integer_square_root (minSize maxSize : Z) (st : buffer) :
  second_size minSize maxSize st =
    (if fits (minSize * maxSize) then
       if 0 <=? minSize * maxSize
       then Done (Z.sqrt (minSize * maxSize), st)
       else Undefined BadConversion
     else Undefined Overflow) /\
  (converts minSize maxSize <-> 0 <= minSize * maxSize < 2 ^ 31) /\
  (0 <= minSize * maxSize < 2 ^ 31 ->
   trunc_sqrt minSize maxSize = Z.sqrt (minSize * maxSize)).
Proof.
  assert (Hcases :
    forall z, fits z = true ->
      F64.to_int (F64.sqrt (F64.of_int z)) =
      if 0 <=? z then Some (Z.sqrt z) else None).
  { intros z Hfit. unfold fits in Hfit. apply andb_prop in Hfit.
    destruct Hfit as [Hlo Hhi]. apply Z.leb_le in Hlo. apply Z.ltb_lt in Hhi.
    destruct z as [|p|p].
    - reflexivity.
    - cbn [Z.leb Z.compare]. now apply to_int_sqrt_of_int.
    - cbn [Z.leb Z.compare].
      assert (Hd : Zpos (digits2_pos p) <= 32).
      { apply (Zdigits2_le (Zpos p) 32); [|lia].
        change (2 ^ 32) with (2 * 2 ^ 31). lia. }
      destruct (binary_round_finite 53 1024 true p 0 32)
        as (m' & e' & Heq & _); try (unfold SpecFloat.emin; lia).
      change (F64.of_int (Zneg p)) with (binary_round 53 1024 true p 0).
      rewrite Heq. reflexivity. }
  assert (Hfits : forall z, 0 <= z < 2 ^ 31 -> fits z = true).
  { intros z Hz. unfold fits. apply andb_true_intro.
    split; [apply Z.leb_le | apply Z.ltb_lt]; lia. }
  split; [|split].
  - unfold second_size, bind, int_.
    destruct (fits (minSize * maxSize)) eqn:Hfit; [|reflexivity].
    unfold ret at 1. rewrite (Hcases _ Hfit).
    destruct (0 <=? minSize * maxSize); reflexivity.
  - unfold converts. split.
    + intros [Hfit Hconv]. rewrite (Hcases _ Hfit) in Hconv.
      unfold fits in Hfit. apply andb_prop in Hfit.
      destruct Hfit as [_ Hhi]. apply Z.ltb_lt in Hhi.
      destruct (Z.leb_spec 0 (minSize * maxSize)); [lia | congruence].
    + intros Hz. pose proof (Hfits _ Hz) as Hfit.
      split; [exact Hfit|]. rewrite (Hcases _ Hfit).
      destruct (Z.leb_spec 0 (minSize * maxSize)); [discriminate | lia].
  - intros Hz. unfold trunc_sqrt. rewrite (Hcases _ (Hfits _ Hz)).
    destruct (Z.leb_spec 0 (minSize * maxSize)); [reflexivity | lia].
Qed.

(** ** What the output owes to the memory *)

(** The boxes and the variance block of the output do not depend on what
    the memory held: two runs on the same layer, grid and image end alike
    and agree on every cell up to the end of the variance block. *)
Theorem written_cells_do_not_depend_on_the_memory
  (L : PriorBoxLayer) (layerWidth layerHeight imageWidth imageHeight : Z)
  (uninit uninit' : nat -> float) (out : list float) :
  forward L layerWidth layerHeight imageWidth imageHeight uninit = Done out ->
  0 <= layerWidth -> 0 <= layerHeight ->
  exists out',
    forward L layerWidth layerHeight imageWidth imageHeight uninit' = Done out' /\
    length out' = length out /\
    forall k d,
      (k < 4 * (cells layerWidth layerHeight *
                (actualPriorsPerCell L + Z.to_nat (numPriors_ L))))%nat ->
      nth k out' d = nth k out d.
Proof.
  intros Hrun HW HH.
  pose proof (@forward_kind L layerWidth layerHeight imageWidth imageHeight
                imageWidth imageHeight uninit uninit') as Hkind.
  rewrite Hrun in Hkind. cbn [kind] in Hkind.
  destruct (forward L layerWidth layerHeight imageWidth imageHeight uninit')
    as [out'| |] eqn:Hrun'; try discriminate.
  exists out'. split; [reflexivity|].
  pose proof (forward_done_length _ _ _ _ _ _ _ Hrun) as Hlen.
  pose proof (forward_done_length _ _ _ _ _ _ _ Hrun') as Hlen'.
  split; [congruence|].
  intros k d Hk.
  destruct (forward_done_cells _ _ _ _ _ _ _ Hrun HW HH) as [Hroom Hcells].
  destruct (forward_done_cells _ _ _ _ _ _ _ Hrun' HW HH) as [_ Hcells'].
  set (boxes := all_boxes L layerWidth layerHeight imageWidth imageHeight) in *.
  set (vars := variance_block L layerWidth layerHeight) in *.
  assert (Hpos : 0 < layerWidth /\ 0 < layerHeight).
  { unfold cells in Hk. nia. }
  destruct Hpos as [HWp HHp].
  destruct (Z_lt_le_dec 0 (numPriors_ L)) as [Hn|Hn].
  - destruct (forward_done_needs _ _ _ _ _ _ _ Hrun HWp HHp Hn)
      as (_ & _ & _ & Hvar).
    assert (Hb : length boxes =
                 (4 * (cells layerWidth layerHeight * actualPriorsPerCell L))%nat).
    { unfold boxes. rewrite all_boxes_length. lia. }
    assert (Hv : length vars =
                 (cells layerWidth layerHeight * Z.to_nat (numPriors_ L) * 4)%nat).
    { unfold vars. exact (@variance_block_length L layerWidth layerHeight Hvar). }
    assert (Hin : (k < Z.to_nat (dim L layerWidth layerHeight * 2))%nat) by lia.
    rewrite (Hcells k d Hin), (Hcells' k d Hin).
    destruct (k <? length boxes)%nat; [reflexivity|].
    destruct (Nat.ltb_spec k (length boxes + length vars)); [reflexivity | lia].
  - assert (Hz : Z.to_nat (dim L layerWidth layerHeight * 2) = 0%nat).
    { unfold dim. assert (0 < layerHeight * layerWidth) by nia.
      assert (layerHeight * layerWidth * numPriors_ L <= 0) by nia. lia. }
    assert (Hb : length boxes =
                 (4 * (cells layerWidth layerHeight * actualPriorsPerCell L))%nat).
    { unfold boxes. rewrite all_boxes_length. lia. }
    replace (Z.to_nat (numPriors_ L)) with 0%nat in Hk by lia.
    lia.
Qed.

Lemma written_cells_witness :
  let L := snd (init unit_ratio) in
  exists out out',
    forward L 1 1 100 100 (fun _ => F32.zero) = Done out /\
    forward L 1 1 100 100 (fun _ => F32.one) = Done out' /\
    nth 15 out' F32.zero = nth 15 out F32.zero.
Proof.
  intros L.
  assert (Hout : exists out,
            forward L 1 1 100 100 (fun _ => F32.zero) = Done out)
    by (eexists; vm_compute; reflexivity).
  destruct Hout as [out Hout].
  destruct (written_cells_do_not_depend_on_the_memory L 1 1 100 100
              (fun _ => F32.zero) (fun _ => F32.one) out Hout
              ltac:(lia) ltac:(lia))
    as (out' & Hrun & _ & Hsame).
  exists out, out'. split; [exact Hout|]. split; [exact Hrun|].
  apply Hsame. vm_compute. lia.
Defined.
